(** * go-imap: listing response and connection transport

    A shallow embedding of [responses/list.go] (the LIST / LSUB response
    handler with its special-use filter) and of [conn.go] (connection
    states, flush aggregation, diagnostic tapping and in-place stream
    upgrade), together with the properties established about them.

    Conventions.
    - Go slices are lists, Go [map[string]bool] values are [gmap string bool]
      read with the zero value [false] for an absent key.
    - A Go [error] result is an [option error]; [None] is [nil].
    - Stateful code is written in state-passing style: every operation
      takes the state it reads and returns the state it leaves. *)

From stdpp Require Import gmap strings list.
From Stdlib Require Import ZArith.

Open Scope string_scope.
Open Scope list_scope.
Open Scope nat_scope.

Set Warnings "-clear-no-such-hyp".

(** Go bytes. *)
Abbreviation byte := Init.Byte.byte.

(** Go [error] values.  Only identity matters to the code under study.
    [ErrUnhandled] is the sentinel of package [responses] by which a
    handler declines a response; [ErrShortWrite] is [io.ErrShortWrite]. *)
Inductive error : Type :=
  | ErrUnhandled
  | ErrShortWrite
  | ErrOther (msg : string).

#[global] Instance error_eq_dec : EqDecision error.
Proof. solve_decision. Defined.

(** Reading a [map[string]bool]: an absent key yields [false]. *)
Definition map_get (h : gmap string bool) (e : string) : bool :=
  default false (h !! e).

(* ===================================================================== *)
(** * Package [responses]: list.go                                         *)
(* ===================================================================== *)

Module Responses.

Definition listName : string := "LIST".
Definition lsubName : string := "LSUB".

(** Modelled from the spec: the mailbox record of package [imap]
    ("name, hierarchy delimiter, and an ordered set of attribute
    tokens"); its declaration is outside the files under study. *)
Record MailboxInfo : Type := {
  Attributes : list string;
  Delimiter : string;
  Name_ : string
}.

(** A LIST response.  [Mailboxes] is a channel in the source; here it
    is the sequence of records queued in it, oldest first. *)
Record List : Type := {
  Mailboxes : list MailboxInfo;
  Subscribed : bool;
  SpecialUse : bool
}.

(** [r.Mailboxes <- mbox], and the channel left with the records [ms]. *)
Definition send (r : List) (mbox : MailboxInfo) : List :=
  {| Mailboxes := Mailboxes r ++ [mbox]; Subscribed := Subscribed r;
     SpecialUse := SpecialUse r |}.

Definition with_Mailboxes (r : List) (ms : list MailboxInfo) : List :=
  {| Mailboxes := ms; Subscribed := Subscribed r; SpecialUse := SpecialUse r |}.

Definition Name (r : List) : string :=
  if Subscribed r then lsubName else listName.

(** [removeDups]: one pass keeping the first occurrence of every element. *)
Definition removeDups_step (st : list string * gmap string bool) (element : string)
  : list string * gmap string bool :=
  let '(nodups, encountered) := st in
  if negb (map_get encountered element)
  then (nodups ++ [element], <[element := true]> encountered)
  else (nodups, encountered).

Definition removeDups (elements : list string) : list string :=
  fst (foldl removeDups_step ([], ∅) elements).

(** [intersection]: hash the first slice, scan the second one. *)
Definition intersection (s1 s2 : list string) : list string :=
  let hash := foldl (fun (h : gmap string bool) e => <[e := true]> h) ∅ s1 in
  let inter := foldl (fun inter e => if map_get hash e then inter ++ [e] else inter) [] s2 in
  removeDups inter.

Definition specialuse : list string :=
  ["\ALL"; "\Archive"; "\Drafts"; "\Flagged"; "\Junk"; "\Sent"; "\Trash"; "\Important"].

(** The parts of package [imap] that [Handle] and [WriteTo] call are not
    among the files under study; they are taken as parameters. *)
Section Dispatch.

(** Untyped response fields ([interface{}]) and decoded responses. *)
Context {Field Resp : Type}.
(** [imap.ParseNamedResp]: name, remaining fields, and the [ok] flag. *)
Variable ParseNamedResp : Resp -> string * list Field * bool.
(** [MailboxInfo.Parse] run on a fresh record: the record as the call
    leaves it, and the error it returns. *)
Variable Parse : list Field -> MailboxInfo * option error.
(** [imap.RawString] and [MailboxInfo.Format]. *)
Variable RawString : string -> Field.
Variable Format : MailboxInfo -> list Field.
(** The protocol writer, and [imap.NewUntaggedResp(fields).WriteTo(w)]
    acting on it. *)
Context {Writer : Type}.
Variable resp_WriteTo : list Field -> Writer -> Writer * option error.

(** [Handle].  The send is taken to go through: a receiver, or room in
    the channel, is there. *)
Definition Handle (r : List) (resp : Resp) : List * option error :=
  let '(name, fields, ok) := ParseNamedResp resp in
  if negb ok || negb (String.eqb name (Name r)) then (r, Some ErrUnhandled)
  else
    let '(mbox, err) := Parse fields in
    match err with
    | Some e => (r, Some e)
    | None => (send r mbox, None)
    end.

(** The wire fields of one record: the response name, then the
    formatted mailbox. *)
Definition line (respName : string) (mbox : MailboxInfo) : list Field :=
  RawString respName :: Format mbox.

(** The loop of [WriteTo] over the records received from the channel
    until it is closed, in receive order.  Returns the records not yet
    received, the writer, and the error. *)
Fixpoint WriteTo_loop (r : List) (respName : string)
    (mailboxes : list MailboxInfo) (w : Writer)
  : list MailboxInfo * Writer * option error :=
  match mailboxes with
  | [] => ([], w, None)
  | mbox :: rest =>
      if SpecialUse r && (length (intersection (Attributes mbox) specialuse) =? 0)%nat
      then WriteTo_loop r respName rest w
      else
        let '(w', err) := resp_WriteTo (line respName mbox) w in
        match err with
        | Some e => (rest, w', Some e)
        | None => WriteTo_loop r respName rest w'
        end
  end.

(** [WriteTo].  The producer has closed the channel behind the records
    queued in it. *)
Definition WriteTo (r : List) (w : Writer) : List * Writer * option error :=
  let respName := Name r in
  let '(rest, w', err) := WriteTo_loop r respName (Mailboxes r) w in
  (with_Mailboxes r rest, w', err).

End Dispatch.

(** A writer that records every line handed to it and never fails. *)
Definition recording_WriteTo {Field : Type} (fields : list Field)
    (w : list (list Field)) : list (list Field) * option error :=
  (w ++ [fields], None).

(** *** Reference definitions, written from the prose of the specification *)

(** The elements of a list in the order in which each one first occurs. *)
Fixpoint first_occurrences (l : list string) : list string :=
  match l with
  | [] => []
  | x :: l' => x :: filter (fun y => y ≠ x) (first_occurrences l')
  end.

(** Intersection by set membership: the tokens of the scanned side that
    belong to the other side, each once, in order of first match. *)
Definition set_intersection (s1 s2 : list string) : list string :=
  first_occurrences (filter (fun e => e ∈ s1) s2).

(** A record is emitted when filtering is off, or when one of its
    attributes belongs to the special-use vocabulary. *)
Definition emitted (r : List) (mbox : MailboxInfo) : bool :=
  negb (SpecialUse r) || bool_decide (Exists (fun a => a ∈ specialuse) (Attributes mbox)).

(** Writing a sequence of lines in order, stopping at the first error. *)
Fixpoint write_lines {Field Writer : Type}
    (resp_WriteTo : list Field -> Writer -> Writer * option error)
    (lines : list (list Field)) (w : Writer) : Writer * option error :=
  match lines with
  | [] => (w, None)
  | l :: rest =>
      match resp_WriteTo l w with
      | (w', Some e) => (w', Some e)
      | (w', None) => write_lines resp_WriteTo rest w'
      end
  end.

(** The record a response line stands for, for the handler [r]: the
    line must be a named response carrying the name of [r], and its
    fields must parse. *)
Definition decoded {Field Resp : Type}
    (ParseNamedResp : Resp -> string * list Field * bool)
    (Parse : list Field -> MailboxInfo * option error)
    (r : List) (resp : Resp) : option MailboxInfo :=
  let '(name, fields, ok) := ParseNamedResp resp in
  if ok && String.eqb name (Name r)
  then match Parse fields with
       | (mbox, None) => Some mbox
       | (_, Some _) => None
       end
  else None.

End Responses.

(* ===================================================================== *)
(** * Package [imap]: conn.go                                              *)
(* ===================================================================== *)

Module Imap.

(** ** Connection states

    [ConnState] is a Go [int]; the constants are far from its bounds, so
    no wrap-around arises and the values are plain integers. *)

Definition ConnState : Type := Z.

Definition ConnectingState : ConnState := 0%Z.
Definition NotAuthenticatedState : ConnState := Z.shiftl 1 0.
Definition AuthenticatedState : ConnState := Z.shiftl 1 1.
Definition SelectedState : ConnState := (AuthenticatedState + Z.shiftl 1 2)%Z.
Definition LogoutState : ConnState := Z.shiftl 1 3.
Definition ConnectedState : ConnState :=
  Z.lor (Z.lor NotAuthenticatedState AuthenticatedState) SelectedState.

(** ** The flush aggregator

    [multiFlusher.Flush] over any kind of flushable sink [F] acting on
    any state [St]: the sinks are visited in slice order and the first
    error is returned at once. *)
Section MultiFlusher.
Context {F St : Type}.
Variable Flush : F -> St -> St * option error.

Fixpoint multiFlusher_Flush (flushers : list F) (st : St) : St * option error :=
  match flushers with
  | [] => (st, None)
  | f :: rest =>
      let '(st', err) := Flush f st in
      match err with
      | Some e => (st', Some e)
      | None => multiFlusher_Flush rest st'
      end
  end.

(** Instrumentation used to state which flushes were attempted: the
    same sink operation, also appending the sink to a log. *)
Definition logged_Flush (f : F) (st : St * list F) : (St * list F) * option error :=
  let '(st', err) := Flush f (fst st) in ((st', snd st ++ [f]), err).

(** The state reached by flushing every sink of [fs] in order, as long
    as each flush succeeds. *)
Fixpoint flush_all_ok (fs : list F) (st : St) : option St :=
  match fs with
  | [] => Some st
  | f :: rest =>
      match Flush f st with
      | (st', None) => flush_all_ok rest st'
      | (_, Some _) => None
      end
  end.
End MultiFlusher.

(** [newMultiFlusher]: the aggregate is the list of its sinks. *)
Definition newMultiFlusher {F : Type} (flushers : list F) : list F := flushers.

(** ** Streams, sinks and the observable world *)

(** A duplex network stream ([net.Conn]): an identity, whether its
    dynamic type also has a [Flush] method, and its endpoint addresses
    ([nil] addresses are [None]). *)
Record Stream : Type := {
  sid : nat;
  flushable : bool;
  LocalAddr : option string;
  RemoteAddr : option string
}.

#[global] Instance Stream_eq_dec : EqDecision Stream.
Proof. solve_decision. Defined.

(** Outcome of one [Write] call on a stream or sink.  Following the
    [io.Writer] contract a call either takes all the bytes, or reports an
    error together with the number of bytes it took. *)
Inductive write_res : Type :=
  | WOk
  | WErr (n : nat) (e : error).

Definition res_n (r : write_res) (p : list byte) : nat :=
  match r with WOk => length p | WErr n _ => min n (length p) end.

Definition res_err (r : write_res) : option error :=
  match r with WOk => None | WErr _ e => Some e end.

(** What happened, most recent event first.  Streams, sinks and
    field-tagged sinks are named by number; the three name spaces are
    separate. *)
Inductive Event : Type :=
  | EvWrite (s : nat) (p : list byte) (r : write_res)     (* stream s: Write(p) *)
  | EvFlush (s : nat) (err : option error)                (* stream s: Flush() *)
  | EvRead (s : nat) (data : list byte) (err : option error) (* stream s: Read *)
  | EvSinkWrite (k : nat) (p : list byte) (r : write_res) (* sink k: Write(p) *)
  | EvSetField (fs : nat) (key value : string)            (* SetField *)
  | EvWriterOf (fs : nat)                                 (* WriterWithFields.Writer() *)
  | EvGateOpen                                            (* make(chan struct{}) *)
  | EvGateClose                                           (* close(c.waits) *)
  | EvUpgrader (s : nat).                                 (* upgrader(c.Conn) *)

Definition Trace : Type := list Event.

Definition on_stream (s : nat) (e : Event) : bool :=
  match e with
  | EvWrite s' _ _ | EvFlush s' _ | EvRead s' _ _ | EvUpgrader s' => Nat.eqb s s'
  | _ => false
  end.

Definition on_sink (k : nat) (e : Event) : bool :=
  match e with EvSinkWrite k' _ _ => Nat.eqb k k' | _ => false end.

Definition on_fields (fs : nat) (e : Event) : bool :=
  match e with
  | EvSetField fs' _ _ | EvWriterOf fs' => Nat.eqb fs fs'
  | _ => false
  end.

(** The history of one object: the events that happened on it. *)
Definition history (sel : Event -> bool) (t : Trace) : Trace := List.filter sel t.

(** The bytes a stream has accepted so far, oldest first. *)
Fixpoint delivered (s : nat) (t : Trace) : list byte :=
  match t with
  | [] => []
  | EvWrite s' p r :: t' =>
      if Nat.eqb s s' then delivered s t' ++ take (res_n r p) p else delivered s t'
  | _ :: t' => delivered s t'
  end.

(** How the outside behaves.  Each object answers from its own history. *)
Record Env : Type := {
  stream_write : nat -> Trace -> list byte -> write_res;
  stream_flush : nat -> Trace -> option error;
  stream_read : nat -> Trace -> nat -> list byte * option error;
  sink_write : nat -> Trace -> list byte -> write_res;
  (** [WriterWithFields.Writer()]: the sink handed out, if any. *)
  fields_Writer : nat -> Trace -> option nat
}.

(** ** The [io] and [bufio] layers that [init] composes

    [io.MultiWriter], [io.TeeReader], [bufio.Writer] and [bufio.Reader]
    belong to Go's standard library.  They are written here after their
    documentation and source, with the default buffer size of 4096. *)

(** An [io.Writer] that [init] may hand to the buffered writer: the
    stream itself, or [io.MultiWriter(c.Conn, localDebug)]. *)
Inductive Leaf : Type :=
  | ToStream (s : Stream)
  | ToSink (k : nat).

Inductive IoWriter : Type :=
  | Direct (s : Stream)
  | MultiWriter (writers : list Leaf).

(** An [io.Reader] that [init] may hand to the buffered reader: the
    stream itself, or [io.TeeReader(c.Conn, remoteDebug)]. *)
Inductive IoReader : Type :=
  | FromStream (s : Stream)
  | TeeReader (s : Stream) (w : nat).

(** [bufio.Writer]: the sticky error, the pending bytes [buf[0:n]], and
    the writer underneath. *)
Record BufWriter : Type := {
  bw_err : option error;
  bw_buf : list byte;
  bw_wr : IoWriter
}.

(** [bufio.Reader]: the reader underneath, the buffered bytes not yet
    consumed [buf[r:w]], and the pending read error. *)
Record BufReader : Type := {
  br_rd : IoReader;
  br_buf : list byte;
  br_err : option error
}.

Definition defaultBufSize : nat := 4096.

Definition NewWriter (w : IoWriter) : BufWriter :=
  {| bw_err := None; bw_buf := []; bw_wr := w |}.

(** [bufio.Writer.Reset]: drops pending bytes, clears the error, rebinds. *)
Definition bw_Reset (b : BufWriter) (w : IoWriter) : BufWriter :=
  {| bw_err := None; bw_buf := []; bw_wr := w |}.

Definition NewReader (r : IoReader) : BufReader :=
  {| br_rd := r; br_buf := []; br_err := None |}.

(** [bufio.Reader.Reset]: drops buffered bytes, clears the error, rebinds. *)
Definition br_Reset (b : BufReader) (r : IoReader) : BufReader :=
  {| br_rd := r; br_buf := []; br_err := None |}.

Definition Available (b : BufWriter) : nat := defaultBufSize - length (bw_buf b).

Section World.
Variable E : Env.

Definition stream_Write (s : Stream) (p : list byte) (t : Trace)
  : Trace * (nat * option error) :=
  let r := stream_write E (sid s) (history (on_stream (sid s)) t) p in
  (EvWrite (sid s) p r :: t, (res_n r p, res_err r)).

Definition sink_Write (k : nat) (p : list byte) (t : Trace)
  : Trace * (nat * option error) :=
  let r := sink_write E k (history (on_sink k) t) p in
  (EvSinkWrite k p r :: t, (res_n r p, res_err r)).

Definition stream_Flush (s : Stream) (t : Trace) : Trace * option error :=
  let err := stream_flush E (sid s) (history (on_stream (sid s)) t) in
  (EvFlush (sid s) err :: t, err).

(** [Read(p)] on the stream with [len(p) = n]: at most [n] bytes. *)
Definition stream_Read (s : Stream) (n : nat) (t : Trace)
  : Trace * (list byte * option error) :=
  let '(data, err) := stream_read E (sid s) (history (on_stream (sid s)) t) n in
  let data := take n data in
  (EvRead (sid s) data err :: t, (data, err)).

Definition leaf_Write (w : Leaf) (p : list byte) (t : Trace)
  : Trace * (nat * option error) :=
  match w with
  | ToStream s => stream_Write s p t
  | ToSink k => sink_Write k p t
  end.

(** [io.multiWriter.Write]: each listed writer in turn; the first
    error, or the first short count, stops the call. *)
Fixpoint multiWriter_Write (writers : list Leaf) (p : list byte) (t : Trace)
  : Trace * (nat * option error) :=
  match writers with
  | [] => (t, (length p, None))
  | w :: rest =>
      let '(t', (n, err)) := leaf_Write w p t in
      match err with
      | Some e => (t', (n, Some e))
      | None =>
          if negb (n =? length p)%nat then (t', (n, Some ErrShortWrite))
          else multiWriter_Write rest p t'
      end
  end.

Definition io_Write (w : IoWriter) (p : list byte) (t : Trace)
  : Trace * (nat * option error) :=
  match w with
  | Direct s => stream_Write s p t
  | MultiWriter ws => multiWriter_Write ws p t
  end.

(** [io.teeReader.Read]: what was read is written to [w]; an error of
    that write replaces the result of the read. *)
Definition io_Read (r : IoReader) (n : nat) (t : Trace)
  : Trace * (list byte * option error) :=
  match r with
  | FromStream s => stream_Read s n t
  | TeeReader s w =>
      let '(t1, (data, err)) := stream_Read s n t in
      if (0 <? length data)%nat then
        let '(t2, (n', err')) := sink_Write w data t1 in
        match err' with
        | Some e => (t2, (take n' data, Some e))
        | None => (t2, (data, err))
        end
      else (t1, (data, err))
  end.

(** [bufio.Writer.Flush]. *)
Definition bw_Flush (b : BufWriter) (t : Trace) : BufWriter * Trace * option error :=
  match bw_err b with
  | Some e => (b, t, Some e)
  | None =>
      if (length (bw_buf b) =? 0)%nat then (b, t, None)
      else
        let '(t', (n, err)) := io_Write (bw_wr b) (bw_buf b) t in
        let err :=
          match err with
          | None => if (n <? length (bw_buf b))%nat then Some ErrShortWrite else None
          | Some e => Some e
          end in
        match err with
        | Some e =>
            ({| bw_err := Some e; bw_buf := drop n (bw_buf b); bw_wr := bw_wr b |},
             t', Some e)
        | None => ({| bw_err := None; bw_buf := []; bw_wr := bw_wr b |}, t', None)
        end
  end.

(** The condition of the loop of [bufio.Writer.Write]. *)
Definition bw_Write_more (b : BufWriter) (p : list byte) : bool :=
  (Available b <? length p)%nat && bool_decide (bw_err b = None).

(** The loop of [bufio.Writer.Write]: the writer, the bytes not yet
    taken, the count [nn] and the trace.  [fuel] bounds the number of
    iterations; two are always enough ([bw_Write_loop_done]). *)
Fixpoint bw_Write_loop (fuel : nat) (b : BufWriter) (p : list byte) (nn : nat)
    (t : Trace) : BufWriter * list byte * nat * Trace :=
  if bw_Write_more b p then
    match fuel with
    | O => (b, p, nn, t)
    | S fuel' =>
        if (length (bw_buf b) =? 0)%nat then
          (* Large write, empty buffer: write directly from p. *)
          let '(t', (n, err)) := io_Write (bw_wr b) p t in
          bw_Write_loop fuel'
            {| bw_err := err; bw_buf := bw_buf b; bw_wr := bw_wr b |}
            (drop n p) (nn + n) t'
        else
          let n := min (Available b) (length p) in
          let '(b', t', _) :=
            bw_Flush {| bw_err := bw_err b; bw_buf := bw_buf b ++ take n p;
                        bw_wr := bw_wr b |} t in
          bw_Write_loop fuel' b' (drop n p) (nn + n) t'
    end
  else (b, p, nn, t).

(** [bufio.Writer.Write]. *)
Definition bw_Write (b : BufWriter) (p : list byte) (t : Trace)
  : BufWriter * Trace * (nat * option error) :=
  let '(b1, p1, nn, t1) := bw_Write_loop 2 b p 0 t in
  match bw_err b1 with
  | Some e => (b1, t1, (nn, Some e))
  | None =>
      let n := min (Available b1) (length p1) in
      ({| bw_err := None; bw_buf := bw_buf b1 ++ take n p1; bw_wr := bw_wr b1 |},
       t1, (nn + n, None))
  end.

(** [bufio.Reader.Read(p)] with [len(p) = n]. *)
Definition br_Read (b : BufReader) (n : nat) (t : Trace)
  : BufReader * Trace * (list byte * option error) :=
  let copy (b : BufReader) (t : Trace) :=
    ({| br_rd := br_rd b; br_buf := drop n (br_buf b); br_err := br_err b |},
     t, (take n (br_buf b), None)) in
  let readErr (b : BufReader) (t : Trace) (data : list byte) :=
    ({| br_rd := br_rd b; br_buf := br_buf b; br_err := None |}, t, (data, br_err b)) in
  if (n =? 0)%nat then
    if (0 <? length (br_buf b))%nat then (b, t, ([], None)) else readErr b t []
  else if (length (br_buf b) =? 0)%nat then
    match br_err b with
    | Some _ => readErr b t []
    | None =>
        if (defaultBufSize <=? n)%nat then
          (* Large read, empty buffer: read directly into p. *)
          let '(t', (data, err)) := io_Read (br_rd b) n t in
          readErr {| br_rd := br_rd b; br_buf := []; br_err := err |} t' data
        else
          (* One read into the buffer. *)
          let '(t', (data, err)) := io_Read (br_rd b) defaultBufSize t in
          let b' := {| br_rd := br_rd b; br_buf := data; br_err := err |} in
          if (length data =? 0)%nat then readErr b' t' [] else copy b' t'
    end
  else copy b t.

(** ** Diagnostic sinks *)

(** [WriterWithFields.SetField] and [WriterWithFields.Writer] on the
    field-tagged sink [fs]. *)
Definition fields_SetField (fs : nat) (key value : string) (t : Trace) : Trace :=
  EvSetField fs key value :: t.

Definition fields_Writer_call (fs : nat) (t : Trace) : Trace * option nat :=
  (EvWriterOf fs :: t, fields_Writer E fs (history (on_fields fs) t)).

End World.

(** The dynamic type and content of [c.debug]: a [*debugWriter], a
    [*debugWithFields] (with its embedded [Writer]), or any other
    [io.Writer].  Absent sinks are [nil] interfaces. *)
Inductive Debug : Type :=
  | DebugWriter (local remote : option nat)
  | DebugWithFields (Writer : option nat) (local remote : option nat)
  | DebugOther (k : nat).

(** [NewDebugWriter]. *)
Definition NewDebugWriter (local remote : option nat) : Debug :=
  DebugWriter local remote.

(** ** The connection *)

(** A [chan struct{}] value. *)
Inductive chan : Type := ChanOpen | ChanClosed.

(** What [multiFlusher] aggregates in [init]: the connection's own
    [*bufio.Writer], and a stream with a [Flush] method. *)
Inductive flusher : Type :=
  | FlushBuf
  | FlushStream (s : Stream).

(** The value of [c.Writer.Writer]: what the caller of [NewConn] left
    there ([nil] for the callers in the package), [c.bw], or the
    anonymous struct pairing [c.bw] with a [multiFlusher]. *)
Inductive WriterSlot : Type :=
  | SlotUnset
  | SlotBuf
  | SlotFlusher (flushers : list flusher).

(** The value of [c.Reader.reader]. *)
Inductive ReaderSlot : Type :=
  | RSlotUnset
  | RSlotBuf.

Record Conn : Type := {
  net_Conn : Stream;
  Reader_reader : ReaderSlot;
  Writer_Writer : WriterSlot;
  br : option BufReader;
  bw : option BufWriter;
  waits : option chan;
  debug : option Debug
}.

Definition set_waits (c : Conn) (w : option chan) : Conn :=
  {| net_Conn := net_Conn c; Reader_reader := Reader_reader c;
     Writer_Writer := Writer_Writer c; br := br c; bw := bw c;
     waits := w; debug := debug c |}.

Definition set_net_Conn (c : Conn) (s : Stream) : Conn :=
  {| net_Conn := s; Reader_reader := Reader_reader c;
     Writer_Writer := Writer_Writer c; br := br c; bw := bw c;
     waits := waits c; debug := debug c |}.

Definition set_debug (c : Conn) (d : option Debug) : Conn :=
  {| net_Conn := net_Conn c; Reader_reader := Reader_reader c;
     Writer_Writer := Writer_Writer c; br := br c; bw := bw c;
     waits := waits c; debug := d |}.

Definition set_bw (c : Conn) (b : BufWriter) : Conn :=
  {| net_Conn := net_Conn c; Reader_reader := Reader_reader c;
     Writer_Writer := Writer_Writer c; br := br c; bw := Some b;
     waits := waits c; debug := debug c |}.

Definition set_br (c : Conn) (b : BufReader) : Conn :=
  {| net_Conn := net_Conn c; Reader_reader := Reader_reader c;
     Writer_Writer := Writer_Writer c; br := Some b; bw := bw c;
     waits := waits c; debug := debug c |}.

(** A function that upgrades a connection.  It may act on the world
    (a handshake on the old stream, say) before it answers. *)
Definition ConnUpgrader : Type := Stream -> Trace -> Trace * (Stream + error).

Section Transport.
Variable E : Env.

(** [NewDebugWithFields]. *)
Definition NewDebugWithFields (local remote : option nat) (t : Trace)
  : Debug * Trace :=
  match local with
  | Some l =>
      let '(t', w) := fields_Writer_call E l t in
      (DebugWithFields w local remote, t')
  | None => (DebugWithFields None local remote, t)
  end.

(** [debugWithFields.withField]. *)
Definition withField (local remote : option nat) (key value : string)
    (t : Trace) : Trace :=
  let t1 := match local with Some l => fields_SetField l key value t | None => t end in
  match remote with Some r => fields_SetField r key value t1 | None => t1 end.

(** [debugWithFields.localWriter]: the new embedded [Writer] and the
    sink returned. *)
Definition localWriter (Writer local : option nat) (t : Trace)
  : option nat * option nat * Trace :=
  match local with
  | None => (Writer, None, t)
  | Some l =>
      let '(t', w) := fields_Writer_call E l t in (w, w, t')
  end.

(** [debugWithFields.remoteWriter]. *)
Definition remoteWriter (remote : option nat) (t : Trace) : option nat * Trace :=
  match remote with
  | None => (None, t)
  | Some r => let '(t', w) := fields_Writer_call E r t in (w, t')
  end.

(** The first half of [init] under [c.debug != nil]: the debug value
    as the calls leave it, [localDebug], [remoteDebug]. *)
Definition debug_sinks (s : Stream) (d : Debug) (t : Trace)
  : Debug * option nat * option nat * Trace :=
  match d with
  | DebugOther k => (d, Some k, Some k, t)
  | DebugWriter local remote => (d, local, remote, t)
  | DebugWithFields W local remote =>
      let t1 := match LocalAddr s with
                | Some addr => withField local remote "loc" addr t
                | None => t
                end in
      let t2 := match RemoteAddr s with
                | Some addr => withField local remote "rem" addr t1
                | None => t1
                end in
      let '(W', localDebug, t3) := localWriter W local t2 in
      let '(remoteDebug, t4) := remoteWriter remote t3 in
      (DebugWithFields W' local remote, localDebug, remoteDebug, t4)
  end.

(** [Conn.init]. *)
Definition init (c : Conn) (t : Trace) : Conn * Trace :=
  let s := net_Conn c in
  let '(d, r, w, t1) :=
    match debug c with
    | None => (None, FromStream s, Direct s, t)
    | Some d =>
        let '(d', localDebug, remoteDebug, t') := debug_sinks s d t in
        (Some d',
         match remoteDebug with
         | Some k => TeeReader s k
         | None => FromStream s
         end,
         match localDebug with
         | Some k => MultiWriter [ToStream s; ToSink k]
         | None => Direct s
         end,
         t')
    end in
  let '(br', rslot) :=
    match br c with
    | None => (NewReader r, RSlotBuf)
    | Some b => (br_Reset b r, Reader_reader c)
    end in
  let '(bw', wslot) :=
    match bw c with
    | None => (NewWriter w, SlotBuf)
    | Some b => (bw_Reset b w, Writer_Writer c)
    end in
  let wslot' :=
    if flushable s
    then SlotFlusher (newMultiFlusher [FlushBuf; FlushStream s])
    else wslot in
  ({| net_Conn := s; Reader_reader := rslot; Writer_Writer := wslot';
      br := Some br'; bw := Some bw'; waits := waits c; debug := d |}, t1).

(** [NewConn]: the reader and writer handed in wrap nothing yet. *)
Definition NewConn (conn : Stream) (t : Trace) : Conn * Trace :=
  init {| net_Conn := conn; Reader_reader := RSlotUnset; Writer_Writer := SlotUnset;
          br := None; bw := None; waits := None; debug := None |} t.

(** One sink of the aggregate flushed, acting on the connection's
    buffered writer and the world. *)
Definition flusher_Flush (f : flusher) (st : BufWriter * Trace)
  : (BufWriter * Trace) * option error :=
  match f with
  | FlushBuf => let '(b, t, err) := bw_Flush E (fst st) (snd st) in ((b, t), err)
  | FlushStream s => let '(t, err) := stream_Flush E s (snd st) in ((fst st, t), err)
  end.

(** Modelled from the spec: [Writer.Flush] of package [imap], declared
    outside the files under study ("flushes the buffered writer; if the
    underlying stream exposes its own flush capability, both must
    succeed"): it runs the [Flush] of whatever [Writer.Writer] holds,
    and does nothing when that value has none.  [None] stands for the
    run-time panic of going through a [nil] [*bufio.Writer]. *)
Definition Writer_Flush (c : Conn) (t : Trace) : option (Conn * Trace * option error) :=
  match Writer_Writer c with
  | SlotUnset => Some (c, t, None)
  | SlotBuf =>
      match bw c with
      | None => None
      | Some b => let '(b', t', err) := bw_Flush E b t in Some (set_bw c b', t', err)
      end
  | SlotFlusher fl =>
      match bw c with
      | None => None
      | Some b =>
          let '((b', t'), err) := multiFlusher_Flush flusher_Flush fl (b, t) in
          Some (set_bw c b', t', err)
      end
  end.

(** [Conn.Write]: [c.Writer.Write(b)].  The protocol writer embeds an
    [io.Writer] and its [Write] is the promoted one ("forwards to the
    buffered writer; does not implicitly flush"), so the call lands on
    what [Writer.Writer] holds: [c.bw], directly or as the [io.Writer]
    part of the anonymous struct.  [None] is the panic on a [nil]
    writer. *)
Definition Write (c : Conn) (p : list byte) (t : Trace)
  : option (Conn * Trace * (nat * option error)) :=
  match Writer_Writer c, bw c with
  | SlotBuf, Some b | SlotFlusher _, Some b =>
      let '(b', t', res) := bw_Write E b p t in Some (set_bw c b', t', res)
  | _, _ => None
  end.

(** [Conn.Flush]. *)
Definition Flush (c : Conn) (t : Trace) : option (Conn * Trace * option error) :=
  match Writer_Flush c t with
  | None => None
  | Some (c', t', Some err) => Some (c', t', Some err)
  | Some (c', t', None) => Some (c', t', None)
  end.

(** [Conn.Upgrade]. *)
Definition Upgrade (upgrader : ConnUpgrader) (c : Conn) (t : Trace)
  : option (Conn * Trace * option error) :=
  match Flush c t with
  | None => None
  | Some (c1, t1, Some err) => Some (c1, t1, Some err)
  | Some (c1, t1, None) =>
      let c2 := set_waits c1 (Some ChanOpen) in
      let t2 := EvGateOpen :: t1 in
      let '(t3, res) := upgrader (net_Conn c2) (EvUpgrader (sid (net_Conn c2)) :: t2) in
      match res with
      | inr err => Some (set_waits c2 (Some ChanClosed), EvGateClose :: t3, Some err)
      | inl upgraded =>
          let '(c3, t4) := init (set_net_Conn c2 upgraded) t3 in
          Some (set_waits c3 (Some ChanClosed), EvGateClose :: t4, None)
      end
  end.

(** [Conn.Wait]: [true] when the call returns, [false] when it blocks
    on a channel nobody has closed yet. *)
Definition Wait (c : Conn) : bool :=
  match waits c with
  | Some ChanOpen => false
  | _ => true
  end.

(** [Conn.SetDebug]. *)
Definition SetDebug (w : option Debug) (c : Conn) (t : Trace) : Conn * Trace :=
  init (set_debug c w) t.

(** A read by the protocol reader: [Read] on [c.Reader.reader]. *)
Definition Reader_Read (c : Conn) (n : nat) (t : Trace)
  : option (Conn * Trace * (list byte * option error)) :=
  match Reader_reader c, br c with
  | RSlotBuf, Some b =>
      let '(b', t', res) := br_Read E b n t in Some (set_br c b', t', res)
  | _, _ => None
  end.

(** A session on the transport: writes, flushes and reads, with what
    each call returned. *)
Inductive Op : Type :=
  | OpWrite (p : list byte)
  | OpFlush
  | OpRead (n : nat).

Inductive Out : Type :=
  | OutWrite (n : nat) (err : option error)
  | OutFlush (err : option error)
  | OutRead (data : list byte) (err : option error).

Definition step (op : Op) (c : Conn) (t : Trace) : option (Conn * Trace * Out) :=
  match op with
  | OpWrite p =>
      match Write c p t with
      | Some (c', t', (n, err)) => Some (c', t', OutWrite n err)
      | None => None
      end
  | OpFlush =>
      match Flush c t with
      | Some (c', t', err) => Some (c', t', OutFlush err)
      | None => None
      end
  | OpRead n =>
      match Reader_Read c n t with
      | Some (c', t', (data, err)) => Some (c', t', OutRead data err)
      | None => None
      end
  end.

Fixpoint run (ops : list Op) (c : Conn) (t : Trace)
  : option (Conn * Trace * list Out) :=
  match ops with
  | [] => Some (c, t, [])
  | op :: rest =>
      match step op c t with
      | None => None
      | Some (c', t', out) =>
          match run rest c' t' with
          | None => None
          | Some (c'', t'', outs) => Some (c'', t'', out :: outs)
          end
      end
  end.

End Transport.

(** The states a connection can be in: made by [NewConn], then driven
    by writes, flushes, reads, [SetDebug] and [Upgrade]. *)
Inductive reachable (E : Env) : Conn -> Trace -> Prop :=
  | reach_NewConn (s : Stream) (t : Trace) :
      reachable E (fst (NewConn E s t)) (snd (NewConn E s t))
  | reach_step (c c' : Conn) (t t' : Trace) (op : Op) (out : Out) :
      reachable E c t → step E op c t = Some (c', t', out) → reachable E c' t'
  | reach_SetDebug (c : Conn) (t : Trace) (w : option Debug) :
      reachable E c t → reachable E (fst (SetDebug E w c t)) (snd (SetDebug E w c t))
  | reach_Upgrade (c c' : Conn) (t t' : Trace) (upgrader : ConnUpgrader)
      (err : option error) :
      reachable E c t → Upgrade E upgrader c t = Some (c', t', err) →
      reachable E c' t'.

(** ** Vocabulary for the statements below *)

(** The streams an [io.Writer] built by [init] writes to. *)
Definition wr_streams (w : IoWriter) : list Stream :=
  match w with
  | Direct s => [s]
  | MultiWriter ws =>
      flat_map (fun l => match l with ToStream s => [s] | ToSink _ => [] end) ws
  end.

(** The stream an [io.Reader] built by [init] reads from. *)
Definition rd_stream (r : IoReader) : Stream :=
  match r with FromStream s | TeeReader s _ => s end.

(** The buffered reader and writer exist, are the ones the protocol
    reader and writer go through, and sit on the stream [s]. *)
Definition bound_to (s : Stream) (c : Conn) : Prop :=
  ∃ b r, bw c = Some b ∧ br c = Some r
         ∧ wr_streams (bw_wr b) = [s] ∧ rd_stream (br_rd r) = s
         ∧ Writer_Writer c ≠ SlotUnset ∧ Reader_reader c = RSlotBuf.

(** The flush strategy that goes with the stream [s]: the buffered
    writer, then the stream's own [Flush] when it has one. *)
Definition flush_strategy (s : Stream) : WriterSlot :=
  if flushable s then SlotFlusher [FlushBuf; FlushStream s] else SlotBuf.

(** The streams whose [Flush] the connection's [Flush] calls. *)
Definition flushed_streams (c : Conn) : list Stream :=
  match Writer_Writer c with
  | SlotFlusher fl =>
      flat_map (fun f => match f with FlushStream s => [s] | FlushBuf => [] end) fl
  | _ => []
  end.

(** Events of input and output, as opposed to those of an upgrade. *)
Definition is_io_event (ev : Event) : bool :=
  match ev with
  | EvWrite _ _ _ | EvFlush _ _ | EvRead _ _ _ | EvSinkWrite _ _ _ => true
  | _ => false
  end.

(** [t'] continues [t] by events that all pass the test [ok]. *)
Definition extends_with (ok : Event -> bool) (t t' : Trace) : Prop :=
  ∃ new, t' = new ++ t ∧ Forall (fun ev => ok ev = true) new.

(** [t'] continues [t] by events of input and output only. *)
Definition io_extends (t t' : Trace) : Prop := extends_with is_io_event t t'.

(** Events of input and output in which every stream write goes to a
    stream that the writer [w] writes to. *)
Definition output_of (w : IoWriter) (ev : Event) : bool :=
  match ev with
  | EvWrite s _ _ => bool_decide (s ∈ map sid (wr_streams w))
  | EvFlush _ _ | EvRead _ _ _ | EvSinkWrite _ _ _ => true
  | _ => false
  end.

(** The wiring of a connection: everything but the content of its
    buffers. *)
Definition same_wiring (c c' : Conn) : Prop :=
  net_Conn c' = net_Conn c ∧ Reader_reader c' = Reader_reader c
  ∧ Writer_Writer c' = Writer_Writer c
  ∧ waits c' = waits c ∧ debug c' = debug c
  ∧ (bw_wr <$> bw c') = (bw_wr <$> bw c)
  ∧ (br_rd <$> br c') = (br_rd <$> br c).

(** The events a session on the connection may add. *)
Definition conn_output (c : Conn) (ev : Event) : bool :=
  match ev with
  | EvWrite s _ _ =>
      bool_decide (s ∈ map sid (from_option (fun b => wr_streams (bw_wr b)) [] (bw c)))
  | EvFlush _ _ | EvRead _ _ _ | EvSinkWrite _ _ _ => true
  | _ => false
  end.

(** Every write to the configured sinks succeeds. *)
Definition sinks_ok (E : Env) (localDebug remoteDebug : option nat) : Prop :=
  ∀ k, localDebug = Some k ∨ remoteDebug = Some k →
       ∀ h p, sink_write E k h p = WOk.

(** The writer and the reader [init] builds over [s] for the sinks
    [localDebug] and [remoteDebug]. *)
Definition tap_wr (s : Stream) (localDebug : option nat) : IoWriter :=
  match localDebug with
  | Some k => MultiWriter [ToStream s; ToSink k]
  | None => Direct s
  end.

Definition tap_rd (s : Stream) (remoteDebug : option nat) : IoReader :=
  match remoteDebug with
  | Some k => TeeReader s k
  | None => FromStream s
  end.

(** Reference definition, written from the prose of the specification:
    what a session on stream [s] looks like when tapped, given what it
    looks like untapped.  Every write the stream took in full is followed
    by the same bytes going to the local sink, every non-empty read by
    the same bytes going to the remote sink; nothing else is added and
    nothing is changed.  (Traces list the latest event first.) *)
Fixpoint tapped (s : nat) (localDebug remoteDebug : option nat) (t : Trace) : Trace :=
  match t with
  | [] => []
  | ev :: rest =>
      let copy :=
        match ev with
        | EvWrite s' p WOk =>
            match localDebug with
            | Some k => if Nat.eqb s s' then [EvSinkWrite k p WOk] else []
            | None => []
            end
        | EvRead s' data _ =>
            match remoteDebug with
            | Some k =>
                if Nat.eqb s s' && (0 <? length data)%nat
                then [EvSinkWrite k data WOk] else []
            | None => []
            end
        | _ => []
        end in
      copy ++ ev :: tapped s localDebug remoteDebug rest
  end.

(** The connection with its taps taken out: the same buffers, sitting
    on the bare stream. *)
Definition untap_bw (s : Stream) (b : BufWriter) : BufWriter :=
  {| bw_err := bw_err b; bw_buf := bw_buf b; bw_wr := Direct s |}.

Definition untap_br (s : Stream) (b : BufReader) : BufReader :=
  {| br_rd := FromStream s; br_buf := br_buf b; br_err := br_err b |}.

Definition untap (c : Conn) : Conn :=
  {| net_Conn := net_Conn c; Reader_reader := Reader_reader c;
     Writer_Writer := Writer_Writer c;
     br := untap_br (net_Conn c) <$> br c;
     bw := untap_bw (net_Conn c) <$> bw c;
     waits := waits c; debug := None |}.

(** The buffers of [c], where allocated, sit on the taps of [s] for the
    sinks [localDebug] and [remoteDebug]. *)
Definition tapped_conn (s : Stream) (localDebug remoteDebug : option nat)
    (c : Conn) : Prop :=
  net_Conn c = s
  ∧ (∀ b, bw c = Some b → bw_wr b = tap_wr s localDebug)
  ∧ (∀ b, br c = Some b → br_rd b = tap_rd s remoteDebug).

(** A tapped session that started at [t0t] against an untapped one that
    started at [t0p]: the tapped trace is the untapped one with the
    copies put in. *)
Definition tap_rel (s : Stream) (localDebug remoteDebug : option nat)
    (t0t t0p tt tp : Trace) : Prop :=
  ∃ new, tp = new ++ t0p ∧ tt = tapped (sid s) localDebug remoteDebug new ++ t0t.

(** Events on field-tagged sinks. *)
Definition is_field_event (ev : Event) : bool :=
  match ev with
  | EvSetField _ _ _ | EvWriterOf _ => true
  | _ => false
  end.

(** *** Bytes in flight *)

(** The bytes written to the connection and not yet handed to the
    stream, and the bytes read from the stream and not yet consumed. *)
Definition pending_output (c : Conn) : list byte := from_option bw_buf [] (bw c).
Definition unread_input (c : Conn) : list byte := from_option br_buf [] (br c).

(** The bytes a stream has handed out to reads so far, oldest first. *)
Fixpoint received (s : nat) (t : Trace) : list byte :=
  match t with
  | [] => []
  | EvRead s' data _ :: t' =>
      if Nat.eqb s s' then received s t' ++ data else received s t'
  | _ :: t' => received s t'
  end.

(** The bytes the writes of a session took, and the bytes its reads
    returned, in order. *)
Fixpoint accepted (ops : list Op) (outs : list Out) : list byte :=
  match ops, outs with
  | OpWrite p :: ops', OutWrite n _ :: outs' => take n p ++ accepted ops' outs'
  | _ :: ops', _ :: outs' => accepted ops' outs'
  | _, _ => []
  end.

Fixpoint consumed (outs : list Out) : list byte :=
  match outs with
  | [] => []
  | OutRead data _ :: outs' => data ++ consumed outs'
  | _ :: outs' => consumed outs'
  end.

(** The sinks the buffers of a connection copy to. *)
Definition wr_sinks (w : IoWriter) : list nat :=
  match w with
  | Direct _ => []
  | MultiWriter ws =>
      flat_map (fun l => match l with ToStream _ => [] | ToSink k => [k] end) ws
  end.

Definition rd_sinks (r : IoReader) : list nat :=
  match r with FromStream _ => [] | TeeReader _ k => [k] end.

Definition conn_sinks (c : Conn) : list nat :=
  from_option (fun b => wr_sinks (bw_wr b)) [] (bw c)
  ++ from_option (fun b => rd_sinks (br_rd b)) [] (br c).

(** Every sink the connection copies to takes every write. *)
Definition conn_sinks_ok (E : Env) (c : Conn) : Prop :=
  ∀ k, k ∈ conn_sinks c → ∀ h p, sink_write E k h p = WOk.

(** The shapes [init] gives to [c.Writer.Writer]: the buffered writer
    alone, or the buffered writer followed by one stream that has a
    [Flush] method. *)
Definition slot_shape (w : WriterSlot) : Prop :=
  w = SlotBuf ∨ ∃ s, flushable s = true ∧ w = SlotFlusher [FlushBuf; FlushStream s].

(** Between [t] and [t'] the stream [s] took the bytes [out] and handed
    out the bytes [inp], and no other stream took or handed out any. *)
Definition traffic (s : nat) (out inp : list byte) (t t' : Trace) : Prop :=
  delivered s t' = delivered s t ++ out
  ∧ received s t' = received s t ++ inp
  ∧ ∀ s', s' ≠ s → delivered s' t' = delivered s' t ∧ received s' t' = received s' t.

(** The sticky error of the buffered writer, if it has one. *)
Definition write_error (c : Conn) : option error := bw c ≫= bw_err.

(** The fields [init] sets on a field-tagged sink for the stream [s],
    most recent first: ["loc"], then ["rem"], each when the stream has
    that address. *)
Definition address_tags (s : Stream) (fs : nat) : Trace :=
  match RemoteAddr s with Some addr => [EvSetField fs "rem" addr] | None => [] end
  ++ match LocalAddr s with Some addr => [EvSetField fs "loc" addr] | None => [] end.

(** ** Sample worlds *)

Module Samples.

(** Everything succeeds; reads return nothing. *)
Definition env_ok : Env :=
  {| stream_write := fun _ _ _ => WOk;
     stream_flush := fun _ _ => None;
     stream_read := fun _ _ _ => ([], None);
     sink_write := fun _ _ _ => WOk;
     fields_Writer := fun fs _ => Some fs |}.

(** The streams refuse every write. *)
Definition env_broken_stream : Env :=
  {| stream_write := fun _ _ _ => WErr 0 (ErrOther "broken pipe");
     stream_flush := fun _ _ => None;
     stream_read := fun _ _ _ => ([], None);
     sink_write := fun _ _ _ => WOk;
     fields_Writer := fun fs _ => Some fs |}.

(** The streams take one byte of every write and then fail. *)
Definition env_partial_stream : Env :=
  {| stream_write := fun _ _ _ => WErr 1 (ErrOther "connection reset");
     stream_flush := fun _ _ => None;
     stream_read := fun _ _ _ => ([], None);
     sink_write := fun _ _ _ => WOk;
     fields_Writer := fun fs _ => Some fs |}.

(** The sinks refuse every write; the streams hand out one byte per
    read. *)
Definition env_broken_sink : Env :=
  {| stream_write := fun _ _ _ => WOk;
     stream_flush := fun _ _ => None;
     stream_read := fun _ _ _ => ([Byte.x61], None);
     sink_write := fun _ _ _ => WErr 0 (ErrOther "disk full");
     fields_Writer := fun fs _ => Some fs |}.

(** A plain stream, and a stream with a [Flush] method. *)
Definition plain_stream (n : nat) : Stream :=
  {| sid := n; flushable := false; LocalAddr := None; RemoteAddr := None |}.

Definition flushing_stream (n : nat) : Stream :=
  {| sid := n; flushable := true; LocalAddr := None; RemoteAddr := None |}.

(** Upgraders: one that fails, one that hands out a given stream. *)
Definition failing_upgrader : ConnUpgrader :=
  fun _ t => (t, inr (ErrOther "handshake failed")).

Definition upgrade_to (s : Stream) : ConnUpgrader :=
  fun _ t => (t, inl s).

Definition hi : list byte := [Byte.x68; Byte.x69].

(** A new connection on [s], and the same with two bytes written and
    not yet flushed. *)
Definition fresh (E : Env) (s : Stream) : Conn * Trace := NewConn E s [].

(** A session that writes and flushes twice, then reads. *)
Definition session : list Op :=
  [OpWrite hi; OpFlush; OpWrite hi; OpFlush; OpRead 1].

Definition pending (E : Env) (s : Stream) : Conn * Trace :=
  let '(c, t) := fresh E s in
  match Write E c hi t with
  | Some (c', t', _) => (c', t')
  | None => (c, t)
  end.

(** The connection and the world after a session, and after an
    [Upgrade]. *)
Definition after (E : Env) (ops : list Op) (ct : Conn * Trace) : Conn * Trace :=
  match run E ops (fst ct) (snd ct) with
  | Some (c', t', _) => (c', t')
  | None => ct
  end.

Definition upgraded (E : Env) (upgrader : ConnUpgrader) (ct : Conn * Trace)
  : Conn * Trace :=
  match Upgrade E upgrader (fst ct) (snd ct) with
  | Some (c', t', _) => (c', t')
  | None => ct
  end.

(** A stream with both addresses. *)
Definition addressed_stream (n : nat) : Stream :=
  {| sid := n; flushable := false;
     LocalAddr := Some "10.0.0.1:50143"; RemoteAddr := Some "10.0.0.2:143" |}.

End Samples.

End Imap.

(* ===================================================================== *)
(** * Properties of the listing response                                   *)
(* ===================================================================== *)

Import Responses.

Section ListingFacts.

(** A hash filled from a slice answers membership in that slice. *)
Lemma hash_of_slice (s : list string) (h0 : gmap string bool) (e : string) :
  map_get (foldl (fun (h : gmap string bool) x => <[x := true]> h) h0 s) e = true
  ↔ e ∈ s ∨ map_get h0 e = true.
Proof.
  revert h0. induction s as [|x s IH]; intros h0; simpl.
  - split; [auto | intros [H|H]; [inversion H | done]].
  - rewrite IH. unfold map_get. destruct (decide (x = e)) as [->|Hne].
    + rewrite lookup_insert_eq. simpl. split; [intros _; left; left | auto].
    + rewrite lookup_insert_ne by done. rewrite elem_of_cons. naive_solver.
Qed.

(** The scanning loop of [intersection] is a filter. *)
Lemma scan_is_filter (h : gmap string bool) (s1 s2 acc : list string) :
  (∀ e, map_get h e = true ↔ e ∈ s1) →
  foldl (fun inter e => if map_get h e then inter ++ [e] else inter) acc s2
  = acc ++ filter (fun e => e ∈ s1) s2.
Proof.
  intros Hh. revert acc. induction s2 as [|x s2 IH]; intros acc; simpl.
  - by rewrite app_nil_r.
  - rewrite IH. destruct (map_get h x) eqn:Hx.
    + rewrite filter_cons_True by (by apply Hh). by rewrite <- app_assoc.
    + rewrite filter_cons_False; [done|]. intros Hin. apply Hh in Hin. congruence.
Qed.

Lemma elem_of_first_occurrences (l : list string) (e : string) :
  e ∈ first_occurrences l ↔ e ∈ l.
Proof.
  induction l as [|x l IH]; simpl; [done|].
  rewrite !elem_of_cons, list_elem_of_filter, IH.
  destruct (decide (e = x)); naive_solver.
Qed.

Lemma NoDup_first_occurrences (l : list string) : NoDup (first_occurrences l).
Proof.
  induction l as [|x l IH]; simpl; [constructor|].
  constructor.
  - rewrite list_elem_of_filter. naive_solver.
  - by apply NoDup_filter.
Qed.

(** The loop of [removeDups], started from any consistent pair of
    accumulator and hash. *)
Lemma removeDups_loop (l acc : list string) (enc : gmap string bool) :
  (∀ e, map_get enc e = true ↔ e ∈ acc) →
  fst (foldl removeDups_step (acc, enc) l)
  = acc ++ filter (fun y => y ∉ acc) (first_occurrences l).
Proof.
  revert acc enc. induction l as [|x l IH]; intros acc enc Henc; simpl.
  - by rewrite app_nil_r.
  - destruct (map_get enc x) eqn:Hx; simpl.
    + assert (x ∈ acc) as Hin by (by apply Henc).
      rewrite (IH _ _ Henc). f_equal.
      rewrite filter_cons_False by (intros Hn; by apply Hn).
      rewrite list_filter_filter. apply list_filter_iff. intros y. split.
      * intros Hy. split; [done|]. intros ->. by apply Hy.
      * by intros [Hy _].
    + assert (x ∉ acc) as Hnin by (intros Hin; apply Henc in Hin; congruence).
      rewrite (IH (acc ++ [x]) (<[x := true]> enc)).
      * rewrite filter_cons_True by done. rewrite <- app_assoc. simpl. do 2 f_equal.
        rewrite list_filter_filter. apply list_filter_iff. intros y.
        rewrite elem_of_app, list_elem_of_singleton. naive_solver.
      * intros e. unfold map_get. rewrite elem_of_app, list_elem_of_singleton.
        destruct (decide (x = e)) as [->|Hne].
        -- rewrite lookup_insert_eq. simpl. naive_solver.
        -- rewrite lookup_insert_ne by done. fold (map_get enc e).
           rewrite Henc. naive_solver.
Qed.

Lemma removeDups_first_occurrences (l : list string) :
  removeDups l = first_occurrences l.
Proof.
  unfold removeDups. rewrite removeDups_loop.
  - simpl. generalize (first_occurrences l). intros l'.
    induction l' as [|y l' IH]; [done|].
    rewrite filter_cons_True; [by rewrite IH | intros Hy; inversion Hy].
  - intros e. unfold map_get. rewrite lookup_empty. simpl. split; [done|].
    intros H. inversion H.
Qed.

(** [intersection] refines the set-membership intersection. *)
Lemma intersection_set_intersection (s1 s2 : list string) :
  intersection s1 s2 = set_intersection s1 s2.
Proof.
  unfold intersection, set_intersection.
  rewrite removeDups_first_occurrences. f_equal.
  rewrite (scan_is_filter _ s1); [done|].
  intros e. rewrite hash_of_slice. unfold map_get. rewrite lookup_empty. simpl.
  naive_solver.
Qed.

Lemma elem_of_intersection (s1 s2 : list string) (e : string) :
  e ∈ intersection s1 s2 ↔ e ∈ s1 ∧ e ∈ s2.
Proof.
  rewrite intersection_set_intersection. unfold set_intersection.
  rewrite elem_of_first_occurrences, list_elem_of_filter. tauto.
Qed.

(** [intersection] looks at its first argument only as a set. *)
Lemma intersection_ext (s1 s1' s2 : list string) :
  (∀ e, e ∈ s1 ↔ e ∈ s1') → intersection s1 s2 = intersection s1' s2.
Proof.
  intros H. rewrite !intersection_set_intersection. unfold set_intersection.
  f_equal. by apply list_filter_iff.
Qed.

(** The test of [WriteTo] under filtering: the record is skipped exactly
    when none of its attributes is a special-use token. *)
Lemma special_use_test (attrs : list string) :
  (length (intersection attrs specialuse) =? 0)%nat
  = negb (bool_decide (Exists (fun a => a ∈ specialuse) attrs)).
Proof.
  destruct (intersection attrs specialuse) as [|x l] eqn:Hi; simpl.
  - case_bool_decide as Hex; [|done]. exfalso.
    apply Exists_exists in Hex as (a & Ha & Hs).
    assert (a ∈ intersection attrs specialuse) as Hin
      by (by apply elem_of_intersection).
    rewrite Hi in Hin. inversion Hin.
  - assert (x ∈ intersection attrs specialuse) as Hin by (rewrite Hi; left).
    apply elem_of_intersection in Hin as [Ha Hs].
    rewrite bool_decide_eq_true_2; [done|].
    apply Exists_exists. by exists x.
Qed.

Section Writing.
Context {Field Writer : Type}.
Variable RawString : string -> Field.
Variable Format : MailboxInfo -> list Field.
Variable resp_WriteTo : list Field -> Writer -> Writer * option error.

(** What [WriteTo] does to the writer: it writes the lines of the
    emitted records, in receive order, up to the first write error. *)
Lemma WriteTo_loop_lines (r : List) (respName : string)
    (mailboxes : list MailboxInfo) (w : Writer) :
  (let '(_, w', err) := WriteTo_loop RawString Format resp_WriteTo r respName mailboxes w
   in (w', err))
  = write_lines resp_WriteTo
      (map (line RawString Format respName) (List.filter (emitted r) mailboxes)) w.
Proof.
  revert w. induction mailboxes as [|mbox rest IH]; intros w; simpl; [done|].
  rewrite special_use_test. unfold emitted at 1.
  destruct (SpecialUse r); simpl.
  - destruct (bool_decide _); simpl; [|apply IH].
    destruct (resp_WriteTo _ w) as [w' [e|]]; [done|apply IH].
  - destruct (resp_WriteTo _ w) as [w' [e|]]; [done|apply IH].
Qed.

Lemma WriteTo_lines_of (r : List) (w : Writer) :
  (let '(_, w', err) := WriteTo RawString Format resp_WriteTo r w in (w', err))
  = write_lines resp_WriteTo
      (map (line RawString Format (Name r)) (List.filter (emitted r) (Mailboxes r))) w.
Proof.
  unfold WriteTo. rewrite <- WriteTo_loop_lines.
  by destruct (WriteTo_loop _ _ _ r (Name r) (Mailboxes r) w) as [[rest w'] err].
Qed.
End Writing.

(** With a writer that never fails the whole channel is drained and the
    lines written are those of the emitted records, one each. *)
Lemma WriteTo_loop_recording {Field : Type} (RawString : string -> Field)
    (Format : MailboxInfo -> list Field) (r : List) (respName : string)
    (mailboxes : list MailboxInfo) (w : list (list Field)) :
  WriteTo_loop RawString Format recording_WriteTo r respName mailboxes w
  = ([], w ++ map (line RawString Format respName) (List.filter (emitted r) mailboxes),
     None).
Proof.
  revert w. induction mailboxes as [|mbox rest IH]; intros w; simpl.
  - by rewrite app_nil_r.
  - rewrite special_use_test. unfold emitted at 1.
    destruct (SpecialUse r); simpl.
    + destruct (bool_decide _); simpl; [|apply IH].
      rewrite IH. by rewrite <- app_assoc.
    + rewrite IH. by rewrite <- app_assoc.
Qed.

(** C3. The special-use intersection is computed by set membership and
    is duplicate-free: [intersection s1 s2] holds no token twice; a token
    belongs to it exactly when it belongs to both lists; its order is the
    order in which the scan first matches each token, that is the order of
    first occurrence in the scanned list [s2]; a token repeated in the
    first list (the mailbox's attributes) counts once; and [WriteTo]
    writes one line per emitted record, never more. *)
Theorem intersection_duplicate_free (s1 s2 : list string) :
  NoDup (intersection s1 s2)
  ∧ (∀ e, e ∈ intersection s1 s2 ↔ e ∈ s1 ∧ e ∈ s2)
  ∧ intersection s1 s2 = set_intersection s1 s2
  ∧ (∀ e, e ∈ s1 → intersection (e :: s1) s2 = intersection s1 s2)
  ∧ (∀ (Field : Type) (RawString : string -> Field)
       (Format : MailboxInfo -> list Field) (r : List),
       WriteTo RawString Format recording_WriteTo r []
       = (with_Mailboxes r [],
          map (line RawString Format (Name r)) (List.filter (emitted r) (Mailboxes r)),
          None)).
Proof.
  split; [|split; [|split; [|split]]].
  - rewrite intersection_set_intersection. apply NoDup_first_occurrences.
  - intros e. apply elem_of_intersection.
  - apply intersection_set_intersection.
  - intros e He. apply intersection_ext. intros x. rewrite elem_of_cons.
    split; [intros [->|H]; done | auto].
  - intros. unfold WriteTo. by rewrite WriteTo_loop_recording.
Qed.

(** The order of the result follows the scanned list, not the list that
    was hashed. *)
Example intersection_order :
  intersection ["\Sent"; "\Archive"] specialuse = ["\Archive"; "\Sent"]
  ∧ intersection ["b"; "a"; "b"] ["a"; "c"; "b"; "a"] = ["a"; "b"].
Proof. split; reflexivity. Qed.

(** C4. For every decoded response line offered to [Handle], one of
    three things happens: the line is not this handler's (the parse did
    not yield a named response, or the name is not the handler's) and
    [ErrUnhandled] is returned with the channel as it was; or the fields
    fail to parse and that error is returned with the channel as it was;
    or exactly one record is appended to the channel and [nil] is
    returned. *)
Theorem Handle_outcomes {Field Resp : Type}
    (ParseNamedResp : Resp -> string * list Field * bool)
    (Parse : list Field -> MailboxInfo * option error)
    (r : List) (resp : Resp) :
  let '(name, fields, ok) := ParseNamedResp resp in
  let out := Handle ParseNamedResp Parse r resp in
  (out = (r, Some ErrUnhandled) ∧ (ok = false ∨ name ≠ Name r))
  ∨ (∃ e, out = (r, Some e)
          ∧ ok = true ∧ name = Name r ∧ snd (Parse fields) = Some e)
  ∨ (∃ mbox, out = (send r mbox, None)
             ∧ Mailboxes (send r mbox) = Mailboxes r ++ [mbox]
             ∧ ok = true ∧ name = Name r ∧ Parse fields = (mbox, None)).
Proof.
  unfold Handle. destruct (ParseNamedResp resp) as [[name fields] ok]. simpl.
  destruct ok; simpl; [|left; auto].
  destruct (String.eqb_spec name (Name r)) as [->|Hne]; simpl; [|left; auto].
  destruct (Parse fields) as [mbox [e|]]; right; [left|right]; eauto 10.
Qed.

(** C5. The four records with attributes [{}], [{\Archive}],
    [{\Noselect}] and [{\Sent, \Noselect}], whatever their names and
    delimiters: with filtering on, [WriteTo] writes the lines of the
    second and the fourth, in that order, and nothing else; with
    filtering off it writes the four lines in receive order.  The line
    of a record is the raw string [LIST], or [LSUB] for a subscribed
    listing, followed by the fields [Format] gives for that record.
    This holds for any writer (lines are written until one fails), and
    with a writer that never fails the lines written are exactly
    those. *)
Theorem special_use_filtering {Field Writer : Type}
    (RawString : string -> Field) (Format : MailboxInfo -> list Field)
    (resp_WriteTo : list Field -> Writer -> Writer * option error)
    (subscribed : bool) (d1 n1 d2 n2 d3 n3 d4 n4 : string) (w : Writer) :
  let m1 := {| Attributes := []; Delimiter := d1; Name_ := n1 |} in
  let m2 := {| Attributes := ["\Archive"]; Delimiter := d2; Name_ := n2 |} in
  let m3 := {| Attributes := ["\Noselect"]; Delimiter := d3; Name_ := n3 |} in
  let m4 := {| Attributes := ["\Sent"; "\Noselect"]; Delimiter := d4; Name_ := n4 |} in
  let on := {| Mailboxes := [m1; m2; m3; m4]; Subscribed := subscribed;
               SpecialUse := true |} in
  let off := {| Mailboxes := [m1; m2; m3; m4]; Subscribed := subscribed;
                SpecialUse := false |} in
  let ln := fun m : MailboxInfo =>
              RawString (if subscribed then "LSUB" else "LIST") :: Format m in
  (let '(_, w', err) := WriteTo RawString Format resp_WriteTo on w in (w', err))
  = write_lines resp_WriteTo [ln m2; ln m4] w
  ∧ (let '(_, w', err) := WriteTo RawString Format resp_WriteTo off w in (w', err))
    = write_lines resp_WriteTo [ln m1; ln m2; ln m3; ln m4] w
  ∧ WriteTo RawString Format recording_WriteTo on []
    = (with_Mailboxes on [], [ln m2; ln m4], None)
  ∧ WriteTo RawString Format recording_WriteTo off []
    = (with_Mailboxes off [], [ln m1; ln m2; ln m3; ln m4], None).
Proof.
  intros. rewrite !WriteTo_lines_of. unfold WriteTo.
  rewrite !WriteTo_loop_recording.
  subst ln on off. unfold line, Name, lsubName, listName. cbn [Subscribed].
  destruct subscribed; repeat split.
Qed.

(** C6. The reported name is [LSUB] exactly when [Subscribed] is set and
    [LIST] otherwise; it depends on nothing but that flag; the two names
    differ; [Handle] takes up a named line that carries the reported
    name, its outcome being that of parsing the fields, and declines,
    leaving the channel as it was, every line whose name is not the
    reported one, in particular every line that carries the name of the
    other variant. *)
Theorem Name_selection {Field Resp : Type}
    (ParseNamedResp : Resp -> string * list Field * bool)
    (Parse : list Field -> MailboxInfo * option error) (r : List) :
  Name r = (if Subscribed r then lsubName else listName)
  ∧ (Name r = lsubName ↔ Subscribed r = true)
  ∧ (∀ r', Subscribed r' = Subscribed r → Name r' = Name r)
  ∧ lsubName ≠ listName
  ∧ (∀ resp fields,
       ParseNamedResp resp = (Name r, fields, true) →
       Handle ParseNamedResp Parse r resp
       = match Parse fields with
         | (mbox, None) => (send r mbox, None)
         | (_, Some e) => (r, Some e)
         end)
  ∧ (∀ resp,
       fst (fst (ParseNamedResp resp)) ≠ Name r →
       Handle ParseNamedResp Parse r resp = (r, Some ErrUnhandled))
  ∧ (∀ resp r',
       Subscribed r' = negb (Subscribed r) →
       fst (fst (ParseNamedResp resp)) = Name r' →
       Handle ParseNamedResp Parse r resp = (r, Some ErrUnhandled)).
Proof.
  assert (∀ resp,
       fst (fst (ParseNamedResp resp)) ≠ Name r →
       Handle ParseNamedResp Parse r resp = (r, Some ErrUnhandled))
    as Hother.
  { intros resp Hne. unfold Handle.
    destruct (ParseNamedResp resp) as [[name fields] ok]. simpl in *.
    destruct (String.eqb_spec name (Name r)); [done|].
    by rewrite orb_true_r. }
  split; [done|]. split; [|split; [|split; [done|split; [|split; [done|]]]]].
  - unfold Name. destruct (Subscribed r); split; done.
  - intros r' H. unfold Name. by rewrite H.
  - intros resp fields Hp. unfold Handle. rewrite Hp. simpl.
    rewrite String.eqb_refl. simpl. by destruct (Parse fields) as [mbox [e|]].
  - intros resp r' Hflag Hname. apply Hother. rewrite Hname.
    unfold Name. rewrite Hflag. by destruct (Subscribed r).
Qed.

End ListingFacts.

(* ===================================================================== *)
(** * Properties of the connection transport                               *)
(* ===================================================================== *)

Import Imap.

Section StateFacts.

(** C9. The connection-state constants form the stated bitmask: every
    bit of [AuthenticatedState] is a bit of [SelectedState], which has a
    further bit of its own, and [ConnectedState] is the bitwise union of
    [NotAuthenticatedState], [AuthenticatedState] and [SelectedState]. *)
Theorem ConnState_bitmask :
  (∀ i, Z.testbit AuthenticatedState i = true → Z.testbit SelectedState i = true)
  ∧ (∃ i, Z.testbit SelectedState i = true ∧ Z.testbit AuthenticatedState i = false)
  ∧ Z.land SelectedState AuthenticatedState = AuthenticatedState
  ∧ SelectedState ≠ AuthenticatedState
  ∧ ConnectedState
    = Z.lor (Z.lor NotAuthenticatedState AuthenticatedState) SelectedState
  ∧ (ConnectingState, NotAuthenticatedState, AuthenticatedState, SelectedState,
     LogoutState, ConnectedState) = (0, 1, 2, 6, 8, 7)%Z.
Proof.
  assert (Z.land SelectedState AuthenticatedState = AuthenticatedState) as Hland
    by reflexivity.
  split; [|split; [|split; [done|split; [|split]]]].
  - intros i Hi. rewrite <- Hland, Z.land_spec in Hi.
    by apply andb_true_iff in Hi as [? _].
  - exists 2%Z. split; reflexivity.
  - discriminate.
  - reflexivity.
  - reflexivity.
Qed.

End StateFacts.

Section FlushFacts.
Context {F St : Type}.
Variable Flush : F -> St -> St * option error.

(** Either every sink is flushed, in order, or the run stops right
    after the first sink whose flush fails. *)
Lemma multiFlusher_Flush_cases (flushers : list F) (st : St) (log : list F) :
  (∃ st', flush_all_ok Flush flushers st = Some st'
          ∧ multiFlusher_Flush Flush flushers st = (st', None)
          ∧ multiFlusher_Flush (logged_Flush Flush) flushers (st, log)
            = ((st', log ++ flushers), None))
  ∨ (∃ pre f post st1 st2 e,
       flushers = pre ++ f :: post
       ∧ flush_all_ok Flush pre st = Some st1
       ∧ Flush f st1 = (st2, Some e)
       ∧ multiFlusher_Flush Flush flushers st = (st2, Some e)
       ∧ multiFlusher_Flush (logged_Flush Flush) flushers (st, log)
         = ((st2, log ++ pre ++ [f]), Some e)).
Proof.
  revert st log. induction flushers as [|f fs IH]; intros st log.
  - left. exists st. simpl. by rewrite app_nil_r.
  - simpl.
    assert (logged_Flush Flush f (st, log)
            = ((fst (Flush f st), log ++ [f]), snd (Flush f st))) as Hl
      by (unfold logged_Flush; simpl; by destruct (Flush f st)).
    rewrite Hl. destruct (Flush f st) as [st1 [e|]] eqn:Hf; simpl.
    + right. exists [], f, fs, st, st1, e. simpl. by rewrite Hf.
    + destruct (IH st1 (log ++ [f])) as
        [(st' & Hall & Hrun & Hlog) | (pre & g & post & sa & sb & e & -> & Hall & Hg & Hrun & Hlog)].
      * left. exists st'. rewrite Hrun, Hlog, <- app_assoc. auto 10.
      * right. exists (f :: pre), g, post, sa, sb, e. simpl.
        rewrite Hf, Hrun, Hlog, <- app_assoc. auto 10.
Qed.

(** C7. For every list of flushable sinks, [multiFlusher.Flush]
    flushes the sinks in the order of the list.  Either every flush
    succeeds, all the sinks have been flushed and [nil] is returned; or
    it returns the error of the first sink whose flush fails, and the
    sinks attempted are those before it and that one: no later sink. *)
Theorem multiFlusher_Flush_first_error (flushers : list F) (st : St) :
  (∃ st', flush_all_ok Flush flushers st = Some st'
          ∧ multiFlusher_Flush Flush flushers st = (st', None)
          ∧ multiFlusher_Flush (logged_Flush Flush) flushers (st, [])
            = ((st', flushers), None))
  ∨ (∃ pre f post st1 st2 e,
       flushers = pre ++ f :: post
       ∧ flush_all_ok Flush pre st = Some st1
       ∧ Flush f st1 = (st2, Some e)
       ∧ multiFlusher_Flush Flush flushers st = (st2, Some e)
       ∧ multiFlusher_Flush (logged_Flush Flush) flushers (st, [])
         = ((st2, pre ++ [f]), Some e)).
Proof. apply (multiFlusher_Flush_cases flushers st []). Qed.

End FlushFacts.

Section TransportFacts.
Variable E : Env.

(** *** What the [io] layer returns *)

Lemma res_n_le (r : write_res) (p : list byte) : res_n r p ≤ length p.
Proof. destruct r; simpl; lia. Qed.

Lemma multiWriter_Write_count (ws : list Leaf) (p : list byte) (t : Trace) :
  let '(_, (n, err)) := multiWriter_Write E ws p t in
  n ≤ length p ∧ (err = None → n = length p).
Proof.
  revert t. induction ws as [|w ws IH]; intros t; simpl; [done|].
  assert (∃ t' r, leaf_Write E w p t = (t', (res_n r p, res_err r))) as (t' & r & ->).
  { destruct w; simpl; unfold stream_Write, sink_Write; eauto. }
  destruct r as [|n e]; simpl.
  - rewrite Nat.eqb_refl. simpl. apply IH.
  - split; [lia|done].
Qed.

Lemma io_Write_count (w : IoWriter) (p : list byte) (t : Trace) :
  let '(_, (n, err)) := io_Write E w p t in
  n ≤ length p ∧ (err = None → n = length p).
Proof.
  destruct w as [s|ws]; simpl; [|apply multiWriter_Write_count].
  split; [apply res_n_le|]. by destruct (stream_write _ _ _ _).
Qed.

(** *** The loop of [bufio.Writer.Write] needs at most two rounds *)

Lemma bw_Write_loop_empty (fuel : nat) (b : BufWriter) (p : list byte) (nn : nat)
    (t : Trace) :
  bw_buf b = [] →
  let '(b', p', _, _) := bw_Write_loop E (S fuel) b p nn t in
  bw_Write_more b' p' = false.
Proof.
  intros Hb. simpl. destruct (bw_Write_more b p) eqn:Hm; [|done].
  rewrite Hb. simpl.
  pose proof (io_Write_count (bw_wr b) p t) as Hc.
  destruct (io_Write E (bw_wr b) p t) as [t' [n err]]. destruct Hc as [Hle Hfull].
  set (b1 := {| bw_err := err; bw_buf := []; bw_wr := bw_wr b |}).
  assert (bw_Write_more b1 (drop n p) = false) as Hdone.
  { unfold bw_Write_more. destruct err as [e|]; simpl.
    - by rewrite andb_false_r.
    - rewrite Hfull by done. rewrite drop_all. simpl. done. }
  destruct fuel; simpl; by rewrite Hdone.
Qed.

Lemma bw_Flush_wr (b : BufWriter) (t : Trace) :
  let '(b', _, _) := bw_Flush E b t in bw_wr b' = bw_wr b.
Proof.
  unfold bw_Flush. destruct (bw_err b); [done|].
  destruct (length (bw_buf b) =? 0)%nat; [done|].
  destruct (io_Write E _ _ t) as [t' [n [e|]]]; [done|].
  by destruct (n <? _)%nat.
Qed.

Lemma bw_Flush_after (b : BufWriter) (t : Trace) :
  let '(b', _, err) := bw_Flush E b t in
  bw_err b' = err ∧ (err = None → bw_buf b' = []).
Proof.
  unfold bw_Flush. destruct (bw_err b) eqn:He; [done|].
  destruct (length (bw_buf b) =? 0)%nat eqn:Hl.
  - split; [done|]. intros _. apply Nat.eqb_eq in Hl. by destruct (bw_buf b).
  - destruct (io_Write E _ _ t) as [t' [n [e|]]]; [done|].
    by destruct (n <? _)%nat.
Qed.

(** Fuel adequacy: with two rounds the loop always stops because its
    condition is false, never because the fuel ran out. *)
Lemma bw_Write_loop_done (b : BufWriter) (p : list byte) (nn : nat) (t : Trace) :
  let '(b', p', _, _) := bw_Write_loop E 2 b p nn t in
  bw_Write_more b' p' = false.
Proof.
  destruct (decide (bw_buf b = [])) as [Hb|Hb].
  { by apply bw_Write_loop_empty. }
  cbn [bw_Write_loop]. destruct (bw_Write_more b p) eqn:Hm; [|done].
  destruct (length (bw_buf b) =? 0)%nat eqn:Hl.
  { apply Nat.eqb_eq in Hl. by destruct (bw_buf b). }
  set (b0 := {| bw_err := bw_err b; bw_buf := _; bw_wr := bw_wr b |}).
  pose proof (bw_Flush_after b0 t) as Ha.
  destruct (bw_Flush E b0 t) as [[b1 t1] err]. destruct Ha as [Herr Hbuf].
  destruct (bw_Write_more b1 (drop _ p)) eqn:Hm1; [|done].
  assert (err = None) as ->.
  { unfold bw_Write_more in Hm1. rewrite Herr in Hm1.
    destruct err; [|done]. by rewrite andb_false_r in Hm1. }
  rewrite (Hbuf eq_refl). simpl.
  pose proof (io_Write_count (bw_wr b1) (drop (Available b `min` length p) p) t1) as Hc.
  destruct (io_Write E (bw_wr b1) _ t1) as [t' [n err]]. destruct Hc as [Hle Hfull].
  set (b2 := {| bw_err := err; bw_buf := []; bw_wr := bw_wr b1 |}).
  assert (bw_Write_more b2 (drop n (drop (Available b `min` length p) p)) = false)
    as Hdone.
  { unfold bw_Write_more. destruct err as [e|]; simpl.
    - by rewrite andb_false_r.
    - rewrite Hfull by done. by rewrite drop_all. }
  by rewrite Hdone.
Qed.

(** *** Flushing touches nothing but the buffered writer and the world *)

Lemma extends_with_refl (ok : Event -> bool) (t : Trace) : extends_with ok t t.
Proof. exists []. split; [done|constructor]. Qed.

Lemma extends_with_cons (ok : Event -> bool) (ev : Event) (t t' : Trace) :
  ok ev = true → extends_with ok t t' → extends_with ok t (ev :: t').
Proof.
  intros Hev (new & -> & Hnew). exists (ev :: new). split; [done|by constructor].
Qed.

Lemma extends_with_trans (ok : Event -> bool) (t1 t2 t3 : Trace) :
  extends_with ok t1 t2 → extends_with ok t2 t3 → extends_with ok t1 t3.
Proof.
  intros (n1 & -> & H1) (n2 & -> & H2). exists (n2 ++ n1).
  split; [by rewrite app_assoc | by apply Forall_app].
Qed.

Lemma extends_with_mono (ok ok' : Event -> bool) (t t' : Trace) :
  (∀ ev, ok ev = true → ok' ev = true) →
  extends_with ok t t' → extends_with ok' t t'.
Proof.
  intros Hsub (new & -> & Hnew). exists new. split; [done|].
  eapply Forall_impl; [exact Hnew|]. simpl. auto.
Qed.

Lemma output_of_io (w : IoWriter) (ev : Event) :
  output_of w ev = true → is_io_event ev = true.
Proof. by destruct ev. Qed.

Lemma multiWriter_Write_extends (ok : Event -> bool) (ws : list Leaf)
    (p : list byte) (t : Trace) :
  (∀ s q r, ToStream s ∈ ws → ok (EvWrite (sid s) q r) = true) →
  (∀ k q r, ok (EvSinkWrite k q r) = true) →
  extends_with ok t (fst (multiWriter_Write E ws p t)).
Proof.
  intros Hs Hk. revert t. induction ws as [|w ws IH]; intros t; simpl;
    [apply extends_with_refl|].
  assert (extends_with ok t (fst (leaf_Write E w p t))) as Hw.
  { destruct w; simpl; apply extends_with_cons; try apply extends_with_refl.
    - apply Hs. left.
    - apply Hk. }
  destruct (leaf_Write E w p t) as [t' [n [e|]]]; simpl in *; [done|].
  destruct (negb _); simpl; [done|].
  eapply extends_with_trans; [exact Hw|]. apply IH.
  intros s q r Hin. apply Hs. by right.
Qed.

Lemma io_Write_extends (w : IoWriter) (p : list byte) (t : Trace) :
  extends_with (output_of w) t (fst (io_Write E w p t)).
Proof.
  destruct w as [s|ws]; simpl.
  - apply extends_with_cons, extends_with_refl. simpl.
    apply bool_decide_eq_true. left.
  - apply multiWriter_Write_extends; [|done].
    intros s q r Hin. simpl. apply bool_decide_eq_true.
    apply list_elem_of_fmap. exists s. split; [done|].
    apply list_elem_of_In, in_flat_map. exists (ToStream s).
    split; [by apply list_elem_of_In | by left].
Qed.

Lemma bw_Flush_extends (b : BufWriter) (t : Trace) :
  extends_with (output_of (bw_wr b)) t (snd (fst (bw_Flush E b t))).
Proof.
  unfold bw_Flush. destruct (bw_err b); [apply extends_with_refl|].
  destruct (length (bw_buf b) =? 0); [apply extends_with_refl|].
  pose proof (io_Write_extends (bw_wr b) (bw_buf b) t) as Hw.
  destruct (io_Write E _ _ t) as [t' [n [e|]]]; [done|].
  by destruct (n <? _).
Qed.

Lemma flusher_Flush_frame (f : flusher) (b : BufWriter) (t : Trace) :
  let '((b', t'), _) := flusher_Flush E f (b, t) in
  bw_wr b' = bw_wr b ∧ extends_with (output_of (bw_wr b)) t t'.
Proof.
  destruct f as [|s]; simpl.
  - pose proof (bw_Flush_wr b t). pose proof (bw_Flush_extends b t).
    by destruct (bw_Flush E b t) as [[b' t'] err].
  - split; [done|]. by apply extends_with_cons, extends_with_refl.
Qed.

Lemma multiFlusher_Flush_frame (fl : list flusher) (b : BufWriter) (t : Trace) :
  let '((b', t'), _) := multiFlusher_Flush (flusher_Flush E) fl (b, t) in
  bw_wr b' = bw_wr b ∧ extends_with (output_of (bw_wr b)) t t'.
Proof.
  revert b t. induction fl as [|f fl IH]; intros b t; simpl.
  - split; [done|apply extends_with_refl].
  - pose proof (flusher_Flush_frame f b t) as Hf.
    destruct (flusher_Flush E f (b, t)) as [[b1 t1] [e|]]; [done|].
    destruct Hf as [Hwr Hext]. specialize (IH b1 t1).
    destruct (multiFlusher_Flush _ fl (b1, t1)) as [[b2 t2] err].
    destruct IH as [Hwr' Hext']. split; [congruence|].
    eapply extends_with_trans; [exact Hext|]. by rewrite <- Hwr.
Qed.

(** [Conn.Flush] changes at most the buffered writer, keeps the writer
    underneath it, and adds only events of output through that writer. *)
Lemma Flush_frame (c c' : Conn) (t t' : Trace) (err : option error) :
  Flush E c t = Some (c', t', err) →
  (c' = c ∧ t' = t ∧ Writer_Writer c = SlotUnset)
  ∨ ∃ b b', bw c = Some b ∧ c' = set_bw c b' ∧ bw_wr b' = bw_wr b
            ∧ extends_with (output_of (bw_wr b)) t t'.
Proof.
  unfold Flush, Writer_Flush. destruct (Writer_Writer c) as [| |fl] eqn:Hs.
  - intros [= <- <- <-]. by left.
  - destruct (bw c) as [b|]; [|done].
    pose proof (bw_Flush_wr b t). pose proof (bw_Flush_extends b t).
    destruct (bw_Flush E b t) as [[b' t1] [e|]]; intros [= <- <- <-];
      right; by exists b, b'.
  - destruct (bw c) as [b|]; [|done].
    pose proof (multiFlusher_Flush_frame fl b t) as Hf.
    destruct (multiFlusher_Flush _ fl (b, t)) as [[b' t1] [e|]];
      intros [= <- <- <-]; destruct Hf; right; by exists b, b'.
Qed.

Lemma Flush_io_extends (c c' : Conn) (t t' : Trace) (err : option error) :
  Flush E c t = Some (c', t', err) → io_extends t t'.
Proof.
  intros H. apply Flush_frame in H as [(_ & -> & _)|(b & b' & _ & _ & _ & Hext)].
  - apply extends_with_refl.
  - eapply extends_with_mono; [|exact Hext]. apply output_of_io.
Qed.

(** The fields of the connection that [Flush] does not touch. *)
Lemma Flush_fields (c c' : Conn) (t t' : Trace) (err : option error) :
  Flush E c t = Some (c', t', err) →
  net_Conn c' = net_Conn c ∧ Reader_reader c' = Reader_reader c
  ∧ Writer_Writer c' = Writer_Writer c ∧ br c' = br c
  ∧ waits c' = waits c ∧ debug c' = debug c
  ∧ (bw_wr <$> bw c') = (bw_wr <$> bw c).
Proof.
  intros H. apply Flush_frame in H as [(-> & _)|(b & b' & Hb & -> & Hwr & _)];
    [done|]. simpl. rewrite Hb. simpl. by rewrite Hwr.
Qed.

(** *** Sessions keep the wiring and write to the wired stream only *)

Lemma bw_Write_loop_frame (fuel : nat) (b : BufWriter) (p : list byte) (nn : nat)
    (t : Trace) :
  let '(b', _, _, t') := bw_Write_loop E fuel b p nn t in
  bw_wr b' = bw_wr b ∧ extends_with (output_of (bw_wr b)) t t'.
Proof.
  revert b p nn t. induction fuel as [|fuel IH]; intros b p nn t; simpl.
  - destruct (bw_Write_more b p); (split; [done|apply extends_with_refl]).
  - destruct (bw_Write_more b p); [|split; [done|apply extends_with_refl]].
    destruct (length (bw_buf b) =? 0).
    + pose proof (io_Write_extends (bw_wr b) p t) as Hw.
      destruct (io_Write E (bw_wr b) p t) as [t1 [n err]]. simpl in Hw.
      set (b1 := {| bw_err := err; bw_buf := bw_buf b; bw_wr := bw_wr b |}).
      specialize (IH b1 (drop n p) (nn + n) t1).
      destruct (bw_Write_loop E fuel b1 _ _ t1) as [[[b2 p2] n2] t2].
      destruct IH as [Hwr Hext]. split; [done|].
      by eapply extends_with_trans.
    + set (b0 := {| bw_err := bw_err b; bw_buf := _; bw_wr := bw_wr b |}).
      pose proof (bw_Flush_wr b0 t) as Hwr0.
      pose proof (bw_Flush_extends b0 t) as Hext0.
      destruct (bw_Flush E b0 t) as [[b1 t1] err]. simpl in *.
      specialize (IH b1 (drop (Available b `min` length p) p)
                    (nn + Available b `min` length p) t1).
      destruct (bw_Write_loop E fuel b1 _ _ t1) as [[[b2 p2] n2] t2].
      destruct IH as [Hwr Hext]. split; [congruence|].
      eapply extends_with_trans; [exact Hext0|]. by rewrite <- Hwr0.
Qed.

Lemma bw_Write_frame (b : BufWriter) (p : list byte) (t : Trace) :
  let '(b', t', _) := bw_Write E b p t in
  bw_wr b' = bw_wr b ∧ extends_with (output_of (bw_wr b)) t t'.
Proof.
  unfold bw_Write. pose proof (bw_Write_loop_frame 2 b p 0 t) as H.
  destruct (bw_Write_loop E 2 b p 0 t) as [[[b1 p1] nn] t1].
  by destruct (bw_err b1).
Qed.

Lemma io_Read_extends (ok : Event -> bool) (r : IoReader) (n : nat) (t : Trace) :
  (∀ ev, is_io_event ev = true → (∀ s q x, ev ≠ EvWrite s q x) → ok ev = true) →
  extends_with ok t (fst (io_Read E r n t)).
Proof.
  intros Hok. destruct r as [s|s k]; simpl; unfold stream_Read.
  - destruct (stream_read E _ _ n) as [data err]. simpl.
    apply extends_with_cons, extends_with_refl. by apply Hok.
  - destruct (stream_read E _ _ n) as [data err].
    destruct (0 <? length (take n data)).
    + unfold sink_Write.
      destruct (res_err _); simpl;
        repeat apply extends_with_cons; try apply extends_with_refl;
        by apply Hok.
    + apply extends_with_cons, extends_with_refl. by apply Hok.
Qed.

Lemma br_Read_frame (ok : Event -> bool) (b : BufReader) (n : nat) (t : Trace) :
  (∀ ev, is_io_event ev = true → (∀ s q x, ev ≠ EvWrite s q x) → ok ev = true) →
  let '(b', t', _) := br_Read E b n t in
  br_rd b' = br_rd b ∧ extends_with ok t t'.
Proof.
  intros Hok. unfold br_Read.
  destruct (n =? 0).
  { destruct (0 <? length (br_buf b)); (split; [done|apply extends_with_refl]). }
  destruct (length (br_buf b) =? 0); [|split; [done|apply extends_with_refl]].
  destruct (br_err b); [split; [done|apply extends_with_refl]|].
  destruct (defaultBufSize <=? n).
  - pose proof (io_Read_extends ok (br_rd b) n t Hok) as Hr.
    by destruct (io_Read E (br_rd b) n t) as [t' [data err]].
  - pose proof (io_Read_extends ok (br_rd b) defaultBufSize t Hok) as Hr.
    destruct (io_Read E (br_rd b) defaultBufSize t) as [t' [data err]].
    by destruct (length data =? 0).
Qed.

Lemma same_wiring_refl (c : Conn) : same_wiring c c.
Proof. by repeat split. Qed.

Lemma same_wiring_trans (c1 c2 c3 : Conn) :
  same_wiring c1 c2 → same_wiring c2 c3 → same_wiring c1 c3.
Proof. unfold same_wiring. intros H1 H2. destruct_and!. repeat split; congruence. Qed.

Lemma conn_output_wiring (c c' : Conn) (ev : Event) :
  same_wiring c c' → conn_output c' ev = conn_output c ev.
Proof.
  intros (_ & _ & _ & _ & _ & Hbw & _). unfold conn_output.
  destruct (bw c), (bw c'); simpl in *; simplify_eq; try done.
  destruct ev; simpl; try done. by rewrite Hbw.
Qed.

Lemma extends_conn_output (c : Conn) (b : BufWriter) (t t' : Trace) :
  bw c = Some b →
  extends_with (output_of (bw_wr b)) t t' → extends_with (conn_output c) t t'.
Proof.
  intros Hb. apply extends_with_mono. intros ev. unfold conn_output.
  rewrite Hb. by destruct ev.
Qed.

Lemma step_frame (op : Op) (c c' : Conn) (t t' : Trace) (out : Out) :
  step E op c t = Some (c', t', out) →
  same_wiring c c' ∧ extends_with (conn_output c) t t'.
Proof.
  destruct op as [p| |n]; simpl.
  - unfold Write.
    assert (∀ b, bw c = Some b →
              let '(b', t1, res) := bw_Write E b p t in
              Some (set_bw c b', t1, OutWrite res.1 res.2) = Some (c', t', out) →
              same_wiring c c' ∧ extends_with (conn_output c) t t') as Hb.
    { intros b Hb. pose proof (bw_Write_frame b p t) as Hf.
      destruct (bw_Write E b p t) as [[b' t1] res]. destruct Hf as [Hwr Hext].
      intros [= <- <- <-]. split.
      - unfold same_wiring. simpl. rewrite Hb. simpl. by rewrite Hwr.
      - by eapply extends_conn_output. }
    destruct (Writer_Writer c), (bw c) as [b|]; try done;
      specialize (Hb b eq_refl);
      destruct (bw_Write E b p t) as [[b' t1] [k err]]; exact Hb.
  - destruct (Flush E c t) as [[[c1 t1] err]|] eqn:Hf; [|done].
    intros [= <- <- <-]. split.
    + pose proof (Flush_fields _ _ _ _ _ Hf). unfold same_wiring.
      destruct_and!. repeat split; try done. congruence.
    + apply Flush_frame in Hf as [(_ & -> & _)|(b & b' & Hb & _ & _ & Hext)].
      * apply extends_with_refl.
      * by eapply extends_conn_output.
  - unfold Reader_Read. destruct (Reader_reader c); [done|].
    destruct (br c) as [b|] eqn:Hb; [|done].
    pose proof (br_Read_frame (conn_output c) b n t) as Hf.
    destruct (br_Read E b n t) as [[b' t1] [data err]].
    intros [= <- <- <-].
    destruct Hf as [Hrd Hext].
    { intros ev Hio Hnw. destruct ev; try done. by specialize (Hnw s p r). }
    split; [|done].
    unfold same_wiring. simpl. rewrite Hb. simpl. by rewrite Hrd.
Qed.

Lemma run_frame (ops : list Op) (c c' : Conn) (t t' : Trace) (outs : list Out) :
  run E ops c t = Some (c', t', outs) →
  same_wiring c c' ∧ extends_with (conn_output c) t t'.
Proof.
  revert c t c' t' outs. induction ops as [|op ops IH]; intros c t c' t' outs; simpl.
  - intros [= <- <- <-]. split; [apply same_wiring_refl|apply extends_with_refl].
  - destruct (step E op c t) as [[[c1 t1] out]|] eqn:Hs; [|done].
    destruct (run E ops c1 t1) as [[[c2 t2] outs']|] eqn:Hr; [|done].
    intros [= <- <- <-].
    apply step_frame in Hs as [Hw1 He1]. apply IH in Hr as [Hw2 He2].
    split; [by eapply same_wiring_trans|].
    eapply extends_with_trans; [exact He1|].
    eapply extends_with_mono; [|exact He2].
    intros ev. by rewrite (conn_output_wiring c c1).
Qed.

(** The channel [c.waits] plays no part in writing, flushing or reading. *)
Lemma step_set_waits (op : Op) (c : Conn) (w : option chan) (t : Trace) :
  step E op (set_waits c w) t
  = (fun '(c', t', out) => (set_waits c' w, t', out)) <$> step E op c t.
Proof.
  destruct op as [p| |n]; simpl.
  - unfold Write. simpl.
    destruct (Writer_Writer c), (bw c) as [b|]; try done;
      by destruct (bw_Write E b p t) as [[b' t1] [k err]].
  - unfold Flush, Writer_Flush. simpl.
    destruct (Writer_Writer c) as [| |fl]; [done| |].
    + destruct (bw c) as [b|]; [|done].
      by destruct (bw_Flush E b t) as [[b' t1] [e|]].
    + destruct (bw c) as [b|]; [|done].
      by destruct (multiFlusher_Flush _ fl (b, t)) as [[b' t1] [e|]].
  - unfold Reader_Read. simpl.
    destruct (Reader_reader c), (br c) as [b|]; try done.
    by destruct (br_Read E b n t) as [[b' t1] [data err]].
Qed.

Lemma run_set_waits (ops : list Op) (c : Conn) (w : option chan) (t : Trace) :
  run E ops (set_waits c w) t
  = (fun '(c', t', outs) => (set_waits c' w, t', outs)) <$> run E ops c t.
Proof.
  revert c t. induction ops as [|op ops IH]; intros c t; simpl; [done|].
  rewrite step_set_waits.
  destruct (step E op c t) as [[[c1 t1] out]|]; simpl; [|done].
  rewrite IH. by destruct (run E ops c1 t1) as [[[c2 t2] outs]|].
Qed.

(** A flush only ever drains the pending bytes from the front. *)
Lemma bw_Flush_buf (b : BufWriter) (t : Trace) :
  let '(b', _, _) := bw_Flush E b t in ∃ n, bw_buf b' = drop n (bw_buf b).
Proof.
  unfold bw_Flush. destruct (bw_err b); [by exists 0|].
  destruct (length (bw_buf b) =? 0); [by exists 0|].
  destruct (io_Write E _ _ t) as [t' [n [e|]]]; [by exists n|].
  destruct (n <? _); [by exists n|].
  exists (length (bw_buf b)). by rewrite drop_all.
Qed.

Lemma multiFlusher_Flush_buf (fl : list flusher) (b : BufWriter) (t : Trace) :
  let '((b', _), _) := multiFlusher_Flush (flusher_Flush E) fl (b, t) in
  ∃ n, bw_buf b' = drop n (bw_buf b).
Proof.
  revert b t. induction fl as [|f fl IH]; intros b t; simpl; [by exists 0|].
  assert (let '((b1, _), _) := flusher_Flush E f (b, t) in
          ∃ n, bw_buf b1 = drop n (bw_buf b)) as Hf.
  { destruct f; simpl; [|by exists 0].
    pose proof (bw_Flush_buf b t). by destruct (bw_Flush E b t) as [[b1 t1] err]. }
  destruct (flusher_Flush E f (b, t)) as [[b1 t1] [e|]]; [done|].
  destruct Hf as [n Hn]. specialize (IH b1 t1).
  destruct (multiFlusher_Flush _ fl (b1, t1)) as [[b2 t2] err].
  destruct IH as [m Hm]. exists (n + m). by rewrite Hm, Hn, drop_drop.
Qed.

Lemma Flush_buf (c c' : Conn) (t t' : Trace) (err : option error) :
  Flush E c t = Some (c', t', err) →
  ∃ n, (bw_buf <$> bw c') = (drop n <$> (bw_buf <$> bw c)).
Proof.
  unfold Flush, Writer_Flush. destruct (Writer_Writer c) as [| |fl].
  - intros [= <- <- <-]. exists 0. by destruct (bw c).
  - destruct (bw c) as [b|]; [|done]. pose proof (bw_Flush_buf b t) as Hb.
    destruct (bw_Flush E b t) as [[b' t1] [e|]]; destruct Hb as [n Hn];
      intros [= <- <- <-]; exists n; simpl; by rewrite Hn.
  - destruct (bw c) as [b|]; [|done]. pose proof (multiFlusher_Flush_buf fl b t) as Hb.
    destruct (multiFlusher_Flush _ fl (b, t)) as [[b' t1] [e|]]; destruct Hb as [n Hn];
      intros [= <- <- <-]; exists n; simpl; by rewrite Hn.
Qed.

(** A flush leaves the sticky error of the buffered writer as it was,
    or records the error it returns. *)
Lemma bw_Flush_err (b : BufWriter) (t : Trace) :
  let '(b', _, err) := bw_Flush E b t in
  bw_err b' = bw_err b ∨ ∃ e, err = Some e ∧ bw_err b' = Some e.
Proof.
  unfold bw_Flush. destruct (bw_err b) eqn:He; [by left|].
  destruct (length (bw_buf b) =? 0); [by left|].
  destruct (io_Write E _ _ t) as [t' [n [e|]]]; [right; by exists e|].
  destruct (n <? _); [right; by eexists|by left].
Qed.

Lemma multiFlusher_Flush_err (fl : list flusher) (b : BufWriter) (t : Trace) :
  let '((b', _), err) := multiFlusher_Flush (flusher_Flush E) fl (b, t) in
  bw_err b' = bw_err b ∨ ∃ e, err = Some e ∧ bw_err b' = Some e.
Proof.
  revert b t. induction fl as [|f fl IH]; intros b t; simpl; [by left|].
  assert (let '((b1, _), err) := flusher_Flush E f (b, t) in
          bw_err b1 = bw_err b ∨ ∃ e, err = Some e ∧ bw_err b1 = Some e) as Hf.
  { destruct f; simpl; [|by left].
    pose proof (bw_Flush_err b t). by destruct (bw_Flush E b t) as [[b1 t1] err]. }
  destruct (flusher_Flush E f (b, t)) as [[b1 t1] [e|]]; [done|].
  destruct Hf as [Hf|(e & ? & _)]; [|done].
  specialize (IH b1 t1).
  destruct (multiFlusher_Flush _ fl (b1, t1)) as [[b2 t2] err].
  by rewrite <- Hf.
Qed.

Lemma Flush_err (c c' : Conn) (t t' : Trace) (e : error) :
  Flush E c t = Some (c', t', Some e) →
  write_error c' = write_error c ∨ write_error c' = Some e.
Proof.
  unfold Flush, Writer_Flush, write_error. destruct (Writer_Writer c) as [| |fl].
  - done.
  - destruct (bw c) as [b|]; [|done]. pose proof (bw_Flush_err b t) as Hb.
    destruct (bw_Flush E b t) as [[b' t1] [e'|]]; intros [= <- <- <-]; cbn.
    destruct Hb as [->|(e0 & [= <-] & ->)]; auto.
  - destruct (bw c) as [b|]; [|done]. pose proof (multiFlusher_Flush_err fl b t) as Hb.
    destruct (multiFlusher_Flush _ fl (b, t)) as [[b' t1] [e'|]];
      intros [= <- <- <-]; cbn.
    destruct Hb as [->|(e0 & [= <-] & ->)]; auto.
Qed.

(** *** Upgrade *)

(** C10, as amended.  If the flush that opens [Upgrade] fails,
    [Upgrade] returns that error at once and is nothing more than that
    flush: the upgrader is not called and no wait channel is made or
    closed (the events added are those of the flush, events of output
    only), [c.waits] is what it was, so [Wait] behaves as before, and
    the stream, the buffered reader, the wiring of the buffered writer
    and the flush strategy are what they were.  The buffered writer
    itself is as the failed flush left it: it is not reset, the bytes
    still pending are the pending bytes less those drained from the
    front, and its sticky error is what it was or the error
    returned. *)
Theorem Upgrade_flush_error (upgrader : ConnUpgrader) (c c' : Conn)
    (t t' : Trace) (e : error) :
  Flush E c t = Some (c', t', Some e) →
  Upgrade E upgrader c t = Some (c', t', Some e)
  ∧ io_extends t t'
  ∧ same_wiring c c'
  ∧ br c' = br c
  ∧ (∃ n, (bw_buf <$> bw c') = (drop n <$> (bw_buf <$> bw c)))
  ∧ waits c' = waits c
  ∧ Wait c' = Wait c
  ∧ (write_error c' = write_error c ∨ write_error c' = Some e).
Proof.
  intros Hf.
  destruct (Flush_fields _ _ _ _ _ Hf) as (Hconn & Hrs & Hws & Hbr & Hwaits & Hdbg & Hbw).
  pose proof (Flush_io_extends _ _ _ _ _ Hf) as Hext.
  pose proof (Flush_err _ _ _ _ _ Hf) as Herr.
  unfold Upgrade. rewrite Hf.
  split; [done|]. split; [done|].
  split; [|split; [done|split; [|split; [done|split; [|done]]]]].
  - unfold same_wiring. by rewrite Hbr.
  - by eapply Flush_buf.
  - unfold Wait. by rewrite Hwaits.
Qed.

(** C2. When the upgrader function returns an error, [Upgrade] returns
    that error; the stream of the connection is the one it had, and so
    are the wiring of the buffered reader and writer and the flush
    strategy: the connection is the one the opening flush left, with
    [c.waits] closed.  Any later session of writes, flushes and reads
    runs on it exactly as it would have run without the upgrade
    attempt, and, the buffers having been bound to the original stream
    as [init] leaves them, every stream write of that session goes to
    the original stream. *)
Theorem Upgrade_upgrader_error (upgrader : ConnUpgrader) (c c1 : Conn)
    (t t1 t3 : Trace) (e : error) :
  Flush E c t = Some (c1, t1, None) →
  upgrader (net_Conn c) (EvUpgrader (sid (net_Conn c)) :: EvGateOpen :: t1)
  = (t3, inr e) →
  let c' := set_waits c1 (Some ChanClosed) in
  Upgrade E upgrader c t = Some (c', EvGateClose :: t3, Some e)
  ∧ net_Conn c' = net_Conn c
  ∧ Writer_Writer c' = Writer_Writer c
  ∧ flushed_streams c' = flushed_streams c
  ∧ (bw_wr <$> bw c') = (bw_wr <$> bw c)
  ∧ (br_rd <$> br c') = (br_rd <$> br c)
  ∧ (∀ s, bound_to s c → bound_to s c')
  ∧ (∀ ops t0,
       run E ops c' t0
       = (fun '(c'', t'', outs) => (set_waits c'' (Some ChanClosed), t'', outs))
           <$> run E ops c1 t0)
  ∧ (bound_to (net_Conn c) c →
     ∀ ops t0 c'' t'' outs,
       run E ops c' t0 = Some (c'', t'', outs) →
       net_Conn c'' = net_Conn c
       ∧ ∃ new, t'' = new ++ t0
                ∧ ∀ s p r, EvWrite s p r ∈ new → s = sid (net_Conn c)).
Proof.
  intros Hf Hup c'. pose proof (Flush_fields _ _ _ _ _ Hf) as Hfields.
  destruct Hfields as (Hconn & Hrs & Hws & Hbr & Hwaits & Hdbg & Hbw).
  split; [|split; [|split; [|split; [|split; [|split; [|split; [|split]]]]]]].
  - unfold Upgrade. rewrite Hf. simpl. rewrite Hconn, Hup. done.
  - done.
  - done.
  - unfold flushed_streams. simpl. by rewrite Hws.
  - done.
  - simpl. by rewrite Hbr.
  - intros s (b & r & Hb & Hr & Hw & Hrd & Hslot & Hrslot).
    rewrite Hb in Hbw. simpl in Hbw.
    destruct (bw c1) as [b1|] eqn:Hb1; [|done]. simpl in Hbw.
    exists b1, r. simpl. rewrite Hb1, Hbr, Hws, Hrs.
    repeat split; try done. congruence.
  - intros ops t0. apply run_set_waits.
  - intros (b & r0 & Hb & _ & Hwr & _) ops t0 c'' t'' outs Hrun.
    apply run_frame in Hrun as [Hw (new & -> & Hnew)].
    split; [destruct Hw as (-> & _); done|].
    exists new. split; [done|]. intros s p r Hin.
    rewrite Forall_forall in Hnew. specialize (Hnew _ Hin).
    unfold conn_output in Hnew. simpl in Hnew.
    apply bool_decide_eq_true in Hnew.
    rewrite Hb in Hbw. destruct (bw c1) as [b1|]; [|done].
    simpl in *. injection Hbw as Hbw. rewrite Hbw, Hwr in Hnew.
    by apply list_elem_of_singleton in Hnew.
Qed.

(** *** The binding of the buffers to the current stream *)

Lemma bound_to_wiring (s : Stream) (c c' : Conn) :
  same_wiring c c' → bound_to s c → bound_to s c'.
Proof.
  intros (_ & Hrs & Hws & _ & _ & Hw & Hr) (b & r & Hb & Hbr & Hwr & Hrd & Hs & Hrslot).
  rewrite Hb in Hw. rewrite Hbr in Hr. simpl in *.
  destruct (bw c') as [b'|] eqn:Hb'; [|done].
  destruct (br c') as [r'|] eqn:Hr'; [|done].
  simpl in *. injection Hw as Hw. injection Hr as Hr.
  exists b', r'. rewrite Hws, Hrs, Hw, Hr. done.
Qed.

(** [init] binds both buffers to the stream of the connection.  The
    side conditions say that a buffer that exists is the one the
    protocol reader or writer goes through, as [init] itself arranges
    when it allocates them. *)
Lemma init_bound (c : Conn) (t : Trace) :
  (br c = None ∨ Reader_reader c = RSlotBuf) →
  (bw c = None ∨ Writer_Writer c ≠ SlotUnset) →
  bound_to (net_Conn c) (fst (init E c t))
  ∧ net_Conn (fst (init E c t)) = net_Conn c
  ∧ waits (fst (init E c t)) = waits c
  ∧ Writer_Writer (fst (init E c t))
    = if flushable (net_Conn c)
      then flush_strategy (net_Conn c)
      else match bw c with None => SlotBuf | Some _ => Writer_Writer c end.
Proof.
  intros Hr Hw. unfold init.
  set (wiring := match debug c with None => _ | Some d => _ end).
  assert (∃ d' l r t', wiring = (d', tap_rd (net_Conn c) r, tap_wr (net_Conn c) l, t'))
    as (d' & l & r & t' & ->).
  { subst wiring. destruct (debug c) as [d|]; [|by exists None, None, None, t].
    destruct (debug_sinks E (net_Conn c) d t) as [[[d' l] r] t']. by eexists _, l, r, _. }
  unfold bound_to, flush_strategy.
  destruct (br c) as [b|], (bw c) as [w|]; cbn;
    (split; [eexists _, _; repeat split; try done|]);
    try (by destruct l); try (by destruct r);
    try (by destruct (flushable (net_Conn c)));
    try (destruct Hr as [?|?]; done);
    try (destruct (flushable (net_Conn c)); [done|]; destruct Hw as [?|?]; done).
Qed.

(** A successful [Upgrade]: the connection sits on the new stream, with
    both buffers bound to it.  The flush strategy is the one of the new
    stream when that stream has a [Flush] method; otherwise it is the
    strategy that was in place before. *)
Lemma Upgrade_success (upgrader : ConnUpgrader) (c c1 : Conn) (t t1 t3 : Trace)
    (upgraded : Stream) :
  bound_to (net_Conn c) c →
  Flush E c t = Some (c1, t1, None) →
  upgrader (net_Conn c) (EvUpgrader (sid (net_Conn c)) :: EvGateOpen :: t1)
  = (t3, inl upgraded) →
  ∃ c' t',
    Upgrade E upgrader c t = Some (c', EvGateClose :: t', None)
    ∧ net_Conn c' = upgraded
    ∧ bound_to upgraded c'
    ∧ waits c' = Some ChanClosed
    ∧ Writer_Writer c'
      = if flushable upgraded then flush_strategy upgraded else Writer_Writer c.
Proof.
  intros Hb Hf Hup.
  destruct (Flush_fields _ _ _ _ _ Hf) as (Hconn & Hrs & Hws & Hbr & Hwaits & Hdbg & Hbw).
  destruct Hb as (b & r & Hcb & Hcr & _ & _ & Hslot & Hrslot).
  unfold Upgrade. rewrite Hf. cbn [net_Conn set_waits]. rewrite Hconn, Hup.
  set (c2 := set_net_Conn (set_waits c1 (Some ChanOpen)) upgraded).
  pose proof (init_bound c2 t3) as Hi.
  destruct (init E c2 t3) as [c3 t4]. cbn [fst] in Hi.
  destruct Hi as (Hbound & Hnet & _ & Hstrat).
  { right. subst c2. cbn. congruence. }
  { right. subst c2. cbn. congruence. }
  exists (set_waits c3 (Some ChanClosed)), t4. split; [done|].
  subst c2. cbn in *. split; [done|]. split.
  - destruct Hbound as (b' & r' & ? & ? & ? & ? & ? & ?). by exists b', r'.
  - split; [done|]. rewrite Hstrat. destruct (flushable upgraded); [done|].
    rewrite Hcb in Hbw. destruct (bw c1); [congruence|done].
Qed.

(** The buffered reader and writer of every reachable connection are
    bound to its current stream. *)
Lemma reachable_bound (c : Conn) (t : Trace) :
  reachable E c t → bound_to (net_Conn c) c.
Proof.
  induction 1 as [s t|c c' t t' op out _ IH Hstep|c t w _ IH
                  |c c' t t' upgrader err _ IH Hup].
  - unfold NewConn. set (c0 := {| net_Conn := s; br := None |}).
    destruct (init_bound c0 t) as (Hb & Hnet & _); [by left|by left|].
    by rewrite Hnet.
  - apply step_frame in Hstep as [Hw _].
    destruct Hw as (Hconn & Hrest). rewrite Hconn.
    by eapply bound_to_wiring; [split; [exact Hconn|exact Hrest]|].
  - destruct IH as (b & r & Hb & Hr & _ & _ & Hs & Hrs).
    unfold SetDebug.
    destruct (init_bound (set_debug c w) t) as (Hb' & Hnet & _); [by right|by right|].
    by rewrite Hnet.
  - unfold Upgrade in Hup.
    destruct (Flush E c t) as [[[c1 t1] [e|]]|] eqn:Hf; [| |done].
    + injection Hup as <- <- <-.
      destruct (Flush_fields _ _ _ _ _ Hf) as (Hconn & Hrs & Hws & Hbr & Hwaits & Hdbg & Hbw).
      rewrite Hconn. eapply bound_to_wiring; [|exact IH].
      unfold same_wiring. by rewrite Hbr.
    + cbn [net_Conn set_waits] in Hup.
      destruct (upgrader _ _) as [t3 [upgraded|e]] eqn:Hu.
      * destruct (Flush_fields _ _ _ _ _ Hf) as (Hconn & _). rewrite Hconn in Hu.
        destruct (Upgrade_success upgrader c c1 t t1 t3 upgraded IH Hf Hu)
          as (c'' & t'' & Hup' & Hnet & Hbound & _).
        unfold Upgrade in Hup'. rewrite Hf in Hup'. cbn [net_Conn set_waits] in Hup'.
        rewrite Hconn, Hu in Hup'. rewrite Hup' in Hup.
        injection Hup as <- <- <-. by rewrite Hnet.
      * injection Hup as <- <- <-.
        destruct (Flush_fields _ _ _ _ _ Hf) as (Hconn & Hrs & Hws & Hbr & Hwaits & Hdbg & Hbw).
        cbn. rewrite Hconn.
        assert (bound_to (net_Conn c) c1) as (b & r & ?).
        { eapply (bound_to_wiring _ c); [|exact IH].
          unfold same_wiring. by rewrite Hbr. }
        by exists b, r.
Qed.

(** On a connection whose buffers are bound, no call goes through a
    [nil] buffer: every write, flush and read returns, and so does every
    [Upgrade]. *)
Lemma bound_returns (s : Stream) (c : Conn) (t : Trace) :
  bound_to s c →
  (∀ op, is_Some (step E op c t)) ∧ (∀ upgrader, is_Some (Upgrade E upgrader c t)).
Proof.
  intros (b & r & Hb & Hr & _ & _ & Hs & Hrs).
  assert (is_Some (Flush E c t)) as Hflush.
  { unfold Flush, Writer_Flush. rewrite Hb.
    destruct (Writer_Writer c) as [| |fl]; [done| |].
    - by destruct (bw_Flush E b t) as [[b' t'] [e|]].
    - by destruct (multiFlusher_Flush _ fl (b, t)) as [[b' t'] [e|]]. }
  split.
  - intros [p| |n]; simpl.
    + unfold Write. rewrite Hb.
      destruct (Writer_Writer c); [done| |];
        by destruct (bw_Write E b p t) as [[b' t'] [k err]].
    + destruct Hflush as [[[c' t'] err] ->]. done.
    + unfold Reader_Read. rewrite Hrs, Hr.
      by destruct (br_Read E r n t) as [[b' t'] [data err]].
  - intros upgrader. unfold Upgrade.
    destruct Hflush as [[[c' t'] [e|]] ->]; [done|].
    destruct (upgrader _ _) as [t3 [upgraded|e]]; [|done].
    by destruct (init E _ t3).
Qed.

Lemma reachable_returns (c : Conn) (t : Trace) :
  reachable E c t →
  (∀ op, is_Some (step E op c t)) ∧ (∀ upgrader, is_Some (Upgrade E upgrader c t)).
Proof. intros H. eapply bound_returns, reachable_bound, H. Qed.

(** Whenever the current stream of a reachable connection has a [Flush]
    method, the flush strategy is the one of that stream. *)
Lemma reachable_flush_strategy (c : Conn) (t : Trace) :
  reachable E c t →
  flushable (net_Conn c) = true → Writer_Writer c = flush_strategy (net_Conn c).
Proof.
  induction 1 as [s t|c c' t t' op out Hreach IH Hstep|c t w Hreach IH
                  |c c' t t' upgrader err Hreach IH Hup].
  - unfold NewConn. set (c0 := {| net_Conn := s; br := None |}).
    destruct (init_bound c0 t) as (_ & Hnet & _ & Hstrat); [by left|by left|].
    rewrite Hnet, Hstrat. by intros ->.
  - apply step_frame in Hstep as [(Hconn & _ & Hws & _) _]. by rewrite Hconn, Hws.
  - unfold SetDebug.
    destruct (reachable_bound _ _ Hreach) as (b & r & Hb & Hr & _ & _ & Hs & Hrs).
    destruct (init_bound (set_debug c w) t) as (_ & Hnet & _ & Hstrat);
      [by right|by right|].
    rewrite Hnet, Hstrat. cbn. by intros ->.
  - pose proof (reachable_bound _ _ Hreach) as Hbound.
    unfold Upgrade in Hup.
    destruct (Flush E c t) as [[[c1 t1] [e|]]|] eqn:Hf; [| |done].
    + injection Hup as <- <- <-.
      destruct (Flush_fields _ _ _ _ _ Hf) as (Hconn & _ & Hws & _).
      by rewrite Hconn, Hws.
    + cbn [net_Conn set_waits] in Hup.
      destruct (Flush_fields _ _ _ _ _ Hf) as (Hconn & _ & Hws & _).
      destruct (upgrader _ _) as [t3 [upgraded|e]] eqn:Hu.
      * rewrite Hconn in Hu.
        destruct (Upgrade_success upgrader c c1 t t1 t3 upgraded Hbound Hf Hu)
          as (c'' & t'' & Hup' & Hnet & _ & _ & Hstrat).
        unfold Upgrade in Hup'. rewrite Hf in Hup'. cbn [net_Conn set_waits] in Hup'.
        rewrite Hconn, Hu in Hup'. rewrite Hup' in Hup.
        injection Hup as <- <- <-. rewrite Hnet, Hstrat. by intros ->.
      * injection Hup as <- <- <-. cbn. by rewrite Hconn, Hws.
Qed.

End TransportFacts.

Section TransportWitnesses.
Import Samples.

(** C10 at a concrete input: two bytes are pending and the stream
    refuses them. *)
Lemma Upgrade_flush_error_witness :
  Upgrade env_broken_stream (upgrade_to (plain_stream 1))
    (fst (pending env_broken_stream (plain_stream 0)))
    (snd (pending env_broken_stream (plain_stream 0)))
  = Some (set_bw (fst (fresh env_broken_stream (plain_stream 0)))
            {| bw_err := Some (ErrOther "broken pipe"); bw_buf := hi;
               bw_wr := Direct (plain_stream 0) |},
          [EvWrite 0 hi (WErr 0 (ErrOther "broken pipe"))],
          Some (ErrOther "broken pipe")).
Proof.
  exact (proj1 (Upgrade_flush_error env_broken_stream (upgrade_to (plain_stream 1))
                  (fst (pending env_broken_stream (plain_stream 0)))
                  (set_bw (fst (fresh env_broken_stream (plain_stream 0)))
                     {| bw_err := Some (ErrOther "broken pipe"); bw_buf := hi;
                        bw_wr := Direct (plain_stream 0) |})
                  (snd (pending env_broken_stream (plain_stream 0)))
                  [EvWrite 0 hi (WErr 0 (ErrOther "broken pipe"))]
                  (ErrOther "broken pipe") eq_refl)).
Defined.

(** C10 as stated, refuted at a concrete input.  Two bytes are pending
    and the stream takes the first and then fails.  [Upgrade] returns
    the error of the flush, and the buffered writer is not what it was:
    one byte is left pending where there were two, and the writer now
    carries the error. *)
Lemma Upgrade_flush_error_changes_writer :
  ∃ c' t',
    Upgrade env_partial_stream (upgrade_to (plain_stream 1))
      (fst (pending env_partial_stream (plain_stream 0)))
      (snd (pending env_partial_stream (plain_stream 0)))
    = Some (c', t', Some (ErrOther "connection reset"))
    ∧ pending_output (fst (pending env_partial_stream (plain_stream 0))) = hi
    ∧ write_error (fst (pending env_partial_stream (plain_stream 0))) = None
    ∧ pending_output c' = [Byte.x69]
    ∧ write_error c' = Some (ErrOther "connection reset")
    ∧ bw c' ≠ bw (fst (pending env_partial_stream (plain_stream 0)))
    ∧ delivered 0 t' = [Byte.x68].
Proof.
  eexists _, _. split; [reflexivity|].
  split; [reflexivity|]. split; [reflexivity|]. split; [reflexivity|].
  split; [reflexivity|]. split; [|reflexivity].
  vm_compute. discriminate.
Qed.

(** C2 at a concrete input: the flush goes through and the upgrader
    fails. *)
Lemma Upgrade_upgrader_error_witness :
  Upgrade env_ok failing_upgrader
    (fst (pending env_ok (plain_stream 0))) (snd (pending env_ok (plain_stream 0)))
  = Some (set_waits (fst (fresh env_ok (plain_stream 0))) (Some ChanClosed),
          [EvGateClose; EvUpgrader 0; EvGateOpen; EvWrite 0 hi WOk],
          Some (ErrOther "handshake failed")).
Proof.
  exact (proj1 (Upgrade_upgrader_error env_ok failing_upgrader
                  (fst (pending env_ok (plain_stream 0)))
                  (fst (fresh env_ok (plain_stream 0)))
                  (snd (pending env_ok (plain_stream 0)))
                  [EvWrite 0 hi WOk]
                  [EvUpgrader 0; EvGateOpen; EvWrite 0 hi WOk]
                  (ErrOther "handshake failed") eq_refl eq_refl)).
Defined.

(** C1, at the input where the code departs from it.  A connection is
    made on a stream that has a [Flush] method and is upgraded, with
    success, to a stream that has none.  Afterwards the buffered reader
    and writer sit on the new stream, but [c.Writer.Writer] is still the
    aggregate built for the old stream: [init] only replaces it when the
    new stream has a [Flush] method.  A later write and flush send the
    bytes to the new stream and then call [Flush] on the replaced one. *)
Theorem Upgrade_stale_flusher :
  let old := flushing_stream 0 in
  let new := plain_stream 1 in
  ∃ c1 t1 c2,
    Upgrade env_ok (upgrade_to new) (fst (fresh env_ok old)) (snd (fresh env_ok old))
    = Some (c1, t1, None)
    ∧ net_Conn c1 = new
    ∧ bound_to new c1
    ∧ Writer_Writer c1 = SlotFlusher [FlushBuf; FlushStream old]
    ∧ Writer_Writer c1 ≠ flush_strategy new
    ∧ flushed_streams c1 = [old]
    ∧ run env_ok [OpWrite hi; OpFlush] c1 t1
      = Some (c2, EvFlush (sid old) None :: EvWrite (sid new) hi WOk :: t1,
              [OutWrite 2 None; OutFlush None]).
Proof.
  simpl. eexists _, _, _. split; [reflexivity|].
  split; [reflexivity|]. split.
  { eexists _, _. repeat split; try reflexivity. discriminate. }
  split; [reflexivity|]. split; [discriminate|].
  split; reflexivity.
Qed.

End TransportWitnesses.

(* ===================================================================== *)
(** * Diagnostic tapping                                                   *)
(* ===================================================================== *)

Section Tap.
Variable E : Env.
Variable s : Stream.
Variables localDebug remoteDebug : option nat.
Hypothesis Hsinks : sinks_ok E localDebug remoteDebug.
(** The traces at which the tapped and the untapped session start. *)
Variables t0t t0p : Trace.
Hypothesis Hbase : ∀ x, history (on_stream x) t0t = history (on_stream x) t0p.

(** The tapped trace is the untapped one with the copies put in. *)
Local Abbreviation tap_rel := (tap_rel s localDebug remoteDebug t0t t0p).

Lemma history_tapped (x : nat) (new : Trace) :
  history (on_stream x) (tapped (sid s) localDebug remoteDebug new)
  = history (on_stream x) new.
Proof.
  unfold history. induction new as [|ev new IH]; [done|].
  cbn [tapped]. rewrite List.filter_app. cbn [List.filter]. rewrite IH.
  assert (∀ copy : Trace, Forall (fun e => ∃ k q x, e = EvSinkWrite k q x) copy →
            List.filter (on_stream x) copy = []) as Hcopy.
  { induction 1 as [|e copy (k & q & y & ->) _ IHc]; [done|]. simpl. exact IHc. }
  rewrite Hcopy; [done|].
  destruct ev as [s' q [|n e]|s' e|s' data e|k q y|fs key value|fs| | |s'];
    repeat case_match; repeat constructor; eauto.
Qed.

Lemma tap_rel_history (tt tp : Trace) (x : nat) :
  tap_rel tt tp → history (on_stream x) tt = history (on_stream x) tp.
Proof.
  intros (new & -> & ->). unfold history. rewrite !List.filter_app.
  fold (history (on_stream x) (tapped (sid s) localDebug remoteDebug new)).
  rewrite history_tapped. unfold history. f_equal. apply Hbase.
Qed.

Lemma tap_rel_start : tap_rel t0t t0p.
Proof. by exists []. Qed.

(** One more event on the untapped side, the event and its copy on the
    tapped side. *)
Lemma tap_rel_cons (ev : Event) (tt tp : Trace) :
  tap_rel tt tp →
  tap_rel (tapped (sid s) localDebug remoteDebug [ev] ++ tt) (ev :: tp).
Proof.
  intros (new & -> & ->). exists (ev :: new). split; [done|].
  cbn [tapped]. by rewrite <- !app_assoc.
Qed.

(** A stream answers the tapped and the untapped session alike. *)
Lemma stream_Write_sim (x : Stream) (p : list byte) (tt tp : Trace) :
  tap_rel tt tp →
  ∃ r, stream_Write E x p tt = (EvWrite (sid x) p r :: tt, (res_n r p, res_err r))
       ∧ stream_Write E x p tp = (EvWrite (sid x) p r :: tp, (res_n r p, res_err r)).
Proof.
  intros Hrel. unfold stream_Write. rewrite (tap_rel_history tt tp _ Hrel). eauto.
Qed.

Lemma io_Write_sim (p : list byte) (tt tp : Trace) :
  tap_rel tt tp →
  let '(tt', res) := io_Write E (tap_wr s localDebug) p tt in
  ∃ tp', io_Write E (Direct s) p tp = (tp', res) ∧ tap_rel tt' tp'.
Proof.
  intros Hrel. destruct (stream_Write_sim s p tt tp Hrel) as (r & Ht & Hp).
  pose proof (tap_rel_cons (EvWrite (sid s) p r) tt tp Hrel) as Hcons.
  cbn [tapped] in Hcons. unfold tap_wr.
  destruct localDebug as [k|]; cbn [io_Write multiWriter_Write leaf_Write];
    rewrite Ht, Hp.
  - destruct r as [|n e]; cbn [res_n res_err].
    + rewrite Nat.eqb_refl. cbn [negb]. unfold sink_Write.
      rewrite (Hsinks k) by (by left).
      cbn [res_n res_err]. rewrite Nat.eqb_refl. cbn [negb].
      eexists. split; [done|]. by rewrite Nat.eqb_refl in Hcons.
    + eexists. split; [done|]. exact Hcons.
  - eexists. split; [done|]. by destruct r.
Qed.

Lemma bw_Flush_sim (b : BufWriter) (tt tp : Trace) :
  bw_wr b = tap_wr s localDebug → tap_rel tt tp →
  let '(b', tt', err) := bw_Flush E b tt in
  ∃ tp', bw_Flush E (untap_bw s b) tp = (untap_bw s b', tp', err) ∧ tap_rel tt' tp'.
Proof.
  intros Hwr Hrel. unfold bw_Flush. cbn [bw_err bw_buf bw_wr untap_bw]. rewrite Hwr.
  destruct (bw_err b) as [e|]; [by eexists|].
  destruct (length (bw_buf b) =? 0); [by eexists|].
  pose proof (io_Write_sim (bw_buf b) tt tp Hrel) as Hw.
  destruct (io_Write E (tap_wr s localDebug) (bw_buf b) tt) as [tt' [n err]].
  destruct Hw as (tp' & Hp & Hrel'). rewrite Hp.
  destruct err as [e|]; [by eexists|].
  destruct (n <? length (bw_buf b)); by eexists.
Qed.

Lemma bw_Write_loop_sim (fuel : nat) (b : BufWriter) (p : list byte) (nn : nat)
    (tt tp : Trace) :
  bw_wr b = tap_wr s localDebug → tap_rel tt tp →
  let '(b', p', nn', tt') := bw_Write_loop E fuel b p nn tt in
  ∃ tp', bw_Write_loop E fuel (untap_bw s b) p nn tp = (untap_bw s b', p', nn', tp')
         ∧ tap_rel tt' tp'.
Proof.
  revert b p nn tt tp. induction fuel as [|fuel IH]; intros b p nn tt tp Hwr Hrel.
  - simpl. change (bw_Write_more (untap_bw s b) p) with (bw_Write_more b p).
    destruct (bw_Write_more b p); by eexists.
  - cbn [bw_Write_loop].
    change (bw_Write_more (untap_bw s b) p) with (bw_Write_more b p).
    destruct (bw_Write_more b p); [|by eexists].
    change (bw_buf (untap_bw s b)) with (bw_buf b).
    change (bw_err (untap_bw s b)) with (bw_err b).
    change (bw_wr (untap_bw s b)) with (Direct s).
    change (Available (untap_bw s b)) with (Available b).
    destruct (length (bw_buf b) =? 0).
    + rewrite Hwr. pose proof (io_Write_sim p tt tp Hrel) as Hw.
      destruct (io_Write E (tap_wr s localDebug) p tt) as [tt1 [n err]].
      destruct Hw as (tp1 & Hp & Hrel1). rewrite Hp.
      set (b1 := {| bw_err := err; bw_buf := bw_buf b; bw_wr := tap_wr s localDebug |}).
      specialize (IH b1 (drop n p) (nn + n) tt1 tp1 eq_refl Hrel1).
      exact IH.
    + set (b0 := {| bw_err := bw_err b; bw_buf := _; bw_wr := bw_wr b |}).
      pose proof (bw_Flush_sim b0 tt tp Hwr Hrel) as Hf.
      pose proof (bw_Flush_wr E b0 tt) as Hwr0.
      destruct (bw_Flush E b0 tt) as [[b1 tt1] err].
      destruct Hf as (tp1 & Hp & Hrel1).
      change (untap_bw s b0) with
        {| bw_err := bw_err b;
           bw_buf := bw_buf b ++ take (Available b `min` length p) p;
           bw_wr := Direct s |} in Hp.
      rewrite Hp. apply IH; [|done]. simpl in Hwr0. congruence.
Qed.

Lemma bw_Write_sim (b : BufWriter) (p : list byte) (tt tp : Trace) :
  bw_wr b = tap_wr s localDebug → tap_rel tt tp →
  let '(b', tt', res) := bw_Write E b p tt in
  ∃ tp', bw_Write E (untap_bw s b) p tp = (untap_bw s b', tp', res) ∧ tap_rel tt' tp'.
Proof.
  intros Hwr Hrel. unfold bw_Write.
  pose proof (bw_Write_loop_sim 2 b p 0 tt tp Hwr Hrel) as Hl.
  destruct (bw_Write_loop E 2 b p 0 tt) as [[[b1 p1] nn] tt1].
  destruct Hl as (tp1 & -> & Hrel1).
  change (bw_err (untap_bw s b1)) with (bw_err b1).
  destruct (bw_err b1); by eexists.
Qed.

Lemma stream_Flush_sim (x : Stream) (tt tp : Trace) :
  tap_rel tt tp →
  let '(tt', err) := stream_Flush E x tt in
  ∃ tp', stream_Flush E x tp = (tp', err) ∧ tap_rel tt' tp'.
Proof.
  intros Hrel. unfold stream_Flush. rewrite (tap_rel_history tt tp _ Hrel).
  eexists. split; [done|].
  exact (tap_rel_cons (EvFlush (sid x) _) tt tp Hrel).
Qed.

Lemma flusher_Flush_sim (f : flusher) (b : BufWriter) (tt tp : Trace) :
  bw_wr b = tap_wr s localDebug → tap_rel tt tp →
  let '((b', tt'), err) := flusher_Flush E f (b, tt) in
  ∃ tp', flusher_Flush E f (untap_bw s b, tp) = ((untap_bw s b', tp'), err)
         ∧ tap_rel tt' tp'.
Proof.
  intros Hwr Hrel. destruct f as [|x]; cbn [flusher_Flush fst snd].
  - pose proof (bw_Flush_sim b tt tp Hwr Hrel) as Hf.
    destruct (bw_Flush E b tt) as [[b' tt'] err].
    destruct Hf as (tp' & -> & Hrel'). by eexists.
  - pose proof (stream_Flush_sim x tt tp Hrel) as Hf.
    destruct (stream_Flush E x tt) as [tt' err].
    destruct Hf as (tp' & -> & Hrel'). by eexists.
Qed.

Lemma multiFlusher_Flush_sim (fl : list flusher) (b : BufWriter) (tt tp : Trace) :
  bw_wr b = tap_wr s localDebug → tap_rel tt tp →
  let '((b', tt'), err) := multiFlusher_Flush (flusher_Flush E) fl (b, tt) in
  ∃ tp', multiFlusher_Flush (flusher_Flush E) fl (untap_bw s b, tp)
         = ((untap_bw s b', tp'), err)
         ∧ tap_rel tt' tp'.
Proof.
  revert b tt tp. induction fl as [|f fl IH]; intros b tt tp Hwr Hrel;
    cbn [multiFlusher_Flush]; [by eexists|].
  pose proof (flusher_Flush_sim f b tt tp Hwr Hrel) as Hf.
  pose proof (flusher_Flush_frame E f b tt) as Hfr.
  destruct (flusher_Flush E f (b, tt)) as [[b1 tt1] err].
  destruct Hf as (tp1 & -> & Hrel1). destruct Hfr as [Hwr1 _].
  destruct err as [e|]; [by eexists|].
  apply IH; [congruence|done].
Qed.

Lemma io_Read_sim (n : nat) (tt tp : Trace) :
  tap_rel tt tp →
  let '(tt', res) := io_Read E (tap_rd s remoteDebug) n tt in
  ∃ tp', io_Read E (FromStream s) n tp = (tp', res) ∧ tap_rel tt' tp'.
Proof.
  intros Hrel. cbn [io_Read].
  assert (∃ data err,
            stream_Read E s n tt = (EvRead (sid s) data err :: tt, (data, err))
            ∧ stream_Read E s n tp = (EvRead (sid s) data err :: tp, (data, err)))
    as (data & err & Ht & Hp).
  { unfold stream_Read. rewrite (tap_rel_history tt tp _ Hrel).
    destruct (stream_read E _ _ n) as [data err]. eauto. }
  pose proof (tap_rel_cons (EvRead (sid s) data err) tt tp Hrel) as Hcons.
  cbn [tapped] in Hcons. rewrite Hp. unfold tap_rd.
  destruct remoteDebug as [k|]; cbn [io_Read]; rewrite Ht.
  - rewrite Nat.eqb_refl in Hcons. cbn [andb] in Hcons.
    destruct (0 <? length data).
    + unfold sink_Write. rewrite (Hsinks k) by (by right). cbn [res_n res_err].
      eexists. split; [done|]. exact Hcons.
    + eexists. split; [done|]. exact Hcons.
  - eexists. split; [done|]. exact Hcons.
Qed.

Lemma br_Read_sim (b : BufReader) (n : nat) (tt tp : Trace) :
  br_rd b = tap_rd s remoteDebug → tap_rel tt tp →
  let '(b', tt', res) := br_Read E b n tt in
  ∃ tp', br_Read E (untap_br s b) n tp = (untap_br s b', tp', res) ∧ tap_rel tt' tp'.
Proof.
  intros Hrd Hrel. unfold br_Read. cbn [br_rd br_buf br_err untap_br]. rewrite Hrd.
  destruct (n =? 0).
  { destruct (0 <? length (br_buf b)); by eexists. }
  destruct (length (br_buf b) =? 0); [|by eexists].
  destruct (br_err b); [by eexists|].
  destruct (defaultBufSize <=? n).
  - pose proof (io_Read_sim n tt tp Hrel) as Hr.
    destruct (io_Read E (tap_rd s remoteDebug) n tt) as [tt' [data err]].
    destruct Hr as (tp' & -> & Hrel'). by eexists.
  - pose proof (io_Read_sim defaultBufSize tt tp Hrel) as Hr.
    destruct (io_Read E (tap_rd s remoteDebug) defaultBufSize tt) as [tt' [data err]].
    destruct Hr as (tp' & -> & Hrel'). cbn [br_rd br_buf br_err].
    destruct (length data =? 0); by eexists.
Qed.

(** One call on the tapped connection against the same call on the
    connection with its taps taken out. *)
Lemma step_sim (op : Op) (c : Conn) (tt tp : Trace) :
  tapped_conn s localDebug remoteDebug c → tap_rel tt tp →
  match step E op c tt with
  | Some (c', tt', out) =>
      ∃ tp', step E op (untap c) tp = Some (untap c', tp', out) ∧ tap_rel tt' tp'
  | None => step E op (untap c) tp = None
  end.
Proof.
  intros (Hs & Hbw & Hbr) Hrel. destruct op as [p| |n]; cbn [step].
  - unfold Write. cbn [untap Writer_Writer bw].
    destruct (bw c) as [b|] eqn:Hb; cbn [fmap option_fmap option_map];
      [|by destruct (Writer_Writer c)].
    pose proof (bw_Write_sim b p tt tp (Hbw b eq_refl) Hrel) as Hw.
    rewrite Hs.
    destruct (Writer_Writer c); [done| |];
      destruct (bw_Write E b p tt) as [[b' tt'] [k err]];
      destruct Hw as (tp' & -> & Hrel'); eexists; (split; [|exact Hrel']);
      unfold untap, set_bw; cbn; by rewrite Hs.
  - unfold Flush, Writer_Flush. cbn [untap Writer_Writer bw].
    destruct (Writer_Writer c) as [| |fl].
    + by eexists.
    + destruct (bw c) as [b|] eqn:Hb; cbn [fmap option_fmap option_map]; [|done].
      pose proof (bw_Flush_sim b tt tp (Hbw b eq_refl) Hrel) as Hf. rewrite Hs.
      destruct (bw_Flush E b tt) as [[b' tt'] err].
      destruct Hf as (tp' & -> & Hrel').
      destruct err; eexists; (split; [|exact Hrel']);
        unfold untap, set_bw; cbn; by rewrite Hs.
    + destruct (bw c) as [b|] eqn:Hb; cbn [fmap option_fmap option_map]; [|done].
      pose proof (multiFlusher_Flush_sim fl b tt tp (Hbw b eq_refl) Hrel) as Hf.
      rewrite Hs.
      destruct (multiFlusher_Flush _ fl (b, tt)) as [[b' tt'] err].
      destruct Hf as (tp' & -> & Hrel').
      destruct err; eexists; (split; [|exact Hrel']);
        unfold untap, set_bw; cbn; by rewrite Hs.
  - unfold Reader_Read. cbn [untap Reader_reader br].
    destruct (Reader_reader c); [done|].
    destruct (br c) as [b|] eqn:Hb; cbn [fmap option_fmap option_map]; [|done].
    pose proof (br_Read_sim b n tt tp (Hbr b eq_refl) Hrel) as Hr. rewrite Hs.
    destruct (br_Read E b n tt) as [[b' tt'] [data err]].
    destruct Hr as (tp' & -> & Hrel').
    eexists; (split; [|exact Hrel']); unfold untap, set_br; cbn; by rewrite Hs.
Qed.

Lemma tapped_conn_wiring (c c' : Conn) :
  same_wiring c c' →
  tapped_conn s localDebug remoteDebug c → tapped_conn s localDebug remoteDebug c'.
Proof.
  intros (Hconn & _ & _ & _ & _ & Hw & Hr) (Hs & Hbw & Hbr).
  split; [congruence|]. split.
  - intros b' Hb'. rewrite Hb' in Hw. destruct (bw c) as [b|]; [|done].
    simpl in Hw. injection Hw as ->. by apply Hbw.
  - intros b' Hb'. rewrite Hb' in Hr. destruct (br c) as [b|]; [|done].
    simpl in Hr. injection Hr as ->. by apply Hbr.
Qed.

(** A whole session on the tapped connection against the same session
    on the connection with its taps taken out. *)
Lemma run_sim (ops : list Op) (c : Conn) (tt tp : Trace) :
  tapped_conn s localDebug remoteDebug c → tap_rel tt tp →
  match run E ops c tt with
  | Some (c', tt', outs) =>
      ∃ tp', run E ops (untap c) tp = Some (untap c', tp', outs) ∧ tap_rel tt' tp'
  | None => run E ops (untap c) tp = None
  end.
Proof.
  revert c tt tp. induction ops as [|op ops IH]; intros c tt tp Hc Hrel;
    cbn [run]; [by eexists|].
  pose proof (step_sim op c tt tp Hc Hrel) as Hs.
  destruct (step E op c tt) as [[[c1 tt1] out]|] eqn:Hstep; [|by rewrite Hs].
  destruct Hs as (tp1 & -> & Hrel1).
  apply step_frame in Hstep as [Hw _].
  specialize (IH c1 tt1 tp1 (tapped_conn_wiring _ _ Hw Hc) Hrel1).
  destruct (run E ops c1 tt1) as [[[c2 tt2] outs]|]; [|by rewrite IH].
  destruct IH as (tp2 & -> & Hrel2). by eexists.
Qed.

End Tap.

Section TapFacts.
Variable E : Env.

Lemma field_events_history (x : nat) (pre t : Trace) :
  Forall (fun ev => is_field_event ev = true) pre →
  history (on_stream x) (pre ++ t) = history (on_stream x) t.
Proof.
  unfold history. induction 1 as [|ev pre Hev _ IH]; [done|].
  simpl. by destruct ev.
Qed.

Lemma field_events_delivered (x : nat) (pre t : Trace) :
  Forall (fun ev => is_field_event ev = true) pre →
  delivered x (pre ++ t) = delivered x t.
Proof. induction 1 as [|ev pre Hev _ IH]; [done|]. simpl. by destruct ev. Qed.

Lemma delivered_tapped (x s : nat) (l r : option nat) (new t : Trace) :
  delivered x (tapped s l r new ++ t) = delivered x (new ++ t).
Proof.
  induction new as [|ev new IH]; [done|]. cbn [tapped]. rewrite <- app_assoc.
  destruct ev as [s' q [|n e]|s' e|s' data e|k q y|fs key value|fs| | |s'];
    repeat case_match; simpl; rewrite ?IH; done.
Qed.

Lemma delivered_app_same (x : nat) (new t t' : Trace) :
  delivered x t = delivered x t' → delivered x (new ++ t) = delivered x (new ++ t').
Proof.
  intros H. induction new as [|ev new IH]; [done|]. simpl.
  destruct ev; try done. by rewrite IH.
Qed.

(** Resolving the sinks only talks to the field-tagged sinks. *)
Lemma debug_sinks_extends (s : Stream) (d : Debug) (t : Trace) :
  let '(_, _, _, t') := debug_sinks E s d t in
  extends_with is_field_event t t'.
Proof.
  assert (∀ l r key value t0, extends_with is_field_event t0 (withField l r key value t0))
    as Hwith.
  { intros [l|] [r|] key value t0; unfold withField, fields_SetField;
      repeat apply extends_with_cons; try done; apply extends_with_refl. }
  destruct d as [l r|W l r|k]; simpl; try apply extends_with_refl.
  set (t1 := match LocalAddr s with Some addr => _ | None => t end).
  set (t2 := match RemoteAddr s with Some addr => _ | None => t1 end).
  assert (extends_with is_field_event t t1) as H1.
  { subst t1. destruct (LocalAddr s); [apply Hwith|apply extends_with_refl]. }
  assert (extends_with is_field_event t1 t2) as H2.
  { subst t2. destruct (RemoteAddr s); [apply Hwith|apply extends_with_refl]. }
  assert (extends_with is_field_event t t2) as H12 by (by eapply extends_with_trans).
  clearbody t1 t2.
  destruct l as [l|], r as [r|]; simpl;
    repeat apply extends_with_cons; done.
Qed.

(** What [SetDebug] builds: the buffers on the taps of the resolved
    sinks; without the taps it is what [SetDebug(nil)] builds. *)
Lemma SetDebug_tapped (c : Conn) (d : Debug) (t : Trace) :
  let '(_, localDebug, remoteDebug, _) := debug_sinks E (net_Conn c) d t in
  let '(ct, t_tap) := SetDebug E (Some d) c t in
  let '(cp, t_plain) := SetDebug E None c t in
  tapped_conn (net_Conn c) localDebug remoteDebug ct
  ∧ (bw_wr <$> bw ct) = Some (tap_wr (net_Conn c) localDebug)
  ∧ (br_rd <$> br ct) = Some (tap_rd (net_Conn c) remoteDebug)
  ∧ untap ct = cp ∧ t_plain = t
  ∧ extends_with is_field_event t t_tap.
Proof.
  unfold SetDebug, init. cbn [debug set_debug net_Conn br bw Reader_reader
                               Writer_Writer waits].
  pose proof (debug_sinks_extends (net_Conn c) d t) as Hext.
  destruct (debug_sinks E (net_Conn c) d t) as [[[d' l] r] t1].
  unfold tap_wr, tap_rd, tapped_conn, untap.
  destruct (br c) as [b|], (bw c) as [w|]; cbn;
    repeat split; try done; intros ? [= <-]; done.
Qed.

(** C8, as amended.  Provided every write to a configured sink
    succeeds, wiring sinks through [SetDebug] is byte-preserving.  Take
    any connection, any debug value and any session of writes, flushes
    and reads, and run the session once with the debug value installed
    and once with none.  The buffered writer and reader sit on
    [io.MultiWriter(c.Conn, localDebug)] and
    [io.TeeReader(c.Conn, remoteDebug)], and on the bare stream for a side
    whose sink is [nil].  Every call returns the same counts, bytes and
    errors in both runs; the tapped run panics exactly when the untapped
    one does; the trace of the tapped run is the trace of the untapped
    run with, after each write the stream took in full, the same bytes
    written to the local sink, and after each non-empty read, the same
    bytes written to the remote sink, and nothing else; so every stream
    receives the same bytes in both runs. *)
Theorem tap_preserves_bytes (c : Conn) (d d' : Debug) (t t1 : Trace)
    (localDebug remoteDebug : option nat) (ops : list Op) :
  debug_sinks E (net_Conn c) d t = (d', localDebug, remoteDebug, t1) →
  sinks_ok E localDebug remoteDebug →
  let s := net_Conn c in
  let '(ct, t_tap) := SetDebug E (Some d) c t in
  let '(cp, t_plain) := SetDebug E None c t in
  (bw_wr <$> bw ct) = Some (tap_wr s localDebug)
  ∧ (br_rd <$> br ct) = Some (tap_rd s remoteDebug)
  ∧ (localDebug = None → bw_wr <$> bw ct = Some (Direct s))
  ∧ (remoteDebug = None → br_rd <$> br ct = Some (FromStream s))
  ∧ (bw_wr <$> bw cp) = Some (Direct s)
  ∧ (br_rd <$> br cp) = Some (FromStream s)
  ∧ match run E ops cp t_plain with
    | None => run E ops ct t_tap = None
    | Some (cp', t_plain', outs) =>
        ∃ ct' new,
          t_plain' = new ++ t_plain
          ∧ run E ops ct t_tap
            = Some (ct', tapped (sid s) localDebug remoteDebug new ++ t_tap, outs)
          ∧ untap ct' = cp'
          ∧ ∀ x, delivered x (tapped (sid s) localDebug remoteDebug new ++ t_tap)
                 = delivered x t_plain'
    end.
Proof.
  intros Hdbg Hsinks s.
  pose proof (SetDebug_tapped c d t) as Hset. fold s in Hset, Hdbg.
  rewrite Hdbg in Hset. rename localDebug into l, remoteDebug into r.
  destruct (SetDebug E (Some d) c t) as [ct t_tap].
  assert (SetDebug E None c t = (untap ct, t)
          ∧ bw_wr <$> bw (untap ct) = Some (Direct s)
          ∧ br_rd <$> br (untap ct) = Some (FromStream s)) as (Hp & Hpw & Hpr).
  { destruct (SetDebug E None c t) as [cp t_plain].
    destruct Hset as ((Hs & _) & Hw & Hr & <- & -> & _). split; [done|].
    unfold untap. cbn. rewrite Hs.
    destruct (bw ct), (br ct); done. }
  rewrite Hp in Hset |- *. destruct Hset as (Hc & Hw & Hr & _ & _ & (pre & -> & Hpre)).
  split; [done|]. split; [done|]. split; [by intros ->|]. split; [by intros ->|].
  split; [done|]. split; [done|].
  assert (∀ x, history (on_stream x) (pre ++ t) = history (on_stream x) t) as Hbase
    by (intros x; by apply field_events_history).
  pose proof (run_sim E s l r Hsinks (pre ++ t) t Hbase ops ct (pre ++ t) t Hc
                (tap_rel_start s l r (pre ++ t) t)) as Hrun.
  destruct (run E ops ct (pre ++ t)) as [[[ct' tt'] outs]|]; [|by rewrite Hrun].
  destruct Hrun as (tp' & -> & (new & -> & ->)).
  exists ct', new. repeat split.
  intros x. rewrite delivered_tapped. apply delivered_app_same.
  by apply field_events_delivered.
Qed.

End TapFacts.

Section TapWitnesses.
Import Samples.

(** C8 as amended, at a concrete input: both sides go to sink 7, which
    takes everything. *)
Lemma tap_preserves_bytes_witness :
  ∃ ct' new outs,
    run env_ok session
      (fst (SetDebug env_ok (Some (DebugOther 7)) (fst (fresh env_ok (plain_stream 0))) []))
      (snd (SetDebug env_ok (Some (DebugOther 7)) (fst (fresh env_ok (plain_stream 0))) []))
    = Some (ct',
            tapped 0 (Some 7) (Some 7) new
            ++ snd (SetDebug env_ok (Some (DebugOther 7))
                      (fst (fresh env_ok (plain_stream 0))) []),
            outs)
    ∧ run env_ok session
        (fst (SetDebug env_ok None (fst (fresh env_ok (plain_stream 0))) []))
        (snd (SetDebug env_ok None (fst (fresh env_ok (plain_stream 0))) []))
      = Some (untap ct',
              new ++ snd (SetDebug env_ok None (fst (fresh env_ok (plain_stream 0))) []),
              outs).
Proof.
  assert (sinks_ok env_ok (Some 7) (Some 7)) as Hok by (intros k _ h p; reflexivity).
  pose proof (tap_preserves_bytes env_ok (fst (fresh env_ok (plain_stream 0)))
                (DebugOther 7) (DebugOther 7) [] [] (Some 7) (Some 7) session
                eq_refl Hok) as H.
  cbv zeta in H.
  destruct (SetDebug env_ok (Some (DebugOther 7)) _ []) as [ct t_tap].
  destruct (SetDebug env_ok None _ []) as [cp t_plain] eqn:Hplain.
  cbn [fst snd]. destruct H as (_ & _ & _ & _ & _ & _ & H).
  destruct (run env_ok session cp t_plain) as [[[cp' tp'] outs]|] eqn:Hrun.
  - destruct H as (ct' & new & -> & H & <- & _). by exists ct', new, outs.
  - exfalso. vm_compute in Hplain. injection Hplain as <- <-.
    vm_compute in Hrun. discriminate Hrun.
Defined.

(** C8 as stated, refuted at a concrete input.  Both sides go to sink 7,
    which refuses every write.  With the tap the first flush fails,
    although the stream took the bytes; the error sticks, so the second
    write never reaches the stream; and the byte read from the stream is
    lost, the read returning the error of the sink.  Without the tap
    every call succeeds and the stream receives both writes. *)
Lemma tap_with_failing_sink :
  ∃ ct' t_tap' cp' t_plain',
    run env_broken_sink session
      (fst (SetDebug env_broken_sink (Some (DebugOther 7))
              (fst (fresh env_broken_sink (plain_stream 0))) [])) []
    = Some (ct', t_tap',
            [OutWrite 2 None; OutFlush (Some (ErrOther "disk full"));
             OutWrite 0 (Some (ErrOther "disk full"));
             OutFlush (Some (ErrOther "disk full"));
             OutRead [] (Some (ErrOther "disk full"))])
    ∧ run env_broken_sink session
        (fst (SetDebug env_broken_sink None
                (fst (fresh env_broken_sink (plain_stream 0))) [])) []
      = Some (cp', t_plain',
              [OutWrite 2 None; OutFlush None; OutWrite 2 None; OutFlush None;
               OutRead [Byte.x61] None])
    ∧ delivered 0 t_tap' = hi
    ∧ delivered 0 t_plain' = hi ++ hi.
Proof. eexists _, _, _, _. repeat split. Qed.

End TapWitnesses.

(* ===================================================================== *)
(** * Further properties                                                   *)
(* ===================================================================== *)

Section Further.
Import Samples.

(** [WriteTo] writes the lines of the emitted records, in receive order,
    and stops at the first line whose write fails.  The line of a record
    is the raw string [LSUB] for a subscribed listing and [LIST]
    otherwise, followed by the fields [Format] gives for the record. *)
Theorem WriteTo_lines {Field Writer : Type}
    (RawString : string -> Field) (Format : MailboxInfo -> list Field)
    (resp_WriteTo : list Field -> Writer -> Writer * option error)
    (r : List) (w : Writer) :
  (let '(_, w', err) := WriteTo RawString Format resp_WriteTo r w in (w', err))
  = write_lines resp_WriteTo
      (map (fun m => RawString (if Subscribed r then "LSUB" else "LIST") :: Format m)
         (List.filter (emitted r) (Mailboxes r))) w.
Proof. exact (WriteTo_lines_of RawString Format resp_WriteTo r w). Qed.

(** At every point between calls, the buffered reader and the buffered
    writer of the connection exist, are the ones the protocol reader and
    writer go through, and sit on the current stream. *)
Theorem buffers_bound_to_current_stream (E : Env) (c : Conn) (t : Trace) :
  reachable E c t → bound_to (net_Conn c) c.
Proof. apply reachable_bound. Qed.

Lemma buffers_bound_to_current_stream_witness :
  bound_to (plain_stream 0)
    (fst (SetDebug env_ok (Some (DebugOther 7))
            (fst (fresh env_ok (plain_stream 0))) (snd (fresh env_ok (plain_stream 0))))).
Proof.
  exact (buffers_bound_to_current_stream env_ok _ _
           (reach_SetDebug env_ok _ _ (Some (DebugOther 7))
              (reach_NewConn env_ok (plain_stream 0) []))).
Defined.

(** Whenever the current stream has a [Flush] method of its own, the
    flush strategy of the connection is the buffered writer followed by
    that stream. *)
Theorem flush_strategy_of_flushing_stream (E : Env) (c : Conn) (t : Trace) :
  reachable E c t →
  flushable (net_Conn c) = true →
  Writer_Writer c = SlotFlusher [FlushBuf; FlushStream (net_Conn c)].
Proof.
  intros Hr Hf. rewrite (reachable_flush_strategy E c t Hr Hf).
  unfold flush_strategy. by rewrite Hf.
Qed.

Lemma flush_strategy_of_flushing_stream_witness :
  Writer_Writer (fst (fresh env_ok (flushing_stream 0)))
  = SlotFlusher [FlushBuf; FlushStream (flushing_stream 0)].
Proof.
  exact (flush_strategy_of_flushing_stream env_ok _ _
           (reach_NewConn env_ok (flushing_stream 0) []) eq_refl).
Defined.

(** No call on the connection goes through a [nil] buffer: every write,
    flush and buffered read returns, and so does every [Upgrade]. *)
Theorem calls_return (E : Env) (c : Conn) (t : Trace) :
  reachable E c t →
  (∀ op, is_Some (step E op c t)) ∧ (∀ upgrader, is_Some (Upgrade E upgrader c t)).
Proof. apply reachable_returns. Qed.

Lemma calls_return_witness :
  is_Some (step env_ok (OpWrite hi) (fst (fresh env_ok (plain_stream 0)))
             (snd (fresh env_ok (plain_stream 0)))).
Proof.
  exact (proj1 (calls_return env_ok _ _ (reach_NewConn env_ok (plain_stream 0) []))
           (OpWrite hi)).
Defined.

(** A successful [Upgrade] leaves the connection on the new stream, with
    both buffers bound to it and [c.waits] closed.  The flush strategy is
    the one of the new stream when that stream has a [Flush] method, and
    otherwise the strategy that was in place before the upgrade. *)
Theorem Upgrade_rebinds (E : Env) (upgrader : ConnUpgrader) (c c1 : Conn)
    (t t1 t3 : Trace) (upgraded : Stream) :
  bound_to (net_Conn c) c →
  Flush E c t = Some (c1, t1, None) →
  upgrader (net_Conn c) (EvUpgrader (sid (net_Conn c)) :: EvGateOpen :: t1)
  = (t3, inl upgraded) →
  ∃ c' t',
    Upgrade E upgrader c t = Some (c', EvGateClose :: t', None)
    ∧ net_Conn c' = upgraded
    ∧ bound_to upgraded c'
    ∧ waits c' = Some ChanClosed
    ∧ Writer_Writer c'
      = if flushable upgraded then flush_strategy upgraded else Writer_Writer c.
Proof. apply Upgrade_success. Qed.

Lemma Upgrade_rebinds_witness :
  ∃ c' t',
    Upgrade env_ok (upgrade_to (flushing_stream 1))
      (fst (fresh env_ok (plain_stream 0))) (snd (fresh env_ok (plain_stream 0)))
    = Some (c', EvGateClose :: t', None)
    ∧ net_Conn c' = flushing_stream 1
    ∧ bound_to (flushing_stream 1) c'
    ∧ waits c' = Some ChanClosed
    ∧ Writer_Writer c' = SlotFlusher [FlushBuf; FlushStream (flushing_stream 1)].
Proof.
  refine (Upgrade_rebinds env_ok (upgrade_to (flushing_stream 1))
            (fst (fresh env_ok (plain_stream 0))) (fst (fresh env_ok (plain_stream 0)))
            [] [] [EvUpgrader 0; EvGateOpen] (flushing_stream 1) _ eq_refl eq_refl).
  apply (reachable_bound env_ok _ []), (reach_NewConn env_ok (plain_stream 0) []).
Defined.

End Further.

(* ===================================================================== *)
(** * The listing response: further properties                             *)
(* ===================================================================== *)

Section ListingFurther.

Lemma filter_all {A : Type} (P : A → Prop) `{!∀ x, Decision (P x)} (l : list A) :
  (∀ x, x ∈ l → P x) → filter P l = l.
Proof.
  induction l as [|x l IH]; intros Hall; [done|].
  rewrite filter_cons_True by (apply Hall; left).
  rewrite IH; [done|]. intros y Hy. apply Hall. by right.
Qed.

Lemma first_occurrences_sublist (l : list string) : first_occurrences l `sublist_of` l.
Proof.
  induction l as [|x l IH]; simpl; [constructor|].
  apply sublist_skip. etrans; [apply sublist_filter|exact IH].
Qed.

Lemma first_occurrences_NoDup (l : list string) : NoDup l → first_occurrences l = l.
Proof.
  induction 1 as [|x l Hx _ IH]; simpl; [done|]. rewrite IH. f_equal.
  apply filter_all. intros y Hy ->. done.
Qed.

Lemma first_occurrences_app (l1 l2 : list string) :
  first_occurrences (l1 ++ l2)
  = first_occurrences l1 ++ filter (fun y => y ∉ l1) (first_occurrences l2).
Proof.
  induction l1 as [|x l1 IH]; simpl.
  - symmetry. apply filter_all. intros y _ Hy. inversion Hy.
  - f_equal. rewrite IH, filter_app. f_equal.
    rewrite list_filter_filter. apply list_filter_iff. intros y.
    rewrite elem_of_cons. naive_solver.
Qed.

(** [removeDups] keeps the first occurrence of every element and drops
    the later ones.  It is the list of the elements in the order in
    which each first occurs: an element stays where it first stands,
    so the result for a list followed by another is the result for the
    first, followed by the result for the second less what the first
    holds; in particular an element appended to a list is appended to
    the result when it is new and dropped when it is not.  The result
    has no repeats, holds the same elements, keeps their relative order,
    is the list itself when the list has no repeats, and is not changed
    by a second pass. *)
Theorem removeDups_keeps_first (l : list string) :
  removeDups l = first_occurrences l
  ∧ (∀ l2, removeDups (l ++ l2)
           = removeDups l ++ filter (fun y => y ∉ l) (removeDups l2))
  ∧ (∀ x, removeDups (l ++ [x])
          = if bool_decide (x ∈ l) then removeDups l else removeDups l ++ [x])
  ∧ (∀ pre x post, l = pre ++ x :: post → x ∉ pre →
       ∃ rest, removeDups l = removeDups pre ++ x :: rest ∧ x ∉ rest)
  ∧ NoDup (removeDups l)
  ∧ (∀ e, e ∈ removeDups l ↔ e ∈ l)
  ∧ removeDups l `sublist_of` l
  ∧ (NoDup l → removeDups l = l)
  ∧ removeDups (removeDups l) = removeDups l
  ∧ (∀ x l', l = x :: l' → ∃ rest, removeDups l = x :: rest).
Proof.
  split; [apply removeDups_first_occurrences|].
  split.
  { intros l2. rewrite !removeDups_first_occurrences. apply first_occurrences_app. }
  split.
  { intros x. rewrite !removeDups_first_occurrences, first_occurrences_app. simpl.
    case_bool_decide as Hx.
    - rewrite filter_cons_False by (intros Hn; by apply Hn). by rewrite app_nil_r.
    - by rewrite filter_cons_True by done. }
  split.
  { intros pre x post -> Hx.
    rewrite !removeDups_first_occurrences, first_occurrences_app. simpl.
    rewrite filter_cons_True by done. eexists. split; [done|].
    rewrite !list_elem_of_filter. naive_solver. }
  rewrite !removeDups_first_occurrences.
  split; [apply NoDup_first_occurrences|].
  split; [intros e; apply elem_of_first_occurrences|].
  split; [apply first_occurrences_sublist|].
  split; [apply first_occurrences_NoDup|].
  split; [apply first_occurrences_NoDup, NoDup_first_occurrences|].
  intros x l' ->. simpl. eauto.
Qed.

(** [intersection] as an operation on sets: empty as soon as one side
    is empty, the same set whichever side is hashed, a sub-sequence of
    the scanned side, the scanned list without repeats when both sides
    are the same list, and empty exactly when the two lists share no
    element. *)
Theorem intersection_as_set (s1 s2 : list string) :
  intersection s1 [] = []
  ∧ intersection [] s2 = []
  ∧ (∀ e, e ∈ intersection s1 s2 ↔ e ∈ intersection s2 s1)
  ∧ intersection s1 s2 `sublist_of` s2
  ∧ intersection s2 s2 = removeDups s2
  ∧ (intersection s1 s2 = [] ↔ ∀ e, e ∈ s1 → e ∉ s2).
Proof.
  split; [done|]. split.
  { rewrite intersection_set_intersection. unfold set_intersection.
    replace (filter (fun e => e ∈ []) s2) with (@nil string); [done|].
    induction s2 as [|x s2 IH]; [done|].
    rewrite filter_cons_False; [done|]. intros H. inversion H. }
  split; [intros e; rewrite !elem_of_intersection; tauto|].
  split.
  { rewrite intersection_set_intersection. unfold set_intersection.
    etrans; [apply first_occurrences_sublist|apply sublist_filter]. }
  split.
  { rewrite intersection_set_intersection, removeDups_first_occurrences.
    unfold set_intersection. f_equal. by apply filter_all. }
  split.
  - intros Hnil e H1 H2.
    assert (e ∈ intersection s1 s2) as Hin by (by apply elem_of_intersection).
    rewrite Hnil in Hin. inversion Hin.
  - intros Hdis. destruct (intersection s1 s2) as [|x l] eqn:Hi; [done|].
    assert (x ∈ intersection s1 s2) as Hin by (rewrite Hi; left).
    apply elem_of_intersection in Hin as [H1 H2]. by destruct (Hdis x H1).
Qed.

Section Draining.
Context {Field Writer : Type}.
Variable RawString : string -> Field.
Variable Format : MailboxInfo -> list Field.
Variable resp_WriteTo : list Field -> Writer -> Writer * option error.

Lemma WriteTo_loop_outcome (r : List) (respName : string)
    (mailboxes : list MailboxInfo) (w : Writer) :
  let '(rest, w', err) :=
    WriteTo_loop RawString Format resp_WriteTo r respName mailboxes w in
  match err with
  | None => rest = []
  | Some e =>
      ∃ pre m w1,
        mailboxes = pre ++ m :: rest
        ∧ emitted r m = true
        ∧ write_lines resp_WriteTo
            (map (line RawString Format respName) (List.filter (emitted r) pre)) w
          = (w1, None)
        ∧ resp_WriteTo (line RawString Format respName m) w1 = (w', Some e)
  end.
Proof.
  revert w. induction mailboxes as [|mbox rest0 IH]; intros w; simpl; [done|].
  rewrite special_use_test.
  assert (emitted r mbox
          = negb (SpecialUse r
                  && negb (bool_decide (Exists (fun a => a ∈ specialuse)
                                          (Attributes mbox))))) as Hem.
  { unfold emitted. destruct (SpecialUse r), (bool_decide _); done. }
  destruct (SpecialUse r && negb _) eqn:Hskip; simpl in Hem.
  - specialize (IH w).
    destruct (WriteTo_loop _ _ _ r respName rest0 w) as [[rest w'] [e|]]; [|done].
    destruct IH as (pre & m & w1 & -> & Hm & Hpre & Hfail).
    exists (mbox :: pre), m, w1. simpl. rewrite Hem. done.
  - destruct (resp_WriteTo (line RawString Format respName mbox) w)
      as [w0 [e|]] eqn:Hw.
    + exists [], mbox, w. done.
    + specialize (IH w0).
      destruct (WriteTo_loop _ _ _ r respName rest0 w0) as [[rest w'] [e|]]; [|done].
      destruct IH as (pre & m & w1 & -> & Hm & Hpre & Hfail).
      exists (mbox :: pre), m, w1. simpl. rewrite Hem. simpl. rewrite Hw. done.
Qed.

(** [WriteTo] either drains the channel, returning [nil], or stops at
    the first record whose line the writer refuses: it returns that
    error, the lines of the emitted records before that one have been
    written, and the records after it are still in the channel.  The
    flags of the response are never changed. *)
Theorem WriteTo_outcome (r : List) (w : Writer) :
  let '(r', w', err) := WriteTo RawString Format resp_WriteTo r w in
  Subscribed r' = Subscribed r ∧ SpecialUse r' = SpecialUse r
  ∧ match err with
    | None => Mailboxes r' = []
    | Some e =>
        ∃ pre m w1,
          Mailboxes r = pre ++ m :: Mailboxes r'
          ∧ emitted r m = true
          ∧ write_lines resp_WriteTo
              (map (line RawString Format (Name r)) (List.filter (emitted r) pre)) w
            = (w1, None)
          ∧ resp_WriteTo (line RawString Format (Name r) m) w1 = (w', Some e)
    end.
Proof.
  unfold WriteTo.
  pose proof (WriteTo_loop_outcome r (Name r) (Mailboxes r) w) as H.
  destruct (WriteTo_loop _ _ _ r (Name r) (Mailboxes r) w) as [[rest w'] err].
  simpl. done.
Qed.

End Draining.

Section Decoding.
Context {Field Resp : Type}.
Variable ParseNamedResp : Resp -> string * list Field * bool.
Variable Parse : list Field -> MailboxInfo * option error.

Lemma Handle_decoded (r : List) (resp : Resp) :
  fst (Handle ParseNamedResp Parse r resp)
  = match decoded ParseNamedResp Parse r resp with
    | Some mbox => send r mbox
    | None => r
    end
  ∧ (snd (Handle ParseNamedResp Parse r resp) = None
     ↔ is_Some (decoded ParseNamedResp Parse r resp)).
Proof.
  unfold Handle, decoded. destruct (ParseNamedResp resp) as [[name fields] ok].
  destruct ok; simpl; [|split; [done|split; [done|by intros [? ?]]]].
  destruct (String.eqb name (Name r)); simpl;
    [|split; [done|split; [done|by intros [? ?]]]].
  destruct (Parse fields) as [mbox [e|]]; simpl.
  - split; [done|]. split; [done|by intros [? ?]].
  - split; [done|]. split; [by eexists|done].
Qed.

Lemma decoded_flags (r r' : List) (resp : Resp) :
  Subscribed r' = Subscribed r →
  decoded ParseNamedResp Parse r' resp = decoded ParseNamedResp Parse r resp.
Proof. intros H. unfold decoded, Name. by rewrite H. Qed.

(** Offering a sequence of response lines to [Handle], one after the
    other and whatever each call returns, queues exactly the records of
    the lines that are the handler's own and parse, in the order of the
    lines, behind the records already queued; a call returns [nil]
    exactly for those lines; the flags are never changed.  [WriteTo]
    then writes the lines of the queued records that pass the filter, in
    that order. *)
Theorem Handle_each_then_WriteTo {Writer : Type}
    (RawString : string -> Field) (Format : MailboxInfo -> list Field)
    (resp_WriteTo : list Field -> Writer -> Writer * option error)
    (r : List) (resps : list Resp) (w : Writer) :
  let r' := foldl (fun r0 resp => fst (Handle ParseNamedResp Parse r0 resp)) r resps in
  Mailboxes r' = Mailboxes r ++ omap (decoded ParseNamedResp Parse r) resps
  ∧ Subscribed r' = Subscribed r ∧ SpecialUse r' = SpecialUse r
  ∧ (∀ r0 resp, Subscribed r0 = Subscribed r →
       (snd (Handle ParseNamedResp Parse r0 resp) = None
        ↔ is_Some (decoded ParseNamedResp Parse r resp)))
  ∧ (let '(_, w', err) := WriteTo RawString Format resp_WriteTo r' w in (w', err))
    = write_lines resp_WriteTo
        (map (line RawString Format (Name r))
           (List.filter (emitted r)
              (Mailboxes r ++ omap (decoded ParseNamedResp Parse r) resps))) w.
Proof.
  intros r'.
  assert (Mailboxes r' = Mailboxes r ++ omap (decoded ParseNamedResp Parse r) resps
          ∧ Subscribed r' = Subscribed r ∧ SpecialUse r' = SpecialUse r)
    as (Hq & Hsub & Hsp).
  { subst r'. revert r. induction resps as [|resp resps IH]; intros r; simpl.
    - by rewrite app_nil_r.
    - destruct (Handle_decoded r resp) as [-> _].
      destruct (decoded ParseNamedResp Parse r resp) as [mbox|] eqn:Hd.
      + destruct (IH (send r mbox)) as (-> & -> & ->). simpl.
        rewrite <- app_assoc. simpl. repeat split.
      + apply IH. }
  split; [done|]. split; [done|]. split; [done|]. split.
  - intros r0 resp H0. rewrite <- (decoded_flags r r0 resp H0).
    apply Handle_decoded.
  - rewrite WriteTo_lines_of. rewrite Hq.
    assert (Name r' = Name r) as -> by (unfold Name; by rewrite Hsub).
    f_equal. f_equal. apply List.filter_ext. intros m. unfold emitted. by rewrite Hsp.
Qed.

End Decoding.

End ListingFurther.

(* ===================================================================== *)
(** * The transport: bytes in flight                                       *)
(* ===================================================================== *)

Section TransportFurther.
Variable E : Env.

(** *** Traffic *)

Lemma traffic_refl (s : nat) (t : Trace) : traffic s [] [] t t.
Proof. unfold traffic. by rewrite !app_nil_r. Qed.

Lemma traffic_trans (s : nat) (o1 o2 i1 i2 : list byte) (t1 t2 t3 : Trace) :
  traffic s o1 i1 t1 t2 → traffic s o2 i2 t2 t3 →
  traffic s (o1 ++ o2) (i1 ++ i2) t1 t3.
Proof.
  intros (Hd1 & Hr1 & Ho1) (Hd2 & Hr2 & Ho2). unfold traffic.
  rewrite Hd2, Hd1, Hr2, Hr1, !app_assoc. repeat split; try done.
  - destruct (Ho2 s' H) as [-> _]. by destruct (Ho1 s' H) as [-> _].
  - destruct (Ho2 s' H) as [_ ->]. by destruct (Ho1 s' H) as [_ ->].
Qed.

Lemma traffic_write (s : nat) (p : list byte) (r : write_res) (t : Trace) :
  traffic s (take (res_n r p) p) [] t (EvWrite s p r :: t).
Proof.
  unfold traffic. simpl. rewrite Nat.eqb_refl, app_nil_r.
  split; [done|]. split; [done|]. intros s' Hs'.
  apply Nat.eqb_neq in Hs'. by rewrite Hs'.
Qed.

Lemma traffic_read (s : nat) (data : list byte) (err : option error) (t : Trace) :
  traffic s [] data t (EvRead s data err :: t).
Proof.
  unfold traffic. simpl. rewrite Nat.eqb_refl, app_nil_r.
  split; [done|]. split; [done|]. intros s' Hs'.
  apply Nat.eqb_neq in Hs'. by rewrite Hs'.
Qed.

Lemma traffic_silent (s : nat) (ev : Event) (t : Trace) :
  (∀ s' p r, ev ≠ EvWrite s' p r) → (∀ s' d e, ev ≠ EvRead s' d e) →
  traffic s [] [] t (ev :: t).
Proof.
  intros Hw Hr. unfold traffic. rewrite !app_nil_r.
  destruct ev; simpl; try done.
  - by specialize (Hw s0 p r).
  - by specialize (Hr s0 data err).
Qed.

Lemma traffic_fields (s : nat) (t t' : Trace) :
  extends_with is_field_event t t' → traffic s [] [] t t'.
Proof.
  intros (new & -> & Hnew). induction Hnew as [|ev new Hev _ IH]; simpl.
  - apply traffic_refl.
  - change [] with (@nil byte ++ []).
    eapply traffic_trans; [exact IH|]. apply traffic_silent; by destruct ev.
Qed.

(** *** What the writer and the reader built by [init] move *)

Lemma io_Write_traffic (s : Stream) (l : option nat) (p : list byte) (t : Trace) :
  let '(t', (n, err)) := io_Write E (tap_wr s l) p t in
  (err = None ∨ ∀ k, l = Some k → ∀ h q, sink_write E k h q = WOk) →
  traffic (sid s) (take n p) [] t t'.
Proof.
  destruct l as [k|]; cbn [tap_wr io_Write multiWriter_Write leaf_Write];
    unfold stream_Write; [|intros _; apply traffic_write].
  destruct (stream_write E (sid s) _ p) as [|n0 e] eqn:Hs; cbn [res_n res_err].
  - rewrite Nat.eqb_refl. cbn [negb]. unfold sink_Write.
    destruct (sink_write E k _ p) as [|n1 e1] eqn:Hk; cbn [res_n res_err].
    + rewrite Nat.eqb_refl. cbn [negb]. intros _.
      change (take (length p) p) with (take (res_n WOk p) p).
      rewrite <- (app_nil_r (take _ p)). change (@nil byte) with (@nil byte ++ []) at 2.
      eapply traffic_trans; [apply traffic_write|]. by apply traffic_silent.
    + intros [?|Hok]; [done|]. by rewrite (Hok k eq_refl) in Hk.
  - intros _. apply (traffic_write (sid s) p (WErr n0 e)).
Qed.

(** One write through the writer built by [init]: the stream is handed
    all the bytes first, and takes at least what the call reports. *)
Lemma io_Write_took (s : Stream) (l : option nat) (p : list byte) (t : Trace) :
  let '(t', (n, err)) := io_Write E (tap_wr s l) p t in
  ∃ m r new,
    t' = new ++ EvWrite (sid s) p r :: t
    ∧ traffic (sid s) (take m p) [] t t'
    ∧ n ≤ m ∧ m ≤ length p
    ∧ ((∀ k, l = Some k → ∀ h q, sink_write E k h q = WOk) → m = n).
Proof.
  destruct l as [k|]; cbn [tap_wr io_Write multiWriter_Write leaf_Write];
    unfold stream_Write.
  - destruct (stream_write E (sid s) _ p) as [|n0 e] eqn:Hs; cbn [res_n res_err].
    + rewrite Nat.eqb_refl. cbn [negb]. unfold sink_Write.
      assert (∀ y, traffic (sid s) (take (length p) p) [] t
                     (EvSinkWrite k p y :: EvWrite (sid s) p WOk :: t)) as Htr.
      { intros y. change (take (length p) p) with (take (res_n WOk p) p).
        pose proof (traffic_trans (sid s) (take (res_n WOk p) p) [] [] [] t _
                      (EvSinkWrite k p y :: EvWrite (sid s) p WOk :: t)
                      (traffic_write (sid s) p WOk t)) as H.
        rewrite (app_nil_r (take _ p)) in H. apply H. by apply traffic_silent. }
      destruct (sink_write E k _ p) as [|n1 e1] eqn:Hk; cbn [res_n res_err].
      * rewrite Nat.eqb_refl. cbn [negb multiWriter_Write].
        exists (length p), WOk, [EvSinkWrite k p WOk].
        split; [done|]. split; [apply Htr|]. split; [done|]. by split.
      * exists (length p), WOk, [EvSinkWrite k p (WErr n1 e1)].
        split; [done|]. split; [apply Htr|]. split; [lia|]. split; [done|].
        intros Hok. by rewrite (Hok k eq_refl) in Hk.
    + exists (n0 `min` length p), (WErr n0 e), [].
      split; [done|]. split; [apply (traffic_write (sid s) p (WErr n0 e))|].
      split; [done|]. split; [lia|done].
  - exists (res_n (stream_write E (sid s) (history (on_stream (sid s)) t) p) p),
      (stream_write E (sid s) (history (on_stream (sid s)) t) p), [].
    split; [done|]. split; [apply traffic_write|].
    split; [done|]. split; [apply res_n_le|done].
Qed.

Lemma bw_Flush_traffic (s : Stream) (l : option nat) (b : BufWriter) (t : Trace) :
  bw_wr b = tap_wr s l →
  let '(b', t', err) := bw_Flush E b t in
  (err = None ∨ ∀ k, l = Some k → ∀ h q, sink_write E k h q = WOk) →
  ∃ out, traffic (sid s) out [] t t' ∧ bw_buf b = out ++ bw_buf b'.
Proof.
  intros Hwr. unfold bw_Flush.
  destruct (bw_err b); [intros _; exists []; split; [apply traffic_refl|done]|].
  destruct (length (bw_buf b) =? 0);
    [intros _; exists []; split; [apply traffic_refl|done]|].
  rewrite Hwr.
  pose proof (io_Write_traffic s l (bw_buf b) t) as Ht.
  pose proof (io_Write_count E (tap_wr s l) (bw_buf b) t) as Hc.
  destruct (io_Write E (tap_wr s l) (bw_buf b) t) as [t' [n [e|]]].
  - intros [?|Hok]; [done|]. exists (take n (bw_buf b)). split.
    + apply Ht. by right.
    + cbn. by rewrite take_drop.
  - destruct Hc as [_ Hn]. rewrite (Hn eq_refl), Nat.ltb_irrefl. intros _.
    exists (bw_buf b). split; [|cbn; by rewrite app_nil_r].
    rewrite (Hn eq_refl), firstn_all in Ht. apply Ht. by left.
Qed.

Lemma multiFlusher_Flush_traffic (s : Stream) (l : option nat) (fl : list flusher)
    (b : BufWriter) (t : Trace) :
  bw_wr b = tap_wr s l →
  let '((b', t'), err) := multiFlusher_Flush (flusher_Flush E) fl (b, t) in
  (err = None ∨ ∀ k, l = Some k → ∀ h q, sink_write E k h q = WOk) →
  ∃ out, traffic (sid s) out [] t t' ∧ bw_buf b = out ++ bw_buf b'.
Proof.
  revert b t. induction fl as [|f fl IH]; intros b t Hwr; cbn [multiFlusher_Flush].
  { intros _. exists []. split; [apply traffic_refl|done]. }
  assert (let '((b1, t1), err) := flusher_Flush E f (b, t) in
          bw_wr b1 = bw_wr b
          ∧ ((err = None ∨ ∀ k, l = Some k → ∀ h q, sink_write E k h q = WOk) →
             ∃ out, traffic (sid s) out [] t t1 ∧ bw_buf b = out ++ bw_buf b1)) as Hf.
  { destruct f as [|s1]; cbn [flusher_Flush fst snd].
    - pose proof (bw_Flush_traffic s l b t Hwr) as Ht.
      pose proof (bw_Flush_wr E b t) as Hw.
      by destruct (bw_Flush E b t) as [[b1 t1] err].
    - unfold stream_Flush. split; [done|]. intros _. exists [].
      split; [|done]. by apply traffic_silent. }
  destruct (flusher_Flush E f (b, t)) as [[b1 t1] [e|]]; destruct Hf as [Hw1 Hf];
    [done|].
  specialize (IH b1 t1). rewrite Hw1 in IH. specialize (IH Hwr).
  destruct (multiFlusher_Flush (flusher_Flush E) fl (b1, t1)) as [[b2 t2] err].
  intros Herr. destruct (IH Herr) as (o2 & Ht2 & Hb2).
  destruct Hf as (o1 & Ht1 & Hb1); [by left|].
  exists (o1 ++ o2). split.
  - change (@nil byte) with (@nil byte ++ []). by eapply traffic_trans.
  - by rewrite Hb1, Hb2, app_assoc.
Qed.

Lemma bw_Write_loop_traffic (s : Stream) (l : option nat) (fuel : nat)
    (b : BufWriter) (p : list byte) (nn : nat) (t : Trace) :
  bw_wr b = tap_wr s l →
  (∀ k, l = Some k → ∀ h q, sink_write E k h q = WOk) →
  let '(b', p', nn', t') := bw_Write_loop E fuel b p nn t in
  ∃ out k, traffic (sid s) out [] t t'
           ∧ bw_buf b ++ take k p = out ++ bw_buf b'
           ∧ p' = drop k p ∧ nn' = nn + k.
Proof.
  intros Hwr Hok. revert b p nn t Hwr.
  assert (∀ (b : BufWriter) (p : list byte) (nn : nat) (t : Trace),
            ∃ out k, traffic (sid s) out [] t t
                     ∧ bw_buf b ++ take k p = out ++ bw_buf b
                     ∧ p = drop k p ∧ nn = nn + k) as Hstop.
  { intros b p nn t. exists [], 0. rewrite take_0, app_nil_r.
    split; [apply traffic_refl|]. split; [done|]. split; [done|lia]. }
  induction fuel as [|fuel IH]; intros b p nn t Hwr; cbn [bw_Write_loop].
  { destruct (bw_Write_more b p); apply Hstop. }
  destruct (bw_Write_more b p); [|apply Hstop].
  destruct (length (bw_buf b) =? 0) eqn:Hl.
  - apply Nat.eqb_eq in Hl. apply nil_length_inv in Hl.
    rewrite Hwr.
    pose proof (io_Write_traffic s l p t) as Ht.
    destruct (io_Write E (tap_wr s l) p t) as [t1 [n err]].
    set (b1 := {| bw_err := err; bw_buf := bw_buf b; bw_wr := tap_wr s l |}).
    specialize (IH b1 (drop n p) (nn + n) t1 eq_refl).
    destruct (bw_Write_loop E fuel b1 (drop n p) (nn + n) t1) as [[[b2 p2] n2] t2].
    destruct IH as (o2 & k2 & Ht2 & Hb2 & -> & ->).
    exists (take n p ++ o2), (n + k2). split; [|split; [|split]].
    + change (@nil byte) with (@nil byte ++ []).
      eapply traffic_trans; [apply Ht; by right|done].
    + subst b1. cbn in Hb2. rewrite Hl in *. cbn in *.
      by rewrite <- take_take_drop, <- app_assoc, Hb2.
    + by rewrite drop_drop.
    + lia.
  - set (n := Available b `min` length p). clearbody n.
    set (b0 := {| bw_err := bw_err b; bw_buf := bw_buf b ++ take n p; bw_wr := bw_wr b |}).
    pose proof (bw_Flush_traffic s l b0 t Hwr) as Ht.
    pose proof (bw_Flush_wr E b0 t) as Hw0.
    destruct (bw_Flush E b0 t) as [[b1 t1] err]. cbn in Hw0.
    specialize (IH b1 (drop n p) (nn + n) t1).
    rewrite Hw0 in IH. specialize (IH Hwr).
    destruct (bw_Write_loop E fuel b1 (drop n p) (nn + n) t1) as [[[b2 p2] n2] t2].
    destruct IH as (o2 & k2 & Ht2 & Hb2 & -> & ->).
    destruct Ht as (o1 & Ht1 & Hb1); [by right|].
    unfold b0 in Hb1. cbn [bw_buf] in Hb1.
    exists (o1 ++ o2), (n + k2). split; [|split; [|split]].
    + change (@nil byte) with (@nil byte ++ []). by eapply traffic_trans.
    + rewrite <- take_take_drop, app_assoc, Hb1, <- !app_assoc. by rewrite Hb2.
    + by rewrite drop_drop.
    + lia.
Qed.

Lemma bw_Write_traffic (s : Stream) (l : option nat) (b : BufWriter)
    (p : list byte) (t : Trace) :
  bw_wr b = tap_wr s l →
  (∀ k, l = Some k → ∀ h q, sink_write E k h q = WOk) →
  let '(b', t', (n, _)) := bw_Write E b p t in
  ∃ out, traffic (sid s) out [] t t' ∧ bw_buf b ++ take n p = out ++ bw_buf b'.
Proof.
  intros Hwr Hok. unfold bw_Write.
  pose proof (bw_Write_loop_traffic s l 2 b p 0 t Hwr Hok) as Hl.
  destruct (bw_Write_loop E 2 b p 0 t) as [[[b1 p1] nn] t1].
  destruct Hl as (out & k & Ht & Hb & -> & ->). cbn [Nat.add].
  destruct (bw_err b1); exists out; (split; [done|]); [done|]. cbn.
  by rewrite <- take_take_drop, app_assoc, Hb, <- app_assoc.
Qed.

Lemma io_Read_traffic (s : Stream) (r : option nat) (n : nat) (t : Trace) :
  (∀ k, r = Some k → ∀ h q, sink_write E k h q = WOk) →
  let '(t', (data, _)) := io_Read E (tap_rd s r) n t in
  traffic (sid s) [] data t t'.
Proof.
  intros Hok. destruct r as [k|]; cbn [tap_rd io_Read]; unfold stream_Read;
    destruct (stream_read E (sid s) _ n) as [d e]; [|apply traffic_read].
  destruct (0 <? length (take n d)); [|apply traffic_read].
  unfold sink_Write. rewrite (Hok k eq_refl). cbn [res_err].
  pose proof (traffic_trans (sid s) [] [] (take n d) [] t _
                (EvSinkWrite k (take n d) WOk :: EvRead (sid s) (take n d) e :: t)
                (traffic_read (sid s) (take n d) e t)) as Ht.
  rewrite (app_nil_r (take n d)) in Ht. apply Ht. by apply traffic_silent.
Qed.

Lemma br_Read_traffic (s : Stream) (r : option nat) (b : BufReader) (n : nat)
    (t : Trace) :
  br_rd b = tap_rd s r →
  (∀ k, r = Some k → ∀ h q, sink_write E k h q = WOk) →
  let '(b', t', (data, _)) := br_Read E b n t in
  ∃ inp, traffic (sid s) [] inp t t' ∧ br_buf b ++ inp = data ++ br_buf b'.
Proof.
  intros Hrd Hok. unfold br_Read.
  assert (∃ inp, traffic (sid s) [] inp t t ∧ br_buf b ++ inp = [] ++ br_buf b)
    as Hnone.
  { exists []. split; [apply traffic_refl|by rewrite app_nil_r]. }
  assert (∃ inp, traffic (sid s) [] inp t t
                 ∧ br_buf b ++ inp = take n (br_buf b) ++ drop n (br_buf b))
    as Hcopy.
  { exists []. split; [apply traffic_refl|by rewrite app_nil_r, take_drop]. }
  destruct (n =? 0).
  { by destruct (0 <? length (br_buf b)). }
  destruct (length (br_buf b) =? 0) eqn:Hl; [|done].
  apply Nat.eqb_eq in Hl. apply nil_length_inv in Hl.
  destruct (br_err b); [done|]. rewrite Hrd, Hl.
  destruct (defaultBufSize <=? n).
  - pose proof (io_Read_traffic s r n t Hok) as Ht.
    destruct (io_Read E (tap_rd s r) n t) as [t' [data err]].
    exists data. cbn. by rewrite app_nil_r.
  - pose proof (io_Read_traffic s r defaultBufSize t Hok) as Ht.
    destruct (io_Read E (tap_rd s r) defaultBufSize t) as [t' [data err]].
    destruct (length data =? 0); exists data; cbn; [done|].
    by rewrite take_drop.
Qed.

(** *** The shape of a connection between calls *)

Lemma init_shape (c : Conn) (t : Trace) :
  (bw c = None ∨ slot_shape (Writer_Writer c)) →
  (∃ l r, tapped_conn (net_Conn c) l r (fst (init E c t)))
  ∧ net_Conn (fst (init E c t)) = net_Conn c
  ∧ waits (fst (init E c t)) = waits c
  ∧ slot_shape (Writer_Writer (fst (init E c t)))
  ∧ pending_output (fst (init E c t)) = []
  ∧ unread_input (fst (init E c t)) = []
  ∧ write_error (fst (init E c t)) = None
  ∧ extends_with is_field_event t (snd (init E c t)).
Proof.
  intros Hw. unfold init.
  set (wiring := match debug c with None => _ | Some d => _ end).
  assert (∃ d' l r t', wiring = (d', tap_rd (net_Conn c) r, tap_wr (net_Conn c) l, t')
                       ∧ extends_with is_field_event t t')
    as (d' & l & r & t' & -> & Hext).
  { subst wiring. destruct (debug c) as [d|].
    - pose proof (debug_sinks_extends E (net_Conn c) d t) as Hext.
      destruct (debug_sinks E (net_Conn c) d t) as [[[d' l] r] t'].
      by eexists _, l, r, _.
    - exists None, None, None, t. split; [done|apply extends_with_refl]. }
  assert (slot_shape
            (if flushable (net_Conn c)
             then SlotFlusher (newMultiFlusher [FlushBuf; FlushStream (net_Conn c)])
             else match bw c with None => SlotBuf | Some _ => Writer_Writer c end))
    as Hslot.
  { destruct (flushable (net_Conn c)) eqn:Hf.
    - right. by exists (net_Conn c).
    - destruct (bw c); [by destruct Hw|by left]. }
  unfold tapped_conn, pending_output, unread_input, write_error.
  destruct (br c) as [b|], (bw c) as [w|]; cbn;
    (split; [exists l, r; split; [done|split; intros ? [= <-]; done]|]);
    repeat split; done.
Qed.

Lemma reachable_shape (c : Conn) (t : Trace) :
  reachable E c t →
  (∃ l r, tapped_conn (net_Conn c) l r c)
  ∧ waits c ≠ Some ChanOpen
  ∧ slot_shape (Writer_Writer c).
Proof.
  induction 1 as [s t|c c' t t' op out _ IH Hstep|c t w _ IH
                  |c c' t t' upgrader err _ IH Hup].
  - unfold NewConn. set (c0 := {| net_Conn := s; br := None |}).
    destruct (init_shape c0 t) as (Htap & Hnet & Hwaits & Hslot & _); [by left|].
    rewrite Hnet, Hwaits. done.
  - apply step_frame in Hstep as [Hw _].
    destruct IH as ((l & r & Htap) & Hwaits & Hslot).
    pose proof (tapped_conn_wiring _ l r c c' Hw Htap) as Htap'.
    destruct Hw as (Hconn & _ & Hws & Hwt & _).
    rewrite Hconn, Hws, Hwt. split; [by exists l, r|done].
  - destruct IH as (_ & Hwaits & Hslot). unfold SetDebug.
    destruct (init_shape (set_debug c w) t) as (Htap & Hnet & Hwt & Hslot' & _);
      [by right|].
    rewrite Hnet, Hwt. done.
  - destruct IH as ((l & r & Htap) & Hwaits & Hslot).
    unfold Upgrade in Hup.
    destruct (Flush E c t) as [[[c1 t1] [e|]]|] eqn:Hf; [| |done];
      destruct (Flush_fields E _ _ _ _ _ Hf)
        as (Hconn & Hrs & Hws & Hbr & Hwt & Hdbg & Hbw);
      assert (same_wiring c c1) as Hsame
        by (unfold same_wiring; by rewrite Hbr);
      pose proof (tapped_conn_wiring _ l r c c1 Hsame Htap) as Htap1.
    + injection Hup as <- <- <-. rewrite Hconn, Hws, Hwt.
      split; [by exists l, r|done].
    + cbn [net_Conn set_waits] in Hup.
      destruct (upgrader _ _) as [t3 [upgraded|e]].
      * set (c2 := set_net_Conn (set_waits c1 (Some ChanOpen)) upgraded) in Hup.
        destruct (init_shape c2 t3) as ((l' & r' & Htap') & Hnet & _ & Hslot' & _).
        { right. subst c2. cbn. by rewrite Hws. }
        destruct (init E c2 t3) as [c3 t4]. injection Hup as <- <- <-.
        cbn in *. split; [|done]. rewrite Hnet. by exists l', r'.
      * injection Hup as <- <- <-. cbn. rewrite Hconn, Hws.
        split; [by exists l, r|done].
Qed.

Lemma run_reachable (ops : list Op) (c c' : Conn) (t t' : Trace) (outs : list Out) :
  reachable E c t → run E ops c t = Some (c', t', outs) → reachable E c' t'.
Proof.
  revert c t outs. induction ops as [|op ops IH]; intros c t outs Hr; simpl.
  - by intros [= <- <- <-].
  - destruct (step E op c t) as [[[c1 t1] out]|] eqn:Hs; [|done].
    destruct (run E ops c1 t1) as [[[c2 t2] outs']|] eqn:Hrun; [|done].
    intros [= <- <- <-]. eapply IH; [|exact Hrun]. by eapply reach_step.
Qed.

(** The sinks of a connection are those its taps name. *)
Lemma conn_sinks_tapped (c : Conn) (l r : option nat) :
  tapped_conn (net_Conn c) l r c → bound_to (net_Conn c) c →
  conn_sinks_ok E c → sinks_ok E l r.
Proof.
  intros (_ & Hbw & Hbr) (b & rb & Hb & Hr & _) Hok k Hk.
  apply Hok. unfold conn_sinks. rewrite Hb, Hr. cbn.
  rewrite (Hbw b Hb), (Hbr rb Hr). apply elem_of_app.
  destruct Hk as [->| ->]; [left|right]; cbn; apply list_elem_of_singleton; done.
Qed.

Lemma conn_sinks_wiring (c c' : Conn) :
  same_wiring c c' → conn_sinks_ok E c → conn_sinks_ok E c'.
Proof.
  intros (_ & _ & _ & _ & _ & Hw & Hr) Hok k Hk. apply Hok.
  unfold conn_sinks in *.
  destruct (bw c), (bw c'), (br c), (br c'); simplify_eq/=; congruence.
Qed.

(** *** What the calls on the connection move *)

Lemma Flush_traffic (c c' : Conn) (t t' : Trace) (err : option error)
    (l r : option nat) :
  tapped_conn (net_Conn c) l r c →
  Flush E c t = Some (c', t', err) →
  (err = None ∨ ∀ k, l = Some k → ∀ h q, sink_write E k h q = WOk) →
  ∃ out, traffic (sid (net_Conn c)) out [] t t'
         ∧ pending_output c = out ++ pending_output c'
         ∧ unread_input c' = unread_input c
         ∧ net_Conn c' = net_Conn c.
Proof.
  intros (_ & Hbw & _). unfold Flush, Writer_Flush, pending_output, unread_input.
  destruct (Writer_Writer c) as [| |fl].
  - intros [= <- <- <-] _. exists []. split; [apply traffic_refl|done].
  - destruct (bw c) as [b|]; [|done].
    pose proof (bw_Flush_traffic (net_Conn c) l b t (Hbw b eq_refl)) as Ht.
    destruct (bw_Flush E b t) as [[b' t1] [e|]]; intros [= <- <- <-] Herr;
      destruct (Ht Herr) as (out & Htr & Hbuf); by exists out.
  - destruct (bw c) as [b|]; [|done].
    pose proof (multiFlusher_Flush_traffic (net_Conn c) l fl b t (Hbw b eq_refl)) as Ht.
    destruct (multiFlusher_Flush _ fl (b, t)) as [[b' t1] [e|]];
      intros [= <- <- <-] Herr;
      destruct (Ht Herr) as (out & Htr & Hbuf); by exists out.
Qed.

Lemma Flush_ok_empty (c c' : Conn) (t t' : Trace) :
  slot_shape (Writer_Writer c) → Flush E c t = Some (c', t', None) →
  pending_output c' = []
  ∧ ∀ s1, Writer_Writer c = SlotFlusher [FlushBuf; FlushStream s1] →
          ∃ t1, t' = EvFlush (sid s1) None :: t1.
Proof.
  unfold Flush, Writer_Flush, pending_output.
  intros [Hs|(s1 & Hfl & Hs)]; rewrite Hs; destruct (bw c) as [b|]; try done.
  - pose proof (bw_Flush_after E b t) as Ha.
    destruct (bw_Flush E b t) as [[b' t1] [e|]]; [done|].
    intros [= <- <-]. cbn. destruct Ha as [_ Ha]. split; [by apply Ha|done].
  - cbn [multiFlusher_Flush flusher_Flush fst snd].
    pose proof (bw_Flush_after E b t) as Ha.
    destruct (bw_Flush E b t) as [[b' t1] [e|]]; [done|].
    unfold stream_Flush. destruct (stream_flush E (sid s1) _) as [e|]; [done|].
    intros [= <- <-]. cbn. destruct Ha as [_ Ha]. split; [by apply Ha|].
    intros s2 [= <-]. by eexists.
Qed.

Lemma step_traffic (op : Op) (c c' : Conn) (t t' : Trace) (o : Out)
    (l r : option nat) :
  tapped_conn (net_Conn c) l r c → sinks_ok E l r →
  step E op c t = Some (c', t', o) →
  ∃ out inp,
    traffic (sid (net_Conn c)) out inp t t'
    ∧ pending_output c
        ++ match op, o with OpWrite p, OutWrite n _ => take n p | _, _ => [] end
      = out ++ pending_output c'
    ∧ unread_input c ++ inp
      = match o with OutRead data _ => data | _ => [] end ++ unread_input c'.
Proof.
  intros Htap Hok.
  assert (∀ k, l = Some k → ∀ h q, sink_write E k h q = WOk) as Hl
    by (intros k ->; apply Hok; by left).
  assert (∀ k, r = Some k → ∀ h q, sink_write E k h q = WOk) as Hr
    by (intros k ->; apply Hok; by right).
  destruct op as [p| |n]; cbn [step].
  - unfold Write.
    assert (∀ b, bw c = Some b →
              let '(b', t1, res) := bw_Write E b p t in
              Some (set_bw c b', t1, OutWrite res.1 res.2) = Some (c', t', o) →
              ∃ out inp,
                traffic (sid (net_Conn c)) out inp t t'
                ∧ pending_output c
                    ++ match o with OutWrite n _ => take n p | _ => [] end
                  = out ++ pending_output c'
                ∧ unread_input c ++ inp
                  = match o with OutRead data _ => data | _ => [] end
                    ++ unread_input c') as Hb.
    { intros b Hb. destruct Htap as (_ & Hbw & _).
      pose proof (bw_Write_traffic (net_Conn c) l b p t (Hbw b Hb) Hl) as Ht.
      destruct (bw_Write E b p t) as [[b' t1] [n e]].
      destruct Ht as (out & Htr & Hbuf). intros [= <- <- <-].
      exists out, []. unfold pending_output, unread_input. cbn. rewrite Hb. cbn.
      by rewrite app_nil_r. }
    destruct (Writer_Writer c), (bw c) as [b|]; try done;
      specialize (Hb b eq_refl);
      destruct (bw_Write E b p t) as [[b' t1] [k err]]; exact Hb.
  - destruct (Flush E c t) as [[[c1 t1] err]|] eqn:Hf; [|done].
    intros [= <- <- <-].
    destruct (Flush_traffic c c1 t t1 err l r Htap Hf) as (out & Htr & Hp & Hu & _);
      [by right|].
    exists out, []. by rewrite !app_nil_r, Hu.
  - unfold Reader_Read. destruct (Reader_reader c); [done|].
    destruct (br c) as [b|] eqn:Hb; [|done].
    destruct Htap as (_ & _ & Hbr).
    pose proof (br_Read_traffic (net_Conn c) r b n t (Hbr b Hb) Hr) as Ht.
    destruct (br_Read E b n t) as [[b' t1] [data err]].
    destruct Ht as (inp & Htr & Hbuf). intros [= <- <- <-].
    exists [], inp. unfold pending_output, unread_input. cbn. rewrite Hb. cbn.
    by rewrite app_nil_r.
Qed.

Lemma run_traffic (ops : list Op) (c c' : Conn) (t t' : Trace) (outs : list Out)
    (l r : option nat) :
  tapped_conn (net_Conn c) l r c → sinks_ok E l r →
  run E ops c t = Some (c', t', outs) →
  ∃ out inp,
    traffic (sid (net_Conn c)) out inp t t'
    ∧ pending_output c ++ accepted ops outs = out ++ pending_output c'
    ∧ unread_input c ++ inp = consumed outs ++ unread_input c'.
Proof.
  intros Htap Hok. revert c t outs Htap.
  induction ops as [|op ops IH]; intros c t outs Htap; simpl.
  - intros [= <- <- <-]. exists [], []. split; [apply traffic_refl|].
    by rewrite !app_nil_r.
  - destruct (step E op c t) as [[[c1 t1] o]|] eqn:Hs; [|done].
    destruct (run E ops c1 t1) as [[[c2 t2] outs']|] eqn:Hrun; [|done].
    intros [= <- <- <-].
    destruct (step_traffic _ _ _ _ _ _ l r Htap Hok Hs) as (o1 & i1 & Ht1 & Hp1 & Hu1).
    apply step_frame in Hs as [Hw _].
    pose proof (tapped_conn_wiring _ l r c c1 Hw Htap) as Htap1.
    destruct Hw as (Hconn & _). rewrite <- Hconn in *.
    destruct (IH c1 t1 outs' Htap1 Hrun) as (o2 & i2 & Ht2 & Hp2 & Hu2).
    exists (o1 ++ o2), (i1 ++ i2). split; [by eapply traffic_trans|]. split.
    + transitivity
        ((pending_output c
          ++ match op, o with OpWrite p, OutWrite n _ => take n p | _, _ => [] end)
         ++ accepted ops outs').
      { rewrite <- app_assoc. f_equal. by destruct op, o. }
      by rewrite Hp1, <- !app_assoc, Hp2.
    + transitivity
        (match o with OutRead data _ => data | _ => [] end
         ++ (unread_input c1 ++ i2)).
      { by rewrite !app_assoc, Hu1. }
      rewrite Hu2, app_assoc. f_equal. by destruct o.
Qed.

(** *** Between calls *)

(** The wait channel is open only while [Upgrade] runs the upgrader:
    on a connection made by [NewConn] and driven by writes, flushes,
    reads, [SetDebug] and [Upgrade], a call of [Wait] made between two
    calls returns at once. *)
Theorem Wait_returns_between_calls (c : Conn) (t : Trace) :
  reachable E c t → Wait c = true.
Proof.
  intros H. apply reachable_shape in H as (_ & Hw & _). unfold Wait.
  by destruct (waits c) as [[|]|].
Qed.

(** Conservation of bytes.  Over any session of writes, flushes and
    reads on a connection whose diagnostic sinks take every write, the
    current stream takes some bytes [out] and hands out some bytes
    [inp], no other stream takes or hands out any, and nothing is lost,
    duplicated or reordered on the way through the buffers: the bytes
    that were pending followed by the bytes the writes accepted are the
    bytes the stream took followed by the bytes still pending, and the
    bytes that were unread followed by the bytes the stream handed out
    are the bytes the reads returned followed by the bytes still
    unread. *)
Theorem session_conserves_bytes (c c' : Conn) (t t' : Trace) (ops : list Op)
    (outs : list Out) :
  reachable E c t → conn_sinks_ok E c →
  run E ops c t = Some (c', t', outs) →
  ∃ out inp,
    traffic (sid (net_Conn c)) out inp t t'
    ∧ pending_output c ++ accepted ops outs = out ++ pending_output c'
    ∧ unread_input c ++ inp = consumed outs ++ unread_input c'.
Proof.
  intros Hreach Hok Hrun.
  destruct (reachable_shape c t Hreach) as ((l & r & Htap) & _).
  eapply run_traffic; [exact Htap| |exact Hrun].
  eapply conn_sinks_tapped; [exact Htap| |exact Hok].
  by eapply reachable_bound.
Qed.

(** When [Flush] returns [nil], every byte that was pending has been
    taken by the current stream, in order, and nothing is pending any
    more; no other stream took a byte and nothing was read.  When the
    current stream has a [Flush] method of its own, the last thing that
    happened is that stream's [Flush] returning [nil]. *)
Theorem Flush_delivers_pending (c c' : Conn) (t t' : Trace) :
  reachable E c t → Flush E c t = Some (c', t', None) →
  pending_output c' = []
  ∧ traffic (sid (net_Conn c)) (pending_output c) [] t t'
  ∧ unread_input c' = unread_input c
  ∧ (flushable (net_Conn c) = true →
     ∃ t1, t' = EvFlush (sid (net_Conn c)) None :: t1).
Proof.
  intros Hreach Hf.
  destruct (reachable_shape c t Hreach) as ((l & r & Htap) & _ & Hslot).
  destruct (Flush_ok_empty c c' t t' Hslot Hf) as [Hempty Hlast].
  destruct (Flush_traffic c c' t t' None l r Htap Hf) as (out & Htr & Hp & Hu & _);
    [by left|].
  rewrite Hempty, app_nil_r in Hp. subst out.
  split; [done|]. split; [done|]. split; [done|].
  intros Hfl. apply Hlast.
  rewrite (reachable_flush_strategy E c t Hreach Hfl).
  unfold flush_strategy. by rewrite Hfl.
Qed.

(** Once the buffered writer has recorded a write error, the
    connection stays failed: every [Write] takes nothing and returns
    that error, [Flush] returns it without calling the stream, and so
    does [Upgrade], which therefore never reaches the upgrader; none of
    them changes the connection or the world.  Only the
    re-initialisation done by [SetDebug] clears the error. *)
Theorem write_error_is_sticky (c : Conn) (t : Trace) (e : error) :
  reachable E c t → write_error c = Some e →
  (∀ p, Write E c p t = Some (c, t, (0, Some e)))
  ∧ Flush E c t = Some (c, t, Some e)
  ∧ (∀ upgrader, Upgrade E upgrader c t = Some (c, t, Some e))
  ∧ (∀ w, write_error (fst (SetDebug E w c t)) = None).
Proof.
  intros Hreach Herr.
  destruct (reachable_shape c t Hreach) as (_ & _ & Hslot).
  unfold write_error in Herr. destruct (bw c) as [b|] eqn:Hb; [|done].
  cbn in Herr.
  assert (set_bw c b = c) as Hset by (destruct c; cbn in *; by subst).
  assert (bw_Flush E b t = (b, t, Some e)) as Hbf
    by (unfold bw_Flush; by rewrite Herr).
  assert (Flush E c t = Some (c, t, Some e)) as Hflush.
  { unfold Flush, Writer_Flush. rewrite Hb.
    destruct Hslot as [->|(s1 & _ & ->)].
    - by rewrite Hbf, Hset.
    - cbn [multiFlusher_Flush flusher_Flush fst snd]. by rewrite Hbf, Hset. }
  split; [|split; [done|split]].
  - intros p.
    assert (bw_Write E b p t = (b, t, (0, Some e))) as Hbw.
    { unfold bw_Write. cbn [bw_Write_loop].
      assert (bw_Write_more b p = false) as ->.
      { unfold bw_Write_more. rewrite Herr. apply andb_false_r. }
      by rewrite Herr. }
    unfold Write. rewrite Hb.
    destruct Hslot as [->|(s1 & _ & ->)]; by rewrite Hbw, Hset.
  - intros upgrader. unfold Upgrade. by rewrite Hflush.
  - intros w. unfold SetDebug.
    destruct (init_shape (set_debug c w) t) as (_ & _ & _ & _ & _ & _ & H & _);
      [by right|done].
Qed.

(** A successful [Upgrade] first hands every pending byte to the old
    stream, and only then calls the upgrader; after the upgrader has
    returned, nothing more happens on any stream.  The connection is
    left on the new stream with an empty write buffer, no write error,
    and an empty read buffer: input that had been read ahead from the
    old stream is dropped. *)
Theorem Upgrade_flushes_then_switches (upgrader : ConnUpgrader) (c c' : Conn)
    (t t' : Trace) :
  reachable E c t → Upgrade E upgrader c t = Some (c', t', None) →
  ∃ t1 t3 t4 upgraded,
    traffic (sid (net_Conn c)) (pending_output c) [] t t1
    ∧ upgrader (net_Conn c) (EvUpgrader (sid (net_Conn c)) :: EvGateOpen :: t1)
      = (t3, inl upgraded)
    ∧ extends_with is_field_event t3 t4
    ∧ t' = EvGateClose :: t4
    ∧ net_Conn c' = upgraded
    ∧ pending_output c' = [] ∧ unread_input c' = [] ∧ write_error c' = None.
Proof.
  intros Hreach Hup.
  destruct (reachable_shape c t Hreach) as ((l & r & Htap) & _ & Hslot).
  unfold Upgrade in Hup.
  destruct (Flush E c t) as [[[c1 t1] [e|]]|] eqn:Hf; [done| |done].
  destruct (Flush_fields E _ _ _ _ _ Hf) as (Hconn & _ & Hws & _).
  destruct (Flush_ok_empty c c1 t t1 Hslot Hf) as [Hempty _].
  destruct (Flush_traffic c c1 t t1 None l r Htap Hf) as (out & Htr & Hp & _);
    [by left|].
  rewrite Hempty, app_nil_r in Hp. subst out.
  cbn [net_Conn set_waits] in Hup. rewrite Hconn in Hup.
  destruct (upgrader _ _) as [t3 [upgraded|e]] eqn:Hu; [|done].
  set (c2 := set_net_Conn (set_waits c1 (Some ChanOpen)) upgraded) in Hup.
  destruct (init_shape c2 t3) as (_ & Hnet & _ & _ & Hpo & Hui & Hwe & Hext).
  { right. subst c2. cbn. by rewrite Hws. }
  destruct (init E c2 t3) as [c3 t4]. injection Hup as <- <-.
  exists t1, t3, t4, upgraded. cbn in *. done.
Qed.

(** [SetDebug] does not flush.  It leaves the connection with an empty
    write buffer and an empty read buffer, whatever they held, and no
    write error, and it talks to the field-tagged sinks only: no stream
    takes or hands out a byte.  Bytes accepted by [Write] and not yet
    flushed when [SetDebug] is called therefore never reach the
    stream, and input read ahead is never returned. *)
Theorem SetDebug_discards_buffers (w : option Debug) (c : Conn) (t : Trace) :
  pending_output (fst (SetDebug E w c t)) = []
  ∧ unread_input (fst (SetDebug E w c t)) = []
  ∧ write_error (fst (SetDebug E w c t)) = None
  ∧ net_Conn (fst (SetDebug E w c t)) = net_Conn c
  ∧ extends_with is_field_event t (snd (SetDebug E w c t))
  ∧ (∀ s, traffic s [] [] t (snd (SetDebug E w c t)))
  ∧ (debug c = None → w = None → snd (SetDebug E w c t) = t).
Proof.
  unfold SetDebug, init. cbn [debug set_debug net_Conn br bw].
  set (wiring := match w with None => _ | Some d => _ end).
  assert (∃ d' rd wr t', wiring = (d', rd, wr, t')
                         ∧ extends_with is_field_event t t'
                         ∧ (w = None → t' = t))
    as (d' & rd & wr & t' & -> & Hext & Hnone).
  { subst wiring. destruct w as [d|].
    - pose proof (debug_sinks_extends E (net_Conn c) d t) as Hext.
      destruct (debug_sinks E (net_Conn c) d t) as [[[d' l] r] t'].
      by eexists _, _, _, _.
    - eexists _, _, _, _. split; [done|]. split; [apply extends_with_refl|done]. }
  unfold pending_output, unread_input, write_error.
  destruct (br c) as [b|], (bw c) as [b'|]; cbn;
    (split; [done|]); (split; [done|]); (split; [done|]); (split; [done|]);
    (split; [done|]); (split; [intros s; by apply traffic_fields|auto]).
Qed.

(** [Write] reaches the stream only when the bytes do not fit.  With
    no write error recorded, a write that fits in what is left of the
    4096-byte buffer is accepted in full and only buffered: nothing
    happens in the world.  A write of more than 4096 bytes on an empty
    buffer is handed to the stream at once and whole, in one write of
    the stream, before anything else happens, and the buffer is still
    empty afterwards.  The stream took at least the bytes the call
    reports as accepted, and exactly those when the diagnostic sinks of
    the connection take every write; a call that returns [nil] reports
    all the bytes. *)
Theorem Write_buffering (c : Conn) (t : Trace) (p : list byte) :
  reachable E c t → write_error c = None →
  (length (pending_output c) + length p ≤ defaultBufSize →
   ∃ c', Write E c p t = Some (c', t, (length p, None))
         ∧ pending_output c' = pending_output c ++ p
         ∧ same_wiring c c' ∧ unread_input c' = unread_input c)
  ∧ (pending_output c = [] → defaultBufSize < length p →
     ∃ c' t' n err m r new,
       Write E c p t = Some (c', t', (n, err))
       ∧ t' = new ++ EvWrite (sid (net_Conn c)) p r :: t
       ∧ traffic (sid (net_Conn c)) (take m p) [] t t'
       ∧ n ≤ m ∧ m ≤ length p
       ∧ pending_output c' = []
       ∧ (err = None → n = length p)
       ∧ (conn_sinks_ok E c → m = n)).
Proof.
  intros Hreach Herr.
  pose proof (reachable_bound E c t Hreach) as Hbound.
  destruct (reachable_shape c t Hreach) as ((l & r & Htap) & _ & Hslot).
  pose proof Hbound as (b & rb & Hb & Hrb & _ & _ & Hs & _).
  unfold write_error in Herr. rewrite Hb in Herr. cbn in Herr.
  unfold pending_output, unread_input. rewrite Hb. cbn [from_option].
  assert (Write E c p t
          = let '(b', t', res) := bw_Write E b p t in Some (set_bw c b', t', res))
    as HW.
  { unfold Write. rewrite Hb. destruct (Writer_Writer c); [by destruct Hs|done|done]. }
  split.
  - intros Hfit.
    assert (bw_Write_more b p = false) as Hmore.
    { unfold bw_Write_more, Available. apply andb_false_iff. left.
      apply Nat.ltb_ge. lia. }
    exists (set_bw c {| bw_err := None; bw_buf := bw_buf b ++ p; bw_wr := bw_wr b |}).
    rewrite HW. unfold bw_Write. cbn [bw_Write_loop]. rewrite Hmore, Herr.
    assert (Available b `min` length p = length p) as ->
      by (unfold Available; lia).
    rewrite firstn_all. cbn [Nat.add].
    split; [done|]. cbn. split; [done|]. split; [|done].
    unfold same_wiring. cbn. rewrite Hb. done.
  - intros Hbuf Hlarge. rewrite HW. unfold bw_Write. cbn [bw_Write_loop].
    assert (bw_Write_more b p = true) as ->.
    { unfold bw_Write_more, Available. rewrite Hbuf, Herr.
      apply andb_true_iff. split; [|by apply bool_decide_eq_true].
      apply Nat.ltb_lt. cbn [length]. lia. }
    rewrite Hbuf. cbn [length Nat.eqb].
    pose proof Htap as (_ & Hbw & _). rewrite (Hbw b Hb).
    pose proof (io_Write_took (net_Conn c) l p t) as Ht.
    pose proof (io_Write_count E (tap_wr (net_Conn c) l) p t) as Hc.
    destruct (io_Write E (tap_wr (net_Conn c) l) p t) as [t1 [n err]].
    destruct Ht as (m & r0 & new & Ht1 & Htr & Hnm & Hm & Hexact).
    destruct Hc as [Hle Hfull].
    assert (conn_sinks_ok E c → m = n) as Hsinks.
    { intros Hok. apply Hexact. intros k ->.
      by eapply (conn_sinks_tapped c (Some k) r);
        [exact Htap|exact Hbound|exact Hok|left]. }
    destruct err as [e|].
    + assert (∀ q, bw_Write_more
                {| bw_err := Some e; bw_buf := []; bw_wr := tap_wr (net_Conn c) l |} q
              = false) as ->
        by (intros q; unfold bw_Write_more; cbn; apply andb_false_r).
      cbn [bw_err]. eexists _, _, _, _, m, r0, new. split; [done|]. cbn.
      split; [done|]. split; [done|]. split; [done|]. split; [done|].
      split; [done|]. by split.
    + rewrite (Hfull eq_refl), drop_all.
      assert (bw_Write_more
                {| bw_err := None; bw_buf := []; bw_wr := tap_wr (net_Conn c) l |} []
              = false) as ->
        by (unfold bw_Write_more; apply andb_false_iff; left;
            apply Nat.ltb_ge; cbn [length]; lia).
      cbn [bw_err bw_buf bw_wr length]. rewrite Nat.min_0_r.
      eexists _, _, _, _, m, r0, new. split; [done|]. cbn.
      rewrite Nat.add_0_r. pose proof (Hfull eq_refl) as Hn.
      split; [done|]. split; [done|]. split; [lia|]. split; [done|].
      split; [done|]. split; [done|]. intros Hok. rewrite (Hsinks Hok). done.
Qed.

(** A debug value made by [NewDebugWithFields] and installed by
    [SetDebug], the two sinks being different objects.  Each sink that
    is not [nil] has ["loc"] and then ["rem"] set on it (each when the
    stream has that address) before its [Writer] is called, and that is
    all that happens to it; the writer that call returns is the sink the
    connection copies to: the local one under the buffered writer, the
    remote one under the buffered reader.  A side whose sink is [nil], or
    whose [Writer] returns [nil], is left on the bare stream.  The
    embedded [Writer] of the debug value ends up being the local sink. *)
Theorem fields_set_before_sinks_taken (local remote : option nat) (c : Conn)
    (t : Trace) :
  (∀ lf rf, local = Some lf → remote = Some rf → lf ≠ rf) →
  let '(d, t0) := NewDebugWithFields E local remote t in
  let '(c', t') := SetDebug E (Some d) c t0 in
  let localDebug :=
    lf ← local;
    fields_Writer E lf (address_tags (net_Conn c) lf ++ history (on_fields lf) t0) in
  let remoteDebug :=
    rf ← remote;
    fields_Writer E rf (address_tags (net_Conn c) rf ++ history (on_fields rf) t0) in
  d = DebugWithFields (lf ← local; fields_Writer E lf (history (on_fields lf) t))
        local remote
  ∧ debug c' = Some (DebugWithFields localDebug local remote)
  ∧ (bw_wr <$> bw c') = Some (tap_wr (net_Conn c) localDebug)
  ∧ (br_rd <$> br c') = Some (tap_rd (net_Conn c) remoteDebug)
  ∧ (∀ fs, local = Some fs ∨ remote = Some fs →
       history (on_fields fs) t'
       = EvWriterOf fs :: address_tags (net_Conn c) fs ++ history (on_fields fs) t0).
Proof.
  intros Hneq. unfold NewDebugWithFields, SetDebug, init, address_tags.
  cbv zeta. cbn [debug set_debug net_Conn br bw Reader_reader Writer_Writer waits].
  assert (∀ lf rf, local = Some lf → remote = Some rf →
            Nat.eqb lf rf = false ∧ Nat.eqb rf lf = false) as Hneqb.
  { intros lf rf Hl Hr. specialize (Hneq lf rf Hl Hr).
    split; apply Nat.eqb_neq; congruence. }
  destruct local as [lf|], remote as [rf|];
    try (destruct (Hneqb lf rf eq_refl eq_refl) as [Hlr Hrl]);
    destruct (LocalAddr (net_Conn c)) as [la|] eqn:Hla,
             (RemoteAddr (net_Conn c)) as [ra|] eqn:Hra;
    destruct (br c) as [b|], (bw c) as [w|];
    cbn; rewrite ?Hla, ?Hra; unfold history; cbn;
    rewrite ?Nat.eqb_refl, ?Hlr, ?Hrl; cbn;
    (split; [done|split; [done|split; [done|split; [done|]]]]);
    intros fs [[= <-]|[= <-]]; cbn; rewrite ?Nat.eqb_refl, ?Hlr, ?Hrl; done.
Qed.

(** [SetDebug] with a debug value that carries no fields (a
    [debugWriter], any other writer, or [nil]) touches nothing in the
    world, and calling it again with the same value changes nothing
    more.  A [debugWriter] taps each direction with its own sink and
    leaves a direction whose sink is [nil] on the bare stream; with
    both sinks [nil] the buffers are wired as with no debug value at
    all.  Any other writer receives both directions. *)
Theorem SetDebug_without_fields (w : option Debug) (c : Conn) (t : Trace) :
  (∀ W l r, w ≠ Some (DebugWithFields W l r)) →
  snd (SetDebug E w c t) = t
  ∧ SetDebug E w (fst (SetDebug E w c t)) t = SetDebug E w c t
  ∧ (∀ l r, w = Some (NewDebugWriter l r) →
       (bw_wr <$> bw (fst (SetDebug E w c t))) = Some (tap_wr (net_Conn c) l)
       ∧ (br_rd <$> br (fst (SetDebug E w c t))) = Some (tap_rd (net_Conn c) r))
  ∧ (w = Some (NewDebugWriter None None) →
     untap (fst (SetDebug E w c t)) = fst (SetDebug E None c t)
     ∧ (bw_wr <$> bw (fst (SetDebug E w c t)))
       = (bw_wr <$> bw (fst (SetDebug E None c t)))
     ∧ (br_rd <$> br (fst (SetDebug E w c t)))
       = (br_rd <$> br (fst (SetDebug E None c t))))
  ∧ (∀ k, w = Some (DebugOther k) →
       (bw_wr <$> bw (fst (SetDebug E w c t)))
       = Some (MultiWriter [ToStream (net_Conn c); ToSink k])
       ∧ (br_rd <$> br (fst (SetDebug E w c t))) = Some (TeeReader (net_Conn c) k)).
Proof.
  intros Hw. unfold SetDebug, init, NewDebugWriter, untap.
  destruct w as [[l r|W l r|k]|]; [|by destruct (Hw W l r)| |];
    destruct (br c) as [b|] eqn:Hbr, (bw c) as [b'|] eqn:Hbw,
             (flushable (net_Conn c)) eqn:Hfl;
    repeat (progress (cbn; rewrite ?Hbr, ?Hbw, ?Hfl));
    (split; [done|split; [done|split; [|split; [|]]]]);
    try (intros ? ? [= <- <-]); try (intros [= -> ->]); try (intros ? [= <-]);
    try done.
Qed.

End TransportFurther.

Section FlushFurther.
Context {F St : Type}.
Variable Flush : F -> St -> St * option error.

Lemma multiFlusher_Flush_app (fl1 fl2 : list F) (st : St) :
  multiFlusher_Flush Flush (fl1 ++ fl2) st
  = match multiFlusher_Flush Flush fl1 st with
    | (st', Some e) => (st', Some e)
    | (st', None) => multiFlusher_Flush Flush fl2 st'
    end.
Proof.
  revert st. induction fl1 as [|f fl1 IH]; intros st; simpl; [done|].
  destruct (Flush f st) as [st1 [e|]]; [done|]. apply IH.
Qed.

(** A [multiFlusher] is itself a flusher, so aggregates can be nested
    and chained.  Flushing an aggregate of aggregates is flushing the
    sinks of all of them as one flat list; flushing a concatenation is
    flushing the first part and, if that returned [nil], the second;
    an aggregate of one sink is that sink, and the empty aggregate
    returns [nil] and does nothing. *)
Theorem multiFlusher_Flush_composes (st : St) :
  (∀ fls : list (list F),
     multiFlusher_Flush (multiFlusher_Flush Flush) fls st
     = multiFlusher_Flush Flush (concat fls) st)
  ∧ (∀ fl1 fl2,
       multiFlusher_Flush Flush (fl1 ++ fl2) st
       = match multiFlusher_Flush Flush fl1 st with
         | (st', Some e) => (st', Some e)
         | (st', None) => multiFlusher_Flush Flush fl2 st'
         end)
  ∧ (∀ f, multiFlusher_Flush Flush (newMultiFlusher [f]) st = Flush f st)
  ∧ multiFlusher_Flush Flush (newMultiFlusher []) st = (st, None).
Proof.
  split; [|split; [|split; [|done]]].
  - intros fls. revert st. induction fls as [|fl fls IH]; intros st; simpl; [done|].
    rewrite multiFlusher_Flush_app.
    destruct (multiFlusher_Flush Flush fl st) as [st1 [e|]]; [done|]. apply IH.
  - intros fl1 fl2. apply multiFlusher_Flush_app.
  - intros f. simpl. by destruct (Flush f st) as [st1 [e|]].
Qed.

End FlushFurther.

Section TransportFurtherWitnesses.
Import Samples.

Lemma reachable_after (E : Env) (ops : list Op) (ct : Conn * Trace) :
  reachable E (fst ct) (snd ct) →
  reachable E (fst (after E ops ct)) (snd (after E ops ct)).
Proof.
  intros H. unfold after.
  destruct (run E ops (fst ct) (snd ct)) as [[[c' t'] outs]|] eqn:Hrun; [|done].
  by eapply run_reachable.
Qed.

Lemma reachable_fresh (E : Env) (s : Stream) :
  reachable E (fst (fresh E s)) (snd (fresh E s)).
Proof. apply reach_NewConn. Qed.

Lemma Wait_returns_between_calls_witness :
  Wait (fst (upgraded env_ok failing_upgrader (fresh env_ok (plain_stream 0)))) = true.
Proof.
  refine (Wait_returns_between_calls env_ok
            (fst (upgraded env_ok failing_upgrader (fresh env_ok (plain_stream 0))))
            (snd (upgraded env_ok failing_upgrader (fresh env_ok (plain_stream 0))))
            _).
  eapply (reach_Upgrade env_ok _ _ _ _ failing_upgrader);
    [apply (reachable_fresh env_ok (plain_stream 0))|reflexivity].
Defined.

Lemma session_conserves_bytes_witness :
  ∃ out inp,
    traffic 0 out inp [] (snd (after env_ok session (fresh env_ok (plain_stream 0))))
    ∧ pending_output (fst (fresh env_ok (plain_stream 0)))
        ++ accepted session
             [OutWrite 2 None; OutFlush None; OutWrite 2 None; OutFlush None;
              OutRead [] None]
      = out ++ pending_output (fst (after env_ok session (fresh env_ok (plain_stream 0))))
    ∧ unread_input (fst (fresh env_ok (plain_stream 0))) ++ inp
      = consumed [OutWrite 2 None; OutFlush None; OutWrite 2 None; OutFlush None;
                  OutRead [] None]
        ++ unread_input (fst (after env_ok session (fresh env_ok (plain_stream 0)))).
Proof.
  refine (session_conserves_bytes env_ok
            (fst (fresh env_ok (plain_stream 0)))
            (fst (after env_ok session (fresh env_ok (plain_stream 0))))
            (snd (fresh env_ok (plain_stream 0)))
            (snd (after env_ok session (fresh env_ok (plain_stream 0))))
            session _ (reachable_fresh env_ok (plain_stream 0)) _ eq_refl).
  intros k _ h p. reflexivity.
Defined.

Lemma Flush_delivers_pending_witness :
  pending_output
    (fst (after env_ok [OpFlush] (pending env_ok (flushing_stream 0)))) = []
  ∧ traffic 0 hi [] (snd (pending env_ok (flushing_stream 0)))
      (snd (after env_ok [OpFlush] (pending env_ok (flushing_stream 0))))
  ∧ unread_input (fst (after env_ok [OpFlush] (pending env_ok (flushing_stream 0))))
    = unread_input (fst (pending env_ok (flushing_stream 0)))
  ∧ (flushable (flushing_stream 0) = true →
     ∃ t1, snd (after env_ok [OpFlush] (pending env_ok (flushing_stream 0)))
           = EvFlush 0 None :: t1).
Proof.
  refine (Flush_delivers_pending env_ok
            (fst (pending env_ok (flushing_stream 0)))
            (fst (after env_ok [OpFlush] (pending env_ok (flushing_stream 0))))
            (snd (pending env_ok (flushing_stream 0)))
            (snd (after env_ok [OpFlush] (pending env_ok (flushing_stream 0))))
            _ eq_refl).
  apply (reachable_after env_ok [OpWrite hi] (fresh env_ok (flushing_stream 0))),
    reachable_fresh.
Defined.

Lemma write_error_is_sticky_witness :
  let ct := after env_broken_stream [OpWrite hi; OpFlush]
              (fresh env_broken_stream (plain_stream 0)) in
  (∀ p, Write env_broken_stream (fst ct) p (snd ct)
        = Some (fst ct, snd ct, (0, Some (ErrOther "broken pipe"))))
  ∧ Flush env_broken_stream (fst ct) (snd ct)
    = Some (fst ct, snd ct, Some (ErrOther "broken pipe"))
  ∧ (∀ upgrader, Upgrade env_broken_stream upgrader (fst ct) (snd ct)
                 = Some (fst ct, snd ct, Some (ErrOther "broken pipe")))
  ∧ (∀ w, write_error (fst (SetDebug env_broken_stream w (fst ct) (snd ct))) = None).
Proof.
  refine (write_error_is_sticky env_broken_stream
            (fst (after env_broken_stream [OpWrite hi; OpFlush]
                    (fresh env_broken_stream (plain_stream 0))))
            (snd (after env_broken_stream [OpWrite hi; OpFlush]
                    (fresh env_broken_stream (plain_stream 0))))
            (ErrOther "broken pipe") _ eq_refl).
  apply reachable_after, reachable_fresh.
Defined.

Lemma Upgrade_flushes_then_switches_witness :
  ∃ t1 t3 t4 s',
    traffic 0 hi [] (snd (pending env_ok (plain_stream 0))) t1
    ∧ upgrade_to (flushing_stream 1) (plain_stream 0)
        (EvUpgrader 0 :: EvGateOpen :: t1) = (t3, inl s')
    ∧ extends_with is_field_event t3 t4
    ∧ snd (upgraded env_ok (upgrade_to (flushing_stream 1))
             (pending env_ok (plain_stream 0)))
      = EvGateClose :: t4
    ∧ net_Conn (fst (upgraded env_ok (upgrade_to (flushing_stream 1))
                       (pending env_ok (plain_stream 0)))) = s'
    ∧ pending_output (fst (upgraded env_ok (upgrade_to (flushing_stream 1))
                             (pending env_ok (plain_stream 0)))) = []
    ∧ unread_input (fst (upgraded env_ok (upgrade_to (flushing_stream 1))
                           (pending env_ok (plain_stream 0)))) = []
    ∧ write_error (fst (upgraded env_ok (upgrade_to (flushing_stream 1))
                          (pending env_ok (plain_stream 0)))) = None.
Proof.
  refine (Upgrade_flushes_then_switches env_ok (upgrade_to (flushing_stream 1))
            (fst (pending env_ok (plain_stream 0)))
            (fst (upgraded env_ok (upgrade_to (flushing_stream 1))
                    (pending env_ok (plain_stream 0))))
            (snd (pending env_ok (plain_stream 0)))
            (snd (upgraded env_ok (upgrade_to (flushing_stream 1))
                    (pending env_ok (plain_stream 0))))
            _ eq_refl).
  apply (reachable_after env_ok [OpWrite hi] (fresh env_ok (plain_stream 0))),
    reachable_fresh.
Defined.

Lemma Write_buffering_witness :
  (∃ c', Write env_ok (fst (fresh env_ok (plain_stream 0))) hi
           (snd (fresh env_ok (plain_stream 0)))
         = Some (c', snd (fresh env_ok (plain_stream 0)), (length hi, None))
         ∧ pending_output c' = pending_output (fst (fresh env_ok (plain_stream 0))) ++ hi
         ∧ same_wiring (fst (fresh env_ok (plain_stream 0))) c'
         ∧ unread_input c' = unread_input (fst (fresh env_ok (plain_stream 0))))
  ∧ (∃ c' t' n err m r new,
       Write env_ok (fst (fresh env_ok (plain_stream 0))) (replicate 4097 Byte.x61)
         (snd (fresh env_ok (plain_stream 0)))
       = Some (c', t', (n, err))
       ∧ t' = new ++ EvWrite (sid (net_Conn (fst (fresh env_ok (plain_stream 0)))))
                       (replicate 4097 Byte.x61) r
                     :: snd (fresh env_ok (plain_stream 0))
       ∧ traffic (sid (net_Conn (fst (fresh env_ok (plain_stream 0)))))
           (take m (replicate 4097 Byte.x61)) []
           (snd (fresh env_ok (plain_stream 0))) t'
       ∧ n ≤ m ∧ m ≤ length (replicate 4097 Byte.x61)
       ∧ pending_output c' = []
       ∧ (err = None → n = length (replicate 4097 Byte.x61))
       ∧ (conn_sinks_ok env_ok (fst (fresh env_ok (plain_stream 0))) → m = n)).
Proof.
  split.
  - apply (proj1 (Write_buffering env_ok (fst (fresh env_ok (plain_stream 0)))
                    (snd (fresh env_ok (plain_stream 0))) hi
                    (reachable_fresh env_ok (plain_stream 0)) eq_refl)).
    apply Nat.leb_le. vm_compute. reflexivity.
  - apply (proj2 (Write_buffering env_ok (fst (fresh env_ok (plain_stream 0)))
                    (snd (fresh env_ok (plain_stream 0))) (replicate 4097 Byte.x61)
                    (reachable_fresh env_ok (plain_stream 0)) eq_refl)).
    + reflexivity.
    + apply Nat.ltb_lt. vm_compute. reflexivity.
Defined.

Lemma SetDebug_without_fields_witness :
  snd (SetDebug env_ok (Some (NewDebugWriter (Some 1) None))
         (fst (pending env_ok (plain_stream 0))) (snd (pending env_ok (plain_stream 0))))
  = snd (pending env_ok (plain_stream 0))
  ∧ bw_wr <$> bw (fst (SetDebug env_ok (Some (NewDebugWriter (Some 1) None))
                         (fst (pending env_ok (plain_stream 0)))
                         (snd (pending env_ok (plain_stream 0)))))
    = Some (MultiWriter [ToStream (plain_stream 0); ToSink 1])
  ∧ br_rd <$> br (fst (SetDebug env_ok (Some (NewDebugWriter (Some 1) None))
                         (fst (pending env_ok (plain_stream 0)))
                         (snd (pending env_ok (plain_stream 0)))))
    = Some (FromStream (plain_stream 0)).
Proof.
  pose proof (SetDebug_without_fields env_ok (Some (NewDebugWriter (Some 1) None))
                (fst (pending env_ok (plain_stream 0)))
                (snd (pending env_ok (plain_stream 0)))
                (fun W l r H => eq_ind (Some (NewDebugWriter (Some 1) None))
                                  (fun d => match d with
                                            | Some (DebugWriter _ _) => True
                                            | _ => False
                                            end) I _ H))
    as (Ht & _ & Htaps & _).
  split; [exact Ht|]. exact (Htaps (Some 1) None eq_refl).
Defined.

Lemma fields_set_before_sinks_taken_witness :
  let '(d, t0) := NewDebugWithFields env_ok (Some 1) (Some 2) [] in
  let '(c', t') := SetDebug env_ok (Some d) (fst (fresh env_ok (addressed_stream 0))) t0 in
  d = DebugWithFields (Some 1) (Some 1) (Some 2)
  ∧ debug c' = Some (DebugWithFields (Some 1) (Some 1) (Some 2))
  ∧ (bw_wr <$> bw c') = Some (MultiWriter [ToStream (addressed_stream 0); ToSink 1])
  ∧ (br_rd <$> br c') = Some (TeeReader (addressed_stream 0) 2)
  ∧ (∀ fs, Some 1 = Some fs ∨ Some 2 = Some fs →
       history (on_fields fs) t'
       = EvWriterOf fs :: address_tags (addressed_stream 0) fs
         ++ history (on_fields fs) t0).
Proof.
  refine (fields_set_before_sinks_taken env_ok (Some 1) (Some 2)
            (fst (fresh env_ok (addressed_stream 0))) [] _).
  intros lf rf [= <-] [= <-]. discriminate.
Defined.

End TransportFurtherWitnesses.
